(** * SPARStwo: interface bookkeeping and sparse roadmap of the SPARS 2.0 planner

    A shallow embedding of [src/ompl/geometric/planners/prm/SPARStwo.h].
    Configurations ([base::State]) live in a free store owned by the space
    information object; the planner only holds pointers to them.  Every
    operation that touches the store is written in a small state-and-error
    monad, so that an invalid free, a clone of a dangling pointer or a
    distance query on a released configuration shows up as a failed run. *)

From Stdlib Require Import ZArith Lia.
From stdpp Require Import base option list gmap relations.

#[local] Set Warnings "-clear-no-such-hyp".

(** ** The free store of configurations *)

(** An address of an allocated configuration. *)
Abbreviation loc := positive.

(** [base::State*]: [None] is the [NULL] pointer. *)
Abbreviation ptr := (option loc).
Abbreviation NULL := (@None loc).

(** What the space information object was asked to do, in order. *)
Inductive event :=
  | EvFree (a : loc)
  | EvClone (src dst : loc).

Section Store.
Context {State : Type}.

(** Modelled from the spec: [base::SpaceInformation] is an external
    collaborator ("allocate/clone/free a configuration; scalar
    distance(a,b)"); its store is a finite map from addresses to
    configurations, together with the log of the calls it served. *)
Record si_state := SiState {
  heap : gmap loc State;
  log : list event
}.

(** Computations over the store that may go wrong. *)
Definition M (A : Type) : Type := si_state → option (A * si_state).

#[export] Instance M_ret : MRet M := λ A x σ, Some (x, σ).
#[export] Instance M_bind : MBind M := λ A B k c σ,
  match c σ with
  | Some (x, σ') => k x σ'
  | None => None
  end.
Definition fail {A} : M A := λ _, None.

(** The allocator hands out an address that is not in use; a released
    address may be handed out again. *)
Definition allocState (h : gmap loc State) : loc := fresh (dom h).

(** Modelled from the spec: [si->freeState(p)] releases an allocated
    configuration; releasing [NULL] or an address that is not allocated
    (a double free) is an error. *)
Definition freeState (p : ptr) : M unit :=
  λ σ, match p with
       | Some a =>
           match heap σ !! a with
           | Some _ => Some (tt, SiState (delete a (heap σ)) (log σ ++ [EvFree a]))
           | None => None
           end
       | None => None
       end.

(** Modelled from the spec: [si->cloneState(p)] allocates a new
    configuration and copies [*p] into it. *)
Definition cloneState (p : ptr) : M ptr :=
  λ σ, match p with
       | Some a =>
           match heap σ !! a with
           | Some x =>
               let b := allocState (heap σ) in
               Some (Some b, SiState (<[b:=x]> (heap σ)) (log σ ++ [EvClone a b]))
           | None => None
           end
       | None => None
       end.

(** Reading the configuration behind a pointer. *)
Definition deref (h : gmap loc State) (p : ptr) : option State :=
  match p with
  | Some a => h !! a
  | None => None
  end.
End Store.

Arguments si_state : clear implicits.
Arguments M : clear implicits.
Arguments freeState : simpl never.
Arguments cloneState : simpl never.
Arguments allocState : simpl never.


(** ** Null-safe configuration holders *)

(** [class safeState]: a pointer that is [NULL] unless assigned. *)
Record safeState := SafeState { st_ : ptr }.

Module safe.
(** [safeState( void )] *)
Definition new : safeState := SafeState NULL.
(** [safeState( base::State* state )] and [operator=] *)
Definition assign (state : ptr) : safeState := SafeState state.
(** [get( void )] *)
Definition get (ss : safeState) : ptr := st_ ss.
(** [setNull( void )] *)
Definition setNull (ss : safeState) : safeState := SafeState NULL.
End safe.

(** [typedef std::pair< safeState, safeState > safeStatePair] *)
Abbreviation safeStatePair := (safeState * safeState)%type.

(** [typedef std::pair< unsigned long, unsigned long > VertexPair] *)
Abbreviation Vertex := nat.
Abbreviation VertexPair := (Vertex * Vertex)%type.

(** ** Interface information *)

(** The two sides of a record. *)
Inductive side := first | second.

Definition opposite (sd : side) : side :=
  match sd with first => second | second => first end.

Definition slot {A} (sd : side) (pr : A * A) : A :=
  match sd with first => pr.1 | second => pr.2 end.

Section Interface.
Context {State double : Type}.
Variable infinity : double.
Variable distance : State → State → double.

Abbreviation M := (M State).

(** [si->distance(p, q)]: both configurations must be allocated. *)
Definition si_distance (p q : ptr) : M double :=
  λ σ, match deref (heap σ) p, deref (heap σ) q with
       | Some x, Some y => Some (distance x y, σ)
       | _, _ => None
       end.

(** [struct InterfaceData] *)
Record InterfaceData := mkInterfaceData {
  points_ : safeStatePair;
  sigmas_ : safeStatePair;
  d_ : double
}.

(** [InterfaceData( void )] *)
Definition InterfaceData_new : InterfaceData :=
  mkInterfaceData (safe.new, safe.new) (safe.new, safe.new) infinity.

(** [if( p != NULL ) si->freeState( p )] *)
Definition freeIfSet (p : ptr) : M unit :=
  match p with
  | Some a => freeState (Some a)
  | None => mret tt
  end.

(** [InterfaceData::setFirst], called with arguments that are not bound to
    the record's own first close point (by value and by reference are then
    the same; [setFirst_ref] is the call for any binding). *)
Definition setFirst (p s : safeState) (this : InterfaceData) : M InterfaceData :=
  freeIfSet (safe.get (points_ this).1) ;;
  c ← cloneState (safe.get p);
  let this := mkInterfaceData (safe.assign c, (points_ this).2) (sigmas_ this) (d_ this) in
  freeIfSet (safe.get (sigmas_ this).1) ;;
  c ← cloneState (safe.get s);
  let this := mkInterfaceData (points_ this) (safe.assign c, (sigmas_ this).2) (d_ this) in
  match safe.get (points_ this).2 with
  | Some _ =>
      d ← si_distance (safe.get (points_ this).1) (safe.get (points_ this).2);
      mret (mkInterfaceData (points_ this) (sigmas_ this) d)
  | None => mret this
  end.

(** [InterfaceData::setSecond], likewise for the second close point. *)
Definition setSecond (p s : safeState) (this : InterfaceData) : M InterfaceData :=
  freeIfSet (safe.get (points_ this).2) ;;
  c ← cloneState (safe.get p);
  let this := mkInterfaceData ((points_ this).1, safe.assign c) (sigmas_ this) (d_ this) in
  freeIfSet (safe.get (sigmas_ this).2) ;;
  c ← cloneState (safe.get s);
  let this := mkInterfaceData (points_ this) ((sigmas_ this).1, safe.assign c) (d_ this) in
  match safe.get (points_ this).1 with
  | Some _ =>
      d ← si_distance (safe.get (points_ this).1) (safe.get (points_ this).2);
      mret (mkInterfaceData (points_ this) (sigmas_ this) d)
  | None => mret this
  end.

(** [SPARStwo::clearSafeState] *)
Definition clearSafeState (ss : safeState) : M safeState :=
  freeIfSet (safe.get ss) ;;
  mret (safe.setNull ss).

(** [SPARStwo::clearInterfaceData] *)
Definition clearInterfaceData (iData : InterfaceData) : M InterfaceData :=
  pf ← clearSafeState (points_ iData).1;
  ps ← clearSafeState (points_ iData).2;
  sf ← clearSafeState (sigmas_ iData).1;
  ss ← clearSafeState (sigmas_ iData).2;
  mret (mkInterfaceData (pf, ps) (sf, ss) infinity).

Definition setter (sd : side) :=
  match sd with
  | first => setFirst
  | second => setSecond
  end.

(** The distance of the close points once side [sd] holds [x] and the
    other side holds [z]: always first against second. *)
Definition close_distance (sd : side) (x z : State) : double :=
  match sd with first => distance x z | second => distance z x end.

(** *** Ownership and reachable records *)

(** The heap after [freeIfSet]. *)
Definition released (p : ptr) (h : gmap loc State) : gmap loc State :=
  match p with
  | Some a => delete a h
  | None => h
  end.

Definition free_events (p : ptr) : list event :=
  match p with
  | Some a => [EvFree a]
  | None => []
  end.

(** A pointer is usable: [NULL], or the address of a live configuration. *)
Definition null_or_live (h : gmap loc State) (p : ptr) : Prop :=
  match p with
  | Some a => is_Some (h !! a)
  | None => True
  end.

(** The configurations a record owns. *)
Definition owned (d : InterfaceData) : list loc :=
  omap safe.get [(points_ d).1; (points_ d).2; (sigmas_ d).1; (sigmas_ d).2].

Definition record_wf (h : gmap loc State) (d : InterfaceData) : Prop :=
  NoDup (owned d) ∧ ∀ a, a ∈ owned d → is_Some (h !! a).

Definition d_spec (h : gmap loc State) (d : InterfaceData) : Prop :=
  match safe.get (points_ d).1, safe.get (points_ d).2 with
  | Some a, Some b =>
      ∃ x y, h !! a = Some x ∧ h !! b = Some y ∧ d_ d = distance x y
  | _, _ => d_ d = infinity
  end.

(** The store after the configurations at [l] were released, and nothing
    else happened. *)
Definition freed (l : list loc) (σ σ' : si_state State) : Prop :=
  (∀ a, a ∈ l → heap σ' !! a = None) ∧
  (∀ a, a ∉ l → heap σ' !! a = heap σ !! a) ∧
  log σ' = log σ ++ (EvFree <$> l).

(** Two pointers never alias a live configuration. *)
Definition apart (p q : ptr) : Prop := ∀ a, p = Some a → q = Some a → False.

(** One slot of a record is overwritten: the heaps and addresses the
    two release-then-clone steps go through. *)
Record overwrite (h0 : gmap loc State) (old_p old_s : ptr) (pa sa : loc)
    (x y : State) (a b : loc) (h4 : gmap loc State) : Prop := {
  ow_old_p : null_or_live h0 old_p;
  ow_src_p : released old_p h0 !! pa = Some x;
  ow_a : a = allocState (released old_p h0);
  ow_old_s : null_or_live (<[a:=x]> (released old_p h0)) old_s;
  ow_src_s : released old_s (<[a:=x]> (released old_p h0)) !! sa = Some y;
  ow_b : b = allocState (released old_s (<[a:=x]> (released old_p h0)));
  ow_heap : h4 = <[b:=y]> (released old_s (<[a:=x]> (released old_p h0)))
}.

Definition overwrite_events (old_p old_s : ptr) (pa sa a b : loc) : list event :=
  free_events old_p ++ [EvClone pa a] ++ free_events old_s ++ [EvClone sa b].

(** What can happen to a record and the store around it. *)
Inductive reachable : si_state State → InterfaceData → Prop :=
  | reach_new σ :
      reachable σ InterfaceData_new
  | reach_setFirst σ d p s d' σ' :
      reachable σ d →
      setFirst p s d σ = Some (d', σ') →
      reachable σ' d'
  | reach_setSecond σ d p s d' σ' :
      reachable σ d →
      setSecond p s d σ = Some (d', σ') →
      reachable σ' d'
  | reach_clear σ d d' σ' :
      reachable σ d →
      clearInterfaceData d σ = Some (d', σ') →
      reachable σ' d'
  | reach_frame σ d σ' :
      (* the rest of the planner runs; the record exclusively owns its
         configurations, so they stay as they are *)
      reachable σ d →
      (∀ a, a ∈ owned d → heap σ' !! a = heap σ !! a) →
      reachable σ' d.
End Interface.

Arguments InterfaceData : clear implicits.

(** ** The roadmap *)

(** [enum GuardType] *)
Inductive GuardType :=
  | START
  | GOAL
  | COVERAGE
  | CONNECTIVITY
  | INTERFACE
  | QUALITY.

(** [unsigned int]: 32 bits; a value passed for such a parameter is
    converted modulo [2^32]. *)
Definition to_unsigned (z : Z) : Z := (z mod 2 ^ 32)%Z.

Section Roadmap.
Context {State double : Type}.
Variable infinity : double.
Variable distance : State → State → double.
(** [x <= y] on [double]. *)
Variable dle : double → double → bool.
(** [si->checkMotion(a, b)]: the straight line between two
    configurations is free. *)
Variable checkMotion : State → State → bool.

Abbreviation M := (M State).
Abbreviation InterfaceData := (InterfaceData double).

(** [typedef boost::unordered_map< VertexPair, InterfaceData, ... > InterfaceHash] *)
Abbreviation InterfaceHash := (gmap VertexPair InterfaceData).

(** The vertex properties of [Graph]: [vertex_state_t],
    [vertex_predecessor_t], [vertex_rank_t], [vertex_color_t] and
    [vertex_interface_data_t]. *)
Record VertexProperty := mkVertex {
  vertex_state : ptr;
  vertex_predecessor : Vertex;
  vertex_rank : nat;
  vertex_color : GuardType;
  vertex_interface_data : InterfaceHash
}.

(** [boost::adjacency_list< vecS, vecS, undirectedS, ..., edge_weight_t >]:
    vertices are numbered by their position; an edge carries its weight. *)
Record Graph := mkGraph {
  vertices : list VertexProperty;
  edges : list (Vertex * Vertex * double)
}.

(** The data members of [class SPARStwo] the modelled operations use. *)
Record SPARStwo := mkSPARStwo {
  g_ : Graph;
  startM_ : list Vertex;
  goalM_ : list Vertex;
  stretchFactor_ : double;
  sparseDelta_ : double;
  denseDelta_ : double;
  maxFailures_ : Z;
  nearSamplePoints_ : Z;
  qNew_ : ptr;
  graphNeighborhood_ : list Vertex;
  visibleNeighborhood_ : list Vertex;
  addedSolution_ : bool;
  iterations_ : Z
}.

Definition with_g (g : Graph) (this : SPARStwo) : SPARStwo :=
  mkSPARStwo g (startM_ this) (goalM_ this) (stretchFactor_ this)
    (sparseDelta_ this) (denseDelta_ this) (maxFailures_ this)
    (nearSamplePoints_ this) (qNew_ this) (graphNeighborhood_ this)
    (visibleNeighborhood_ this) (addedSolution_ this) (iterations_ this).

Definition with_vertices (vs : list VertexProperty) (this : SPARStwo) : SPARStwo :=
  with_g (mkGraph vs (edges (g_ this))) this.

(** *** Configuration *)

(** [setStretchFactor] *)
Definition setStretchFactor (t : double) (this : SPARStwo) : SPARStwo :=
  mkSPARStwo (g_ this) (startM_ this) (goalM_ this) t
    (sparseDelta_ this) (denseDelta_ this) (maxFailures_ this)
    (nearSamplePoints_ this) (qNew_ this) (graphNeighborhood_ this)
    (visibleNeighborhood_ this) (addedSolution_ this) (iterations_ this).

(** [setSparseDelta] *)
Definition setSparseDelta (D : double) (this : SPARStwo) : SPARStwo :=
  mkSPARStwo (g_ this) (startM_ this) (goalM_ this) (stretchFactor_ this)
    D (denseDelta_ this) (maxFailures_ this)
    (nearSamplePoints_ this) (qNew_ this) (graphNeighborhood_ this)
    (visibleNeighborhood_ this) (addedSolution_ this) (iterations_ this).

(** [setDenseDelta] *)
Definition setDenseDelta (d : double) (this : SPARStwo) : SPARStwo :=
  mkSPARStwo (g_ this) (startM_ this) (goalM_ this) (stretchFactor_ this)
    (sparseDelta_ this) d (maxFailures_ this)
    (nearSamplePoints_ this) (qNew_ this) (graphNeighborhood_ this)
    (visibleNeighborhood_ this) (addedSolution_ this) (iterations_ this).

(** [setMaxFailures( unsigned int m )]: the argument arrives converted to
    [unsigned int]. *)
Definition setMaxFailures (m : Z) (this : SPARStwo) : SPARStwo :=
  mkSPARStwo (g_ this) (startM_ this) (goalM_ this) (stretchFactor_ this)
    (sparseDelta_ this) (denseDelta_ this) (to_unsigned m)
    (nearSamplePoints_ this) (qNew_ this) (graphNeighborhood_ this)
    (visibleNeighborhood_ this) (addedSolution_ this) (iterations_ this).

(** [getMaxFailures], [getDenseDelta], [getSparseDelta], [getStretchFactor] *)
Definition getMaxFailures (this : SPARStwo) : Z := maxFailures_ this.
Definition getDenseDelta (this : SPARStwo) : double := denseDelta_ this.
Definition getSparseDelta (this : SPARStwo) : double := sparseDelta_ this.
Definition getStretchFactor (this : SPARStwo) : double := stretchFactor_ this.

(** [boost::num_vertices(g_)], the number of guards; [milestoneCount]
    returns it as an [unsigned int], the same number below [2^32]. *)
Definition milestoneCount (this : SPARStwo) : nat := length (vertices (g_ this)).

(** *** Helpers of the monad *)

(** A partial result that does not touch the store. *)
Definition liftO {A} (o : option A) : M A :=
  λ σ, match o with Some x => Some (x, σ) | None => None end.

(** A read of the store. *)
Definition readM {A} (f : gmap loc State → option A) : M A :=
  λ σ, match f (heap σ) with Some x => Some (x, σ) | None => None end.

(** [foreach] with an accumulator. *)
Fixpoint foldM {A B} (f : B → A → M B) (b : B) (l : list A) : M B :=
  match l with
  | [] => mret b
  | x :: l => b' ← f b x; foldM f b' l
  end.

(** [distanceFunction] *)
Definition distanceFunction (a b : Vertex) (this : SPARStwo) : M double :=
  va ← liftO (vertices (g_ this) !! a);
  vb ← liftO (vertices (g_ this) !! b);
  si_distance distance (vertex_state va) (vertex_state vb).

(** *** Connected components *)

Definition set_predecessor (p : Vertex) (v : VertexProperty) : VertexProperty :=
  mkVertex (vertex_state v) p (vertex_rank v) (vertex_color v)
    (vertex_interface_data v).

Definition set_rank (r : nat) (v : VertexProperty) : VertexProperty :=
  mkVertex (vertex_state v) (vertex_predecessor v) r (vertex_color v)
    (vertex_interface_data v).

Definition set_interface_data (ih : InterfaceHash) (v : VertexProperty)
    : VertexProperty :=
  mkVertex (vertex_state v) (vertex_predecessor v) (vertex_rank v)
    (vertex_color v) ih.

(** Modelled from the spec: [disjointSets_] is the union-find over the
    predecessor and rank properties ("a union-find parent/rank pair");
    the representative of [x] is the end of its predecessor chain. *)
Fixpoint find_rep (vs : list VertexProperty) (fuel : nat) (x : Vertex)
    : option Vertex :=
  match fuel with
  | 0 => None
  | S fuel =>
      match vs !! x with
      | None => None
      | Some v =>
          if decide (vertex_predecessor v = x) then Some x
          else find_rep vs fuel (vertex_predecessor v)
      end
  end.

Definition find_set (g : Graph) (x : Vertex) : option Vertex :=
  find_rep (vertices g) (length (vertices g)) x.

(** Modelled from the spec: merging two representatives by rank; the one
    of smaller rank goes below the other, ties raise the rank. *)
Definition link (i j : Vertex) (vs : list VertexProperty)
    : option (list VertexProperty) :=
  if decide (i = j) then Some vs
  else
    vi ← vs !! i;
    vj ← vs !! j;
    if decide (vertex_rank vj < vertex_rank vi) then
      Some (<[j := set_predecessor i vj]> vs)
    else
      let vs' := <[i := set_predecessor j vi]> vs in
      if decide (vertex_rank vi = vertex_rank vj) then
        Some (<[j := set_rank (S (vertex_rank vj)) vj]> vs')
      else Some vs'.

(** Modelled from the spec: [sameComponent(u, v)], the connectivity query
    on the union-find. *)
Definition sameComponent (u v : Vertex) (this : SPARStwo) : option bool :=
  ru ← find_set (g_ this) u;
  rv ← find_set (g_ this) v;
  Some (bool_decide (ru = rv)).

(** Modelled from the spec: [uniteComponents] is only declared in the
    header; it merges the components of [m1] and [m2]. *)
Definition uniteComponents (m1 m2 : Vertex) (this : SPARStwo) : M SPARStwo :=
  r1 ← liftO (find_set (g_ this) m1);
  r2 ← liftO (find_set (g_ this) m2);
  vs ← liftO (link r1 r2 (vertices (g_ this)));
  mret (with_vertices vs this).

(** Modelled from the spec: [connect] is only declared in the header;
    "adds an edge weighted by distance(u,v) and merges the union-find
    components of u and v". *)
Definition connect (v vp : Vertex) (this : SPARStwo) : M SPARStwo :=
  weight ← distanceFunction v vp this;
  let g := mkGraph (vertices (g_ this)) (edges (g_ this) ++ [(v, vp, weight)]) in
  uniteComponents v vp (with_g g this).

(** *** Interface abandonment *)

(** [x] lies within the visibility range of [y]: their distance is at most
    [sparseDelta_]. *)
Definition within (this : SPARStwo) (y x : State) : bool :=
  dle (distance y x) (sparseDelta_ this).

(** The same for the configurations behind two pointers. *)
Definition withinRange (this : SPARStwo) (h : gmap loc State) (st p : ptr)
    : option bool :=
  y ← deref h st;
  x ← deref h p;
  Some (within this y x).

Definition closePointWithin (this : SPARStwo) (h : gmap loc State) (st : ptr)
    (ss : safeState) : option bool :=
  match safe.get ss with
  | Some a => withinRange this h st (Some a)
  | None => Some false
  end.

(** One of the two close points of a record is within range of [st]. *)
Definition witnessWithin (this : SPARStwo) (h : gmap loc State) (st : ptr)
    (d : InterfaceData) : option bool :=
  b1 ← closePointWithin this h st (points_ d).1;
  b2 ← closePointWithin this h st (points_ d).2;
  Some (b1 || b2).

Fixpoint anyO {A} (f : A → option bool) (l : list A) : option bool :=
  match l with
  | [] => Some false
  | x :: l => b ← f x; bs ← anyO f l; Some (b || bs)
  end.

Fixpoint filterO {A} (f : A → option bool) (l : list A) : option (list A) :=
  match l with
  | [] => Some []
  | x :: l => b ← f x; l' ← filterO f l; Some (if b : bool then x :: l' else l')
  end.

(** Modelled from the spec: a guard "must abandon [its] interface
    information" (header) when one of its records has a close point
    "within the new guard's visibility range of st" (spec, 4.4). *)
Definition mustAbandon (st : ptr) (v : Vertex) (this : SPARStwo) : M bool :=
  vx ← liftO (vertices (g_ this) !! v);
  readM (λ h, anyO (λ kd, witnessWithin this h st kd.2)
                (map_to_list (vertex_interface_data vx))).

(** Modelled from the spec: [deletePairInfo] is only declared in the
    header ("Deletes all the states in a vertex's lists"); every record of
    the vertex is cleared. *)
Definition deletePairInfo (v : Vertex) (this : SPARStwo) : M SPARStwo :=
  vx ← liftO (vertices (g_ this) !! v);
  ih ← foldM (λ ih kd,
                d ← clearInterfaceData infinity kd.2;
                mret (<[kd.1 := d]> ih))
             (vertex_interface_data vx)
             (map_to_list (vertex_interface_data vx));
  mret (with_vertices (<[v := set_interface_data ih vx]> (vertices (g_ this))) this).

(** Modelled from the spec: [abandonLists] is only declared in the header
    ("finds all guards who must abandon their interface information and
    deletes that information"). *)
Definition abandonLists (st : ptr) (this : SPARStwo) : M SPARStwo :=
  foldM (λ this v,
           b ← mustAbandon st v this;
           if b : bool then deletePairInfo v this else mret this)
        this (seq 0 (length (vertices (g_ this)))).

(** Modelled from the spec: [addGuard] is only declared in the header;
    it "clones the configuration, creates a vertex, assigns provenance,
    returns a new guard identifier"; the new guard is its own component,
    and interface abandonment runs for it. *)
Definition addGuard (state : ptr) (type : GuardType) (this : SPARStwo)
    : M (Vertex * SPARStwo) :=
  c ← cloneState state;
  let m := length (vertices (g_ this)) in
  let this := with_vertices (vertices (g_ this) ++ [mkVertex c m 0 type ∅]) this in
  this ← abandonLists c this;
  mret (m, this).

(** *** Clearing *)

(** [clearQuery]: forgets the start and goal milestones. *)
Definition clearQuery (this : SPARStwo) : SPARStwo :=
  mkSPARStwo (g_ this) [] [] (stretchFactor_ this)
    (sparseDelta_ this) (denseDelta_ this) (maxFailures_ this)
    (nearSamplePoints_ this) (qNew_ this) (graphNeighborhood_ this)
    (visibleNeighborhood_ this) (addedSolution_ this) (iterations_ this).

(** Modelled from the spec: [freeMemory] is only declared in the header
    ("Free all the memory allocated by the planner"): every record's
    configurations and every guard's configuration are released. *)
Definition freeMemory (this : SPARStwo) : M unit :=
  foldM (λ _ vx,
           foldM (λ _ kd, clearInterfaceData infinity kd.2 ;; mret tt) tt
                 (map_to_list (vertex_interface_data vx)) ;;
           freeIfSet (vertex_state vx))
        tt (vertices (g_ this)).

(** Modelled from the spec: [clear] is only declared in the header; it
    "frees every guard's configuration and every Interface Witness
    record's configurations, empties the graph" and is a full reset. *)
Definition clear (this : SPARStwo) : M SPARStwo :=
  freeMemory this ;;
  mret (clearQuery (with_g (mkGraph [] []) this)).

(** *** Neighbourhoods and the coverage criterion *)

Definition guardWithin (this : SPARStwo) (h : gmap loc State) (st : ptr)
    (v : Vertex) : option bool :=
  vx ← vertices (g_ this) !! v;
  withinRange this h st (vertex_state vx).

Definition guardVisible (this : SPARStwo) (h : gmap loc State) (st : ptr)
    (v : Vertex) : option bool :=
  vx ← vertices (g_ this) !! v;
  y ← deref h st;
  x ← deref h (vertex_state vx);
  Some (checkMotion y x).

Definition with_neighborhoods (gn vn : list Vertex) (this : SPARStwo) : SPARStwo :=
  mkSPARStwo (g_ this) (startM_ this) (goalM_ this) (stretchFactor_ this)
    (sparseDelta_ this) (denseDelta_ this) (maxFailures_ this)
    (nearSamplePoints_ this) (qNew_ this) gn vn
    (addedSolution_ this) (iterations_ this).

(** Modelled from the spec: [findGraphNeighbors] is only declared in the
    header; "query the nearest-neighbor index for all guards within
    sparse-visibility range of state (metric distance ≤ sparseDelta), then
    filter to the subset mutually visible from state". *)
Definition findGraphNeighbors (st : ptr) (this : SPARStwo) : M SPARStwo :=
  gn ← readM (λ h, filterO (guardWithin this h st)
                     (seq 0 (length (vertices (g_ this)))));
  vn ← readM (λ h, filterO (guardVisible this h st) gn);
  mret (with_neighborhoods gn vn this).

(** Modelled from the spec: [checkAddCoverage] is only declared in the
    header; "if the visible neighborhood of q is empty, add q as a guard
    with provenance COVERAGE". *)
Definition checkAddCoverage (this : SPARStwo) : M (bool * SPARStwo) :=
  match visibleNeighborhood_ this with
  | [] => r ← addGuard (qNew_ this) COVERAGE this; mret (true, r.2)
  | _ :: _ => mret (false, this)
  end.

(** *** Addressing interface records *)

(** Modelled from the spec: [index] is only declared in the header
    ("Rectifies indexing order for accessing the vertex data"); the key
    does not depend on the order of the two identifiers. *)
Definition index (vp vpp : Vertex) : VertexPair :=
  if decide (vp < vpp) then (vp, vpp) else (vpp, vp).

(** Modelled from the spec: [getData] is only declared in the header;
    the record of [v] for the pair, "created lazily on first need". *)
Definition getData (v vp vpp : Vertex) (this : SPARStwo) : option InterfaceData :=
  vx ← vertices (g_ this) !! v;
  Some (default (InterfaceData_new infinity)
                (vertex_interface_data vx !! index vp vpp)).

(** Modelled from the spec: [setData] is only declared in the header. *)
Definition setData (v vp vpp : Vertex) (d : InterfaceData) (this : SPARStwo)
    : option SPARStwo :=
  vx ← vertices (g_ this) !! v;
  Some (with_vertices
          (<[v := set_interface_data
                    (<[index vp vpp := d]> (vertex_interface_data vx)) vx]>
             (vertices (g_ this))) this).

(** The slot of the record for [(vp, vpp)] that belongs to [vp]'s side:
    "lower id → first slot". *)
Definition sideOf (vp vpp : Vertex) : side :=
  if decide (vp < vpp) then first else second.

(** Modelled from the spec: writing the witness of [vp]'s side of the
    interface between [vp] and [vpp] kept at [v]. *)
Definition writeWitness (v vp vpp : Vertex) (q s : safeState) (this : SPARStwo)
    : M SPARStwo :=
  d ← liftO (getData v vp vpp this);
  d' ← match sideOf vp vpp with
       | first => setFirst distance q s d
       | second => setSecond distance q s d
       end;
  liftO (setData v vp vpp d' this).

(** *** The planner's operations *)

Definition with_qNew (p : ptr) (this : SPARStwo) : SPARStwo :=
  mkSPARStwo (g_ this) (startM_ this) (goalM_ this) (stretchFactor_ this)
    (sparseDelta_ this) (denseDelta_ this) (maxFailures_ this)
    (nearSamplePoints_ this) p (graphNeighborhood_ this)
    (visibleNeighborhood_ this) (addedSolution_ this) (iterations_ this).

(** Modelled from the spec: [sample] is only declared in the header
    ("Sample a valid random state, storing it in qNew_"); [x] is the
    configuration the sampler produced. *)
Definition sample (x : State) (this : SPARStwo) : M SPARStwo :=
  λ σ, match qNew_ this with
       | Some a =>
           match heap σ !! a with
           | Some _ => Some (this, SiState (<[a:=x]> (heap σ)) (log σ))
           | None => None
           end
       | None =>
           let a := allocState (heap σ) in
           Some (with_qNew (Some a) this, SiState (<[a:=x]> (heap σ)) (log σ))
       end.

Inductive op :=
  | OpSample (x : State)
  | OpFindGraphNeighbors (st : ptr)
  | OpCheckAddCoverage
  | OpAddGuard (st : ptr) (type : GuardType)
  | OpConnect (v vp : Vertex)
  | OpWriteWitness (v vp vpp : Vertex) (q s : safeState)
  | OpClearQuery
  | OpClear
  | OpSetStretchFactor (t : double)
  | OpSetSparseDelta (D : double)
  | OpSetDenseDelta (d : double)
  | OpSetMaxFailures (m : Z).

Definition run (o : op) (this : SPARStwo) : M SPARStwo :=
  match o with
  | OpSample x => sample x this
  | OpFindGraphNeighbors st => findGraphNeighbors st this
  | OpCheckAddCoverage => r ← checkAddCoverage this; mret r.2
  | OpAddGuard st type => r ← addGuard st type this; mret r.2
  | OpConnect v vp => connect v vp this
  | OpWriteWitness v vp vpp q s => writeWitness v vp vpp q s this
  | OpClearQuery => mret (clearQuery this)
  | OpClear => clear this
  | OpSetStretchFactor t => mret (setStretchFactor t this)
  | OpSetSparseDelta D => mret (setSparseDelta D this)
  | OpSetDenseDelta d => mret (setDenseDelta d this)
  | OpSetMaxFailures m => mret (setMaxFailures m this)
  end.

(** The states of a planner that starts with an empty roadmap. *)
Inductive planner_reachable : SPARStwo → si_state State → Prop :=
  | planner_init this σ :
      g_ this = mkGraph [] [] →
      planner_reachable this σ
  | planner_step o this σ this' σ' :
      planner_reachable this σ →
      run o this σ = Some (this', σ') →
      planner_reachable this' σ'.

(** *** Ownership in the roadmap *)

Definition state_owned (p : ptr) : list loc :=
  match p with
  | Some a => [a]
  | None => []
  end.

Definition hash_owned (ih : InterfaceHash) : list loc :=
  map_to_list ih ≫= (λ kd, owned kd.2).

(** A guard owns the configurations of its interface records and its own. *)
Definition vertex_owned (vx : VertexProperty) : list loc :=
  hash_owned (vertex_interface_data vx) ++ state_owned (vertex_state vx).

Definition graph_owned (g : Graph) : list loc :=
  vertices g ≫= vertex_owned.

(** "Ownership of all configuration objects is exclusive per container";
    "every guard present in the graph has a valid, non-freed
    configuration". *)
Record graph_wf (this : SPARStwo) (σ : si_state State) : Prop := {
  wf_nodup : NoDup (graph_owned (g_ this));
  wf_live : ∀ a, a ∈ graph_owned (g_ this) → is_Some (heap σ !! a);
  wf_guard : ∀ v vx, vertices (g_ this) !! v = Some vx → is_Some (vertex_state vx)
}.

(** Every record of the hash, cleared. *)
Definition cleared (ih : InterfaceHash) : InterfaceHash :=
  (λ _, InterfaceData_new infinity) <$> ih.

(** [a] is one of the two close points of the record. *)
Definition close_point (d : InterfaceData) (a : loc) : Prop :=
  safe.get (points_ d).1 = Some a ∨ safe.get (points_ d).2 = Some a.

(** Some close point of the record is within range of [y]. *)
Definition witness_near (this : SPARStwo) (h : gmap loc State) (y : State)
    (d : InterfaceData) : Prop :=
  ∃ a x, close_point d a ∧ h !! a = Some x ∧ within this y x = true.

(** All close points of the record are live and out of range of [y]. *)
Definition witness_far (this : SPARStwo) (h : gmap loc State) (y : State)
    (d : InterfaceData) : Prop :=
  ∀ a, close_point d a → ∃ x, h !! a = Some x ∧ within this y x = false.
(** What interface abandonment did to the guard at [v]: it kept the
    records, none of which has a close point near [y], or it cleared them
    all, one of them having had such a close point. *)
Definition abandon_outcome (this : SPARStwo) (σ σ' : si_state State) (y : State)
    (vx vx' : VertexProperty) : Prop :=
  (vx' = vx ∧
   ∀ k r, vertex_interface_data vx !! k = Some r →
          witness_far this (heap σ') y r)
  ∨
  (vx' = set_interface_data (cleared (vertex_interface_data vx)) vx ∧
   (∃ k r, vertex_interface_data vx !! k = Some r ∧
           witness_near this (heap σ) y r) ∧
   ∀ a, a ∈ hash_owned (vertex_interface_data vx) → heap σ' !! a = None).
(** *** Components and paths of edges *)

(** An edge of the roadmap joins [u] and [v]. *)
Definition adjacent (g : Graph) (u v : Vertex) : Prop :=
  ∃ w, (u, v, w) ∈ edges g.

(** Some path of edges, taken in either direction, leads from [u] to [v]. *)
Definition connected (g : Graph) : relation Vertex := rtsc (adjacent g).

(** [r] is the end of the predecessor chain of [x]. *)
Inductive repr (vs : list VertexProperty) : Vertex → Vertex → Prop :=
  | repr_root x vx :
      vs !! x = Some vx →
      vertex_predecessor vx = x →
      repr vs x x
  | repr_step x vx r :
      vs !! x = Some vx →
      vertex_predecessor vx ≠ x →
      repr vs (vertex_predecessor vx) r →
      repr vs x r.

(** The forest of predecessors: predecessors are guards, ranks grow
    towards the root, and every rank below a rank in use is in use. *)
Record uf_shape (vs : list VertexProperty) : Prop := {
  uf_pred_lt : ∀ x vx,
    vs !! x = Some vx → vertex_predecessor vx < length vs;
  uf_rank_up : ∀ x vx px,
    vs !! x = Some vx → vertex_predecessor vx ≠ x →
    vs !! vertex_predecessor vx = Some px →
    vertex_rank vx < vertex_rank px;
  uf_rank_closed : ∀ x vx j,
    vs !! x = Some vx → j ≤ vertex_rank vx →
    ∃ y vy, vs !! y = Some vy ∧ vertex_rank vy = j
}.

(** The union-find agrees with the edges. *)
Record uf_wf (g : Graph) : Prop := {
  uf_forest : uf_shape (vertices g);
  uf_edges_lt : ∀ u v w,
    (u, v, w) ∈ edges g → u < length (vertices g) ∧ v < length (vertices g);
  uf_components : ∀ u v ru rv,
    repr (vertices g) u ru → repr (vertices g) v rv →
    (ru = rv ↔ connected g u v)
}.

(** The guards, in order: their configuration and provenance. *)
Definition guards (vs : list VertexProperty) : list (ptr * GuardType) :=
  (λ vx, (vertex_state vx, vertex_color vx)) <$> vs.

(** The guards with their predecessor and rank: all but the interface
    records. *)
Definition skeleton (vs : list VertexProperty)
    : list (ptr * GuardType * Vertex * nat) :=
  (λ vx, (vertex_state vx, vertex_color vx,
          vertex_predecessor vx, vertex_rank vx)) <$> vs.

(** The root [c] was put below the root [p]. *)
Record linked (vs vs' : list VertexProperty) (c p : Vertex) : Prop := {
  linked_ne : c ≠ p;
  linked_length : length vs' = length vs;
  linked_root_c : ∃ vc, vs !! c = Some vc ∧ vertex_predecessor vc = c;
  linked_root_p : ∃ vp, vs !! p = Some vp ∧ vertex_predecessor vp = p;
  linked_pred : ∀ x vx, vs !! x = Some vx →
    ∃ vx', vs' !! x = Some vx' ∧
           vertex_predecessor vx' = (if decide (x = c) then p else vertex_predecessor vx) ∧
           (x ≠ p → vertex_rank vx' = vertex_rank vx);
  linked_rank : ∀ vc vp vp',
    vs !! c = Some vc → vs !! p = Some vp → vs' !! p = Some vp' →
    vertex_rank vc < vertex_rank vp' ∧
    (vertex_rank vp' = vertex_rank vp ∨
     vertex_rank vp' = S (vertex_rank vp) ∧ vertex_rank vc = vertex_rank vp)
}.

(** What an operation other than [clear] can do to the roadmap: nothing
    but to the interface records, one more guard, or one more edge. *)
Inductive graph_growth (g g' : Graph) : Prop :=
  | growth_none :
      skeleton (vertices g') = skeleton (vertices g) →
      edges g' = edges g →
      graph_growth g g'
  | growth_guard c type :
      skeleton (vertices g')
      = skeleton (vertices g) ++ [(c, type, length (vertices g), 0)] →
      edges g' = edges g →
      graph_growth g g'
  | growth_edge u v w ru rv :
      guards (vertices g') = guards (vertices g) →
      edges g' = edges g ++ [(u, v, w)] →
      find_set g u = Some ru →
      find_set g v = Some rv →
      link ru rv (vertices g) = Some (vertices g') →
      graph_growth g g'.

(** A sequence of operations, one after the other. *)
Definition run_all (os : list op) (this : SPARStwo) : M SPARStwo :=
  foldM (λ this o, run o this) this os.
End Roadmap.

(** ** The lifetime of a record *)

(** How many configurations a run cloned, and how many it released. *)
Fixpoint clones (l : list event) : nat :=
  match l with
  | [] => 0
  | EvClone _ _ :: l => S (clones l)
  | EvFree _ :: l => clones l
  end.

Fixpoint frees (l : list event) : nat :=
  match l with
  | [] => 0
  | EvFree _ :: l => S (frees l)
  | EvClone _ _ :: l => frees l
  end.

Section Lifetime.
Context {State double : Type}.
Variable distance : State → State → double.

(** Calls to [setFirst] and [setSecond] on one record, one after the
    other. *)
Definition run_setters (ops : list (side * safeState * safeState))
    (d : InterfaceData double) : M State (InterfaceData double) :=
  foldM (λ d o, setter distance o.1.1 o.1.2 o.2 d) d ops.

(** The configurations behind the close point and the sigma of a side. *)
Definition slot_values (h : gmap loc State) (d : InterfaceData double)
    (sd : side) : option State * option State :=
  (deref h (safe.get (slot sd (points_ d))),
   deref h (safe.get (slot sd (sigmas_ d)))).

(** What a record holds, whatever the addresses: the two configurations of
    each side and the distance. *)
Definition contents (h : gmap loc State) (d : InterfaceData double)
    : (option State * option State) * (option State * option State) * double :=
  (slot_values h d first, slot_values h d second, d_ d).

(** [p] points to a live configuration [x] that is not one of the record's
    own. *)
Definition foreign (h : gmap loc State) (d : InterfaceData double)
    (p : safeState) (x : State) : Prop :=
  ∃ a, safe.get p = Some a ∧ h !! a = Some x ∧ a ∉ owned d.

(** [d] was built over the caller's heap [h0] by a run that logged [evs]:
    it owns what is live beyond [h0], and [h0] is as it was. *)
Record lifetime_inv (h0 : gmap loc State) (d : InterfaceData double)
    (σ : si_state State) (evs : list event) : Prop := {
  li_own : ∀ a, a ∈ owned d → h0 !! a = None;
  li_rest : ∀ a, a ∉ owned d → heap σ !! a = h0 !! a;
  li_balance : clones evs = frees evs + length (owned d);
  li_frees : ∀ a, EvFree a ∈ evs → h0 !! a = None
}.
End Lifetime.

(** ** The setters, with their arguments by reference *)

(** What a [const safeState&] is bound to during a call on a record: a
    holder that the call does not write, or one of the record's own four. *)
Inductive safeRef :=
  | Other (ss : safeState)
  | OwnPoint (sd : side)
  | OwnSigma (sd : side).

Section References.
Context {State double : Type}.
Variable distance : State → State → double.

(** The holder behind a reference, as the record stands. *)
Definition read (r : safeRef) (this : InterfaceData double) : safeState :=
  match r with
  | Other ss => ss
  | OwnPoint sd => slot sd (points_ this)
  | OwnSigma sd => slot sd (sigmas_ this)
  end.

(** [InterfaceData::setFirst], its arguments [const safeState&]: [p.get()]
    is read after the old close point was released, [s.get()] after
    [points_.first] was assigned.  [setFirst] above is this call for
    arguments that are not bound to the record's own first close point. *)
Definition setFirst_ref (p s : safeRef) (this : InterfaceData double)
    : M State (InterfaceData double) :=
  freeIfSet (safe.get (points_ this).1) ;;
  c ← cloneState (safe.get (read p this));
  let this := mkInterfaceData (safe.assign c, (points_ this).2) (sigmas_ this) (d_ this) in
  freeIfSet (safe.get (sigmas_ this).1) ;;
  c ← cloneState (safe.get (read s this));
  let this := mkInterfaceData (points_ this) (safe.assign c, (sigmas_ this).2) (d_ this) in
  match safe.get (points_ this).2 with
  | Some _ =>
      d ← si_distance distance (safe.get (points_ this).1) (safe.get (points_ this).2);
      mret (mkInterfaceData (points_ this) (sigmas_ this) d)
  | None => mret this
  end.

(** [InterfaceData::setSecond], likewise. *)
Definition setSecond_ref (p s : safeRef) (this : InterfaceData double)
    : M State (InterfaceData double) :=
  freeIfSet (safe.get (points_ this).2) ;;
  c ← cloneState (safe.get (read p this));
  let this := mkInterfaceData ((points_ this).1, safe.assign c) (sigmas_ this) (d_ this) in
  freeIfSet (safe.get (sigmas_ this).2) ;;
  c ← cloneState (safe.get (read s this));
  let this := mkInterfaceData (points_ this) ((sigmas_ this).1, safe.assign c) (d_ this) in
  match safe.get (points_ this).1 with
  | Some _ =>
      d ← si_distance distance (safe.get (points_ this).1) (safe.get (points_ this).2);
      mret (mkInterfaceData (points_ this) (sigmas_ this) d)
  | None => mret this
  end.

Definition setter_ref (sd : side) :=
  match sd with
  | first => setFirst_ref
  | second => setSecond_ref
  end.

(** The record once the close point of a side was assigned. *)
Definition with_point (sd : side) (c : ptr) (this : InterfaceData double)
    : InterfaceData double :=
  match sd with
  | first =>
      mkInterfaceData (safe.assign c, (points_ this).2) (sigmas_ this) (d_ this)
  | second =>
      mkInterfaceData ((points_ this).1, safe.assign c) (sigmas_ this) (d_ this)
  end.

(** Every guard of the graph holds a live configuration. *)
Definition guards_live (this : SPARStwo (double := double))
    (σ : si_state State) : Prop :=
  ∀ v vx, vertices (g_ this) !! v = Some vx →
          is_Some (deref (heap σ) (vertex_state vx)).
End References.

(** ** A concrete space for examples *)

(** Configurations are the points of a line with a wall at the origin;
    a [double] is an integer or, as [None], infinity. *)
Module Line.
Definition distance (a b : Z) : option Z := Some (Z.abs (a - b)).

Definition dle (x y : option Z) : bool :=
  match x, y with
  | Some a, Some b => bool_decide (a ≤ b)%Z
  | _, None => true
  | None, Some _ => false
  end.

(** Two points see each other when they lie on the same side of the wall. *)
Definition checkMotion (a b : Z) : bool := bool_decide (0 < a * b)%Z.

(** Stretch factor 3, visibility range 5, interface tolerance 1. *)
Definition planner0 : SPARStwo (double := option Z) :=
  mkSPARStwo (mkGraph [] []) [] [] (Some 3%Z) (Some 5%Z) (Some 1%Z)
    5000 100 NULL [] [] false 0.

Definition store0 : si_state Z := SiState ∅ [].

Definition run_ops (os : list (op (State := Z) (double := option Z)))
    : option (SPARStwo (double := option Z) * si_state Z) :=
  run_all None distance dle checkMotion os planner0 store0.

(** A first sample at [-1] becomes a guard. *)
Definition ops_one_guard : list (op (State := Z) (double := option Z)) :=
  [OpSample (-1)%Z; OpFindGraphNeighbors (Some 1%positive); OpCheckAddCoverage].

(** A second sample at [1], across the wall. *)
Definition ops_second_sample : list (op (State := Z) (double := option Z)) :=
  ops_one_guard ++ [OpSample 1%Z].

(** It becomes a guard too; the two are joined, witnesses of an interface
    are recorded at the first, and a third sample is drawn at [3]. *)
Definition ops_roadmap : list (op (State := Z) (double := option Z)) :=
  ops_second_sample ++
  [OpFindGraphNeighbors (Some 1%positive); OpCheckAddCoverage;
   OpConnect 0 1;
   OpSample 2%Z;
   OpWriteWitness 0 1 2 (SafeState (Some 1%positive)) (SafeState (Some 1%positive));
   OpSample 3%Z;
   OpWriteWitness 0 2 1 (SafeState (Some 1%positive)) (SafeState (Some 1%positive))].

Definition planner_of (r : option (SPARStwo (double := option Z) * si_state Z))
    : SPARStwo (double := option Z) :=
  match r with Some (this, _) => this | None => planner0 end.

Definition store_of (r : option (SPARStwo (double := option Z) * si_state Z))
    : si_state Z :=
  match r with Some (_, σ) => σ | None => store0 end.

Definition planner1 := Eval vm_compute in planner_of (run_ops ops_second_sample).
Definition store1 := Eval vm_compute in store_of (run_ops ops_second_sample).
Definition planner2 := Eval vm_compute in planner_of (run_ops ops_roadmap).
Definition store2 := Eval vm_compute in store_of (run_ops ops_roadmap).

(** A store with two configurations, and two records over it. *)
Definition store3 : si_state Z :=
  SiState (<[1%positive := 5%Z]> (<[2%positive := 9%Z]> ∅)) [].

Definition record_of (r : option (InterfaceData (option Z) * si_state Z))
    : InterfaceData (option Z) :=
  match r with Some (d, _) => d | None => InterfaceData_new None end.

Definition record_store_of (r : option (InterfaceData (option Z) * si_state Z))
    : si_state Z :=
  match r with Some (_, σ) => σ | None => store3 end.

Definition record4 := Eval vm_compute in
  record_of (setFirst distance (SafeState (Some 1%positive))
               (SafeState (Some 2%positive)) (InterfaceData_new None) store3).
Definition store4 := Eval vm_compute in
  record_store_of (setFirst distance (SafeState (Some 1%positive))
                     (SafeState (Some 2%positive)) (InterfaceData_new None) store3).

(** The second slot written as well: both close points are set. *)
Definition record5 := Eval vm_compute in
  record_of (setSecond distance (SafeState (Some 2%positive))
               (SafeState (Some 1%positive)) record4 store4).
Definition store5 := Eval vm_compute in
  record_store_of (setSecond distance (SafeState (Some 2%positive))
                     (SafeState (Some 1%positive)) record4 store4).
End Line.

(** * Properties *)

(** [tauto] on the propositions at hand only. *)
Ltac prop_tauto :=
  repeat match goal with
         | x : ?T |- _ =>
             lazymatch type of T with
             | Prop => fail
             | _ => clear x
             end
         end;
  tauto.

Section StoreFacts.
Context {State : Type}.

Abbreviation M := (M State).

Lemma bind_Some {A B} (c : M A) (k : A → M B) σ r :
  (c ≫= k) σ = Some r ↔ ∃ x σ', c σ = Some (x, σ') ∧ k x σ' = Some r.
Proof.
  unfold mbind, M_bind. destruct (c σ) as [[x σ']|]; split.
  - eauto.
  - by intros (? & ? & [= <- <-] & ?).
  - done.
  - by intros (? & ? & ? & ?).
Qed.

Lemma ret_Some {A} (x : A) (σ : si_state State) r :
  mret (M := M) x σ = Some r ↔ r = (x, σ).
Proof. unfold mret, M_ret. split; [by intros [= <-] | by intros ->]. Qed.

Lemma allocState_fresh (h : gmap loc State) : h !! allocState h = None.
Proof. apply not_elem_of_dom, is_fresh. Qed.

Lemma freeState_Some p (σ : si_state State) r :
  freeState p σ = Some r ↔
  ∃ a, p = Some a ∧ is_Some (heap σ !! a) ∧
       r = (tt, SiState (delete a (heap σ)) (log σ ++ [EvFree a])).
Proof.
  unfold freeState. destruct p as [a|].
  - destruct (heap σ !! a) eqn:E; split.
    + intros [= <-]. eauto.
    + by intros (? & [= <-] & _ & ->).
    + done.
    + intros (? & [= <-] & [? ?] & _). congruence.
  - split; [done | by intros (? & ? & _)].
Qed.

Lemma freeIfSet_Some p (σ : si_state State) r :
  freeIfSet p σ = Some r ↔
  null_or_live (heap σ) p ∧
  r = (tt, SiState (released p (heap σ)) (log σ ++ free_events p)).
Proof.
  unfold freeIfSet. destruct p as [a|]; simpl.
  - rewrite freeState_Some. split.
    + by intros (? & [= <-] & ? & ->).
    + intros [? ->]. eauto.
  - rewrite ret_Some, app_nil_r. destruct σ. naive_solver.
Qed.

Lemma cloneState_Some p (σ : si_state State) r :
  cloneState p σ = Some r ↔
  ∃ x, deref (heap σ) p = Some x ∧
       ∃ a, p = Some a ∧
       r = (Some (allocState (heap σ)),
            SiState (<[allocState (heap σ) := x]> (heap σ))
                    (log σ ++ [EvClone a (allocState (heap σ))])).
Proof.
  unfold cloneState, deref. destruct p as [a|]; [|naive_solver].
  destruct (heap σ !! a) eqn:E; naive_solver.
Qed.

Lemma released_frame p (h : gmap loc State) c :
  p ≠ Some c → released p h !! c = h !! c.
Proof.
  destruct p as [a|]; simpl; [|done].
  intros ?. apply lookup_delete_ne. congruence.
Qed.

(** Releasing the old occupant and cloning into a new address leaves
    every other live configuration where it was. *)
Lemma replace_frame p x (h : gmap loc State) c :
  is_Some (h !! c) → p ≠ Some c →
  c ≠ allocState (released p h) ∧
  <[allocState (released p h) := x]> (released p h) !! c = h !! c.
Proof.
  intros Hc Hp.
  assert (c ≠ allocState (released p h)) as Hne.
  { intros ->. rewrite <- (released_frame p) in Hc by done.
    rewrite allocState_fresh in Hc. by destruct Hc. }
  split; [done|].
  rewrite lookup_insert_ne by done. by apply released_frame.
Qed.

Lemma replace_new p x (h : gmap loc State) :
  <[allocState (released p h) := x]> (released p h)
    !! allocState (released p h) = Some x.
Proof. apply lookup_insert_eq. Qed.

Lemma released_lookup p (h : gmap loc State) c :
  released p h !! c = if decide (p = Some c) then None else h !! c.
Proof.
  case_decide as E.
  - subst p. apply lookup_delete_eq.
  - by apply released_frame.
Qed.

Lemma freed_nil (σ : si_state State) : freed [] σ σ.
Proof.
  split; [by intros a []%elem_of_nil|]. split; [done|].
  by rewrite fmap_nil, app_nil_r.
Qed.

Lemma freed_app l1 l2 (σ σ1 σ2 : si_state State) :
  freed l1 σ σ1 → freed l2 σ1 σ2 → freed (l1 ++ l2) σ σ2.
Proof.
  intros (Hn1 & Hf1 & Hl1) (Hn2 & Hf2 & Hl2). split; [|split].
  - intros a [Ha|Ha]%elem_of_app; [|by auto].
    destruct (decide (a ∈ l2)); [by auto|]. rewrite Hf2 by done. auto.
  - intros a [Ha1 Ha2]%not_elem_of_app. by rewrite Hf2, Hf1.
  - by rewrite Hl2, Hl1, fmap_app, app_assoc.
Qed.

Lemma freed_live l (σ σ' : si_state State) a :
  freed l σ σ' → a ∉ l → is_Some (heap σ !! a) → is_Some (heap σ' !! a).
Proof. intros (_ & Hf & _) Ha Hl. by rewrite Hf. Qed.

Lemma freed_subseteq l (σ σ' : si_state State) :
  freed l σ σ' → heap σ' ⊆ heap σ.
Proof.
  intros (Hn & Hf & _). apply map_subseteq_spec. intros a x Ha.
  destruct (decide (a ∈ l)) as [Hin|Hnin].
  - rewrite Hn in Ha by done. done.
  - by rewrite <- Hf.
Qed.
Lemma liftO_Some {A} (o : option A) (σ : si_state State) r :
  liftO o σ = Some r ↔ ∃ x, o = Some x ∧ r = (x, σ).
Proof. unfold liftO. destruct o; naive_solver. Qed.

Lemma readM_Some {A} (f : gmap loc State → option A) (σ : si_state State) r :
  readM f σ = Some r ↔ ∃ x, f (heap σ) = Some x ∧ r = (x, σ).
Proof. unfold readM. destruct (f (heap σ)); naive_solver. Qed.
End StoreFacts.

Section InterfaceFacts.
Context {State double : Type}.
Variable infinity : double.
Variable distance : State → State → double.

Abbreviation M := (M State).
Abbreviation InterfaceData := (InterfaceData double).

Lemma si_distance_Some p q (σ : si_state State) r :
  si_distance distance p q σ = Some r ↔
  ∃ x y, deref (heap σ) p = Some x ∧ deref (heap σ) q = Some y ∧
         r = (distance x y, σ).
Proof.
  unfold si_distance.
  destruct (deref (heap σ) p), (deref (heap σ) q); naive_solver.
Qed.

Lemma clearSafeState_Some ss (σ : si_state State) r :
  clearSafeState ss σ = Some r ↔
  null_or_live (heap σ) (safe.get ss) ∧
  r = (safe.new, SiState (released (safe.get ss) (heap σ))
                         (log σ ++ free_events (safe.get ss))).
Proof.
  unfold clearSafeState. rewrite bind_Some. split.
  - intros ([] & ? & [? [= <-]]%freeIfSet_Some & ->%ret_Some). done.
  - intros [? ->]. do 2 eexists. split; [by apply freeIfSet_Some|]. done.
Qed.

(** Both setters run the same four store calls; [opp] is the close point
    of the slot they leave alone. *)
Ltac setter_runs opp :=
  intros Hrun;
  apply bind_Some in Hrun as ([] & ? & [? [= ->]]%freeIfSet_Some & Hrun1);
  apply bind_Some in Hrun1
    as (? & ? & (?x & ?Hx & ?pa & ?Hpa & [= -> ->])%cloneState_Some & Hrun2);
  cbn [points_ sigmas_ d_ fst snd heap log] in Hrun2;
  apply bind_Some in Hrun2 as ([] & ? & [? [= ->]]%freeIfSet_Some & Hrun3);
  apply bind_Some in Hrun3
    as (? & ? & (?y & ?Hy & ?sa & ?Hsa & [= -> ->])%cloneState_Some & Hrun4);
  cbn [points_ sigmas_ d_ fst snd heap log] in Hrun4;
  match goal with
  | Hp : ?p = Some ?pa, Hx : deref _ ?p = Some ?x,
    Hs : ?s = Some ?sa, Hy : deref _ ?s = Some ?y |- _ =>
      rewrite Hp in Hx; rewrite Hs in Hy; cbn [deref heap] in Hx, Hy;
      eexists pa, sa, x, y, _, _; split; [exact Hp|]; split; [exact Hs|]
  end;
  destruct opp as [?c|]; cbn [safe.get safe.assign st_] in Hrun4;
  [ apply bind_Some in Hrun4
      as (? & ? & (?u & ?z & ? & ? & [= -> ->])%si_distance_Some & Hrun5);
    apply ret_Some in Hrun5 as [= -> ->]
  | apply ret_Some in Hrun4 as [= -> ->] ];
  cbn [heap log points_ sigmas_ d_ deref fst snd] in *;
  (split; [by constructor|]);
  (split; [unfold overwrite_events; by rewrite <- !app_assoc|]);
  eauto 10.

Ltac setter_replay opp :=
  intros (pa & sa & x & y & a & b & Hp & Hs & [] & Hlog & Hpts & Hsig & Hd);
  cbn [heap log points_ sigmas_ d_] in *;
  subst;
  apply bind_Some; do 2 eexists; (split; [by apply freeIfSet_Some|]);
  apply bind_Some; do 2 eexists;
  (split; [apply cloneState_Some; exists x; rewrite Hp; split; [done|]; eauto|]);
  cbn [points_ sigmas_ d_ fst snd heap log];
  apply bind_Some; do 2 eexists; (split; [by apply freeIfSet_Some|]);
  apply bind_Some; do 2 eexists;
  (split; [apply cloneState_Some; exists y; rewrite Hs; split; [done|]; eauto|]);
  cbn [points_ sigmas_ d_ fst snd heap log safe.get safe.assign st_];
  unfold overwrite_events; rewrite !app_assoc;
  destruct opp as [c|];
  [ destruct Hd as (u & z & Hu & Hz & ->);
    apply bind_Some; do 2 eexists;
    (split; [apply si_distance_Some; exists u, z; cbn [heap deref]; done|]);
    done
  | by rewrite Hd ].

Lemma setFirst_Some p s d (σ : si_state State) d' σ' :
  setFirst distance p s d σ = Some (d', σ') ↔
  ∃ pa sa x y a b,
    safe.get p = Some pa ∧ safe.get s = Some sa ∧
    overwrite (heap σ) (safe.get (points_ d).1) (safe.get (sigmas_ d).1)
              pa sa x y a b (heap σ') ∧
    log σ' = log σ ++ overwrite_events (safe.get (points_ d).1)
                        (safe.get (sigmas_ d).1) pa sa a b ∧
    points_ d' = (SafeState (Some a), (points_ d).2) ∧
    sigmas_ d' = (SafeState (Some b), (sigmas_ d).2) ∧
    match safe.get (points_ d).2 with
    | Some c => ∃ u z, heap σ' !! a = Some u ∧ heap σ' !! c = Some z ∧
                       d_ d' = distance u z
    | None => d_ d' = d_ d
    end.
Proof.
  unfold setFirst. split.
  - setter_runs (safe.get (points_ d).2).
  - destruct d', σ'. setter_replay (safe.get (points_ d).2).
Qed.

Lemma setSecond_Some p s d (σ : si_state State) d' σ' :
  setSecond distance p s d σ = Some (d', σ') ↔
  ∃ pa sa x y a b,
    safe.get p = Some pa ∧ safe.get s = Some sa ∧
    overwrite (heap σ) (safe.get (points_ d).2) (safe.get (sigmas_ d).2)
              pa sa x y a b (heap σ') ∧
    log σ' = log σ ++ overwrite_events (safe.get (points_ d).2)
                        (safe.get (sigmas_ d).2) pa sa a b ∧
    points_ d' = ((points_ d).1, SafeState (Some a)) ∧
    sigmas_ d' = ((sigmas_ d).1, SafeState (Some b)) ∧
    match safe.get (points_ d).1 with
    | Some c => ∃ u z, heap σ' !! c = Some u ∧ heap σ' !! a = Some z ∧
                       d_ d' = distance u z
    | None => d_ d' = d_ d
    end.
Proof.
  unfold setSecond. split.
  - setter_runs (safe.get (points_ d).1).
  - destruct d', σ'. setter_replay (safe.get (points_ d).1).
Qed.

Lemma overwrite_frame h0 op os pa sa (x y : State) a b h4 c :
  overwrite h0 op os pa sa x y a b h4 →
  is_Some (h0 !! c) → op ≠ Some c → os ≠ Some c →
  c ≠ a ∧ c ≠ b ∧ h4 !! c = h0 !! c.
Proof.
  intros [] Hc Hop Hos. subst a b h4.
  destruct (replace_frame op x h0 c Hc Hop) as [Ha Hh2].
  assert (is_Some (<[allocState (released op h0):=x]> (released op h0) !! c))
    as Hc2 by (by rewrite Hh2).
  destruct (replace_frame os y _ c Hc2 Hos) as [Hb Hh4].
  split; [done|]. split; [done|]. by rewrite Hh4.
Qed.

Lemma overwrite_new h0 op os pa sa (x y : State) a b h4 :
  overwrite h0 op os pa sa x y a b h4 →
  (∀ o, os = Some o → is_Some (h0 !! o) ∧ op ≠ Some o) →
  h4 !! a = Some x ∧ h4 !! b = Some y ∧ a ≠ b.
Proof.
  intros [] Hos. subst b h4.
  assert (os ≠ Some a) as Hne.
  { intros ->. destruct (Hos a eq_refl) as [Hl Hop].
    destruct (replace_frame op x h0 a Hl Hop) as [Hn _]. by apply Hn. }
  assert (is_Some (<[a:=x]> (released op h0) !! a)) as Ha.
  { rewrite lookup_insert_eq. eauto. }
  destruct (replace_frame os y _ a Ha Hne) as [Hab Hh4].
  split; [by rewrite Hh4, lookup_insert_eq|].
  split; [by rewrite lookup_insert_eq|done].
Qed.

Lemma owned_NoDup (d : InterfaceData) :
  NoDup (owned d) ↔
  apart (safe.get (points_ d).1) (safe.get (points_ d).2) ∧
  apart (safe.get (points_ d).1) (safe.get (sigmas_ d).1) ∧
  apart (safe.get (points_ d).1) (safe.get (sigmas_ d).2) ∧
  apart (safe.get (points_ d).2) (safe.get (sigmas_ d).1) ∧
  apart (safe.get (points_ d).2) (safe.get (sigmas_ d).2) ∧
  apart (safe.get (sigmas_ d).1) (safe.get (sigmas_ d).2).
Proof.
  unfold owned, apart.
  destruct d as [[[[a|]] [[b|]]] [[[c|]] [[e|]]] dd]; cbn;
    rewrite ?NoDup_cons, ?NoDup_nil, ?not_elem_of_cons;
    split; intros H; repeat split; try prop_tauto; try (intros ? [= <-] [= <-]; prop_tauto);
    try (intros ->; intuition eauto using elem_of_nil; fail);
    try (intros []%elem_of_nil).
Qed.

Lemma owned_elem (d : InterfaceData) a :
  a ∈ owned d ↔
  safe.get (points_ d).1 = Some a ∨ safe.get (points_ d).2 = Some a ∨
  safe.get (sigmas_ d).1 = Some a ∨ safe.get (sigmas_ d).2 = Some a.
Proof.
  unfold owned. rewrite list_elem_of_omap. split.
  - intros (ss & Hin & Hss). rewrite !elem_of_cons, elem_of_nil in Hin.
    naive_solver.
  - intros [H|[H|[H|H]]]; eexists; (split; [|exact H]);
      rewrite !elem_of_cons; prop_tauto.
Qed.

Lemma setFirst_preserves p s d (σ : si_state State) d' σ' :
  record_wf (heap σ) d → d_spec infinity distance (heap σ) d →
  setFirst distance p s d σ = Some (d', σ') →
  record_wf (heap σ') d' ∧ d_spec infinity distance (heap σ') d'.
Proof.
  intros [Hnd Hlive] Hd
    (pa & sa & x & y & a & b & Hp & Hs & How & Hlog & Hpts & Hsig & Hdd)%setFirst_Some.
  apply owned_NoDup in Hnd as (H12 & H13 & H14 & H23 & H24 & H34).
  assert (∀ c, safe.get (points_ d).2 = Some c ∨ safe.get (sigmas_ d).2 = Some c →
               c ≠ a ∧ c ≠ b ∧ heap σ' !! c = heap σ !! c ∧ is_Some (heap σ !! c))
    as Hopp.
  { intros c Hc.
    assert (is_Some (heap σ !! c)) as Hl by (apply Hlive, owned_elem; prop_tauto).
    destruct (overwrite_frame _ _ _ _ _ _ _ _ _ _ c How Hl) as (? & ? & ?);
      [intros ?; destruct Hc; unfold apart in *; eauto..|done]. }
  destruct (overwrite_new _ _ _ _ _ _ _ _ _ _ How) as (Ha & Hb & Hab).
  { intros o Ho. split; [apply Hlive, owned_elem; prop_tauto|].
    intros ?. unfold apart in *; eauto. }
  split; [split|].
  - apply owned_NoDup. rewrite Hpts, Hsig. unfold apart in *. cbn.
    repeat split; intros c; intros; simplify_eq;
      try (destruct (Hopp c) as (? & ? & _); [prop_tauto|]; done); eauto.
  - intros c. rewrite owned_elem, Hpts, Hsig. cbn.
    intros [?|[?|[?|?]]]; simplify_eq; eauto;
      destruct (Hopp c) as (_ & _ & -> & ?); eauto.
  - unfold d_spec in *. rewrite Hpts. cbn.
    destruct (safe.get (points_ d).2) as [c|] eqn:Hc.
    + destruct Hdd as (u & z & ? & ? & ?). eauto.
    + rewrite Hdd. by destruct (safe.get (points_ d).1).
Qed.

Lemma setSecond_preserves p s d (σ : si_state State) d' σ' :
  record_wf (heap σ) d → d_spec infinity distance (heap σ) d →
  setSecond distance p s d σ = Some (d', σ') →
  record_wf (heap σ') d' ∧ d_spec infinity distance (heap σ') d'.
Proof.
  intros [Hnd Hlive] Hd
    (pa & sa & x & y & a & b & Hp & Hs & How & Hlog & Hpts & Hsig & Hdd)%setSecond_Some.
  apply owned_NoDup in Hnd as (H12 & H13 & H14 & H23 & H24 & H34).
  assert (∀ c, safe.get (points_ d).1 = Some c ∨ safe.get (sigmas_ d).1 = Some c →
               c ≠ a ∧ c ≠ b ∧ heap σ' !! c = heap σ !! c ∧ is_Some (heap σ !! c))
    as Hopp.
  { intros c Hc.
    assert (is_Some (heap σ !! c)) as Hl by (apply Hlive, owned_elem; prop_tauto).
    destruct (overwrite_frame _ _ _ _ _ _ _ _ _ _ c How Hl) as (? & ? & ?);
      [intros ?; destruct Hc; unfold apart in *; eauto..|done]. }
  destruct (overwrite_new _ _ _ _ _ _ _ _ _ _ How) as (Ha & Hb & Hab).
  { intros o Ho. split; [apply Hlive, owned_elem; prop_tauto|].
    intros ?. unfold apart in *; eauto. }
  split; [split|].
  - apply owned_NoDup. rewrite Hpts, Hsig. unfold apart in *. cbn.
    repeat split; intros c; intros; simplify_eq;
      try (destruct (Hopp c) as (? & ? & _); [prop_tauto|]; done); eauto.
  - intros c. rewrite owned_elem, Hpts, Hsig. cbn.
    intros [?|[?|[?|?]]]; simplify_eq; eauto;
      destruct (Hopp c) as (_ & _ & -> & ?); eauto.
  - unfold d_spec in *. rewrite Hpts. cbn.
    destruct (safe.get (points_ d).1) as [c|] eqn:Hc.
    + destruct Hdd as (u & z & ? & ? & ?). eauto.
    + rewrite Hdd. done.
Qed.

Lemma clearInterfaceData_Some d (σ : si_state State) d' σ' :
  clearInterfaceData infinity d σ = Some (d', σ') ↔
  let p1 := safe.get (points_ d).1 in
  let p2 := safe.get (points_ d).2 in
  let s1 := safe.get (sigmas_ d).1 in
  let s2 := safe.get (sigmas_ d).2 in
  null_or_live (heap σ) p1 ∧
  null_or_live (released p1 (heap σ)) p2 ∧
  null_or_live (released p2 (released p1 (heap σ))) s1 ∧
  null_or_live (released s1 (released p2 (released p1 (heap σ)))) s2 ∧
  d' = InterfaceData_new infinity ∧
  heap σ' = released s2 (released s1 (released p2 (released p1 (heap σ)))) ∧
  log σ' = log σ ++ free_events p1 ++ free_events p2 ++
                    free_events s1 ++ free_events s2.
Proof.
  unfold clearInterfaceData. cbn zeta. split.
  - intros H.
    apply bind_Some in H as (? & ? & [? [= -> ->]]%clearSafeState_Some & H1).
    apply bind_Some in H1 as (? & ? & [? [= -> ->]]%clearSafeState_Some & H2).
    apply bind_Some in H2 as (? & ? & [? [= -> ->]]%clearSafeState_Some & H3).
    apply bind_Some in H3 as (? & ? & [? [= -> ->]]%clearSafeState_Some & H4).
    apply ret_Some in H4 as [= -> ->]. cbn [heap log] in *.
    by rewrite <- !app_assoc.
  - intros (? & ? & ? & ? & -> & Hh & Hl). destruct σ' as [h' l'].
    cbn [heap log] in *. subst.
    repeat (apply bind_Some; do 2 eexists;
            (split; [by apply clearSafeState_Some|]); cbn [heap log]).
    by rewrite <- !app_assoc.
Qed.

Lemma record_new_wf (h : gmap loc State) :
  record_wf h (InterfaceData_new infinity).
Proof.
  split; [apply NoDup_nil_2|]. intros a []%elem_of_nil.
Qed.

Lemma reachable_inv σ d :
  reachable infinity distance σ d → record_wf (heap σ) d ∧ d_spec infinity distance (heap σ) d.
Proof.
  induction 1 as [σ|σ d p s d' σ' _ [IHw IHd] Hrun|σ d p s d' σ' _ [IHw IHd] Hrun
                  |σ d d' σ' _ _ Hrun|σ d σ' _ [[Hnd Hl] IHd] Hfr].
  - split; [apply record_new_wf|done].
  - eauto using setFirst_preserves.
  - eauto using setSecond_preserves.
  - apply clearInterfaceData_Some in Hrun as (_ & _ & _ & _ & -> & _).
    split; [apply record_new_wf|done].
  - split; [split; [done|]|].
    + intros a Ha. rewrite Hfr by done. auto.
    + unfold d_spec in *.
      destruct (safe.get (points_ d).1) as [a|] eqn:Ea; [|done].
      destruct (safe.get (points_ d).2) as [b|] eqn:Eb; [|done].
      rewrite !Hfr by (apply owned_elem; prop_tauto). done.
Qed.

(** Claim C1.  Every record reached from a fresh one by [setFirst],
    [setSecond] and [clearInterfaceData], with the rest of the planner
    running in between, keeps [d_] equal to the distance between its two
    close points when both are set, and equal to infinity otherwise. *)
Theorem d_is_distance_of_close_points σ d :
  reachable infinity distance σ d →
  match safe.get (points_ d).1, safe.get (points_ d).2 with
  | Some a, Some b =>
      ∃ x y, heap σ !! a = Some x ∧ heap σ !! b = Some y ∧
             d_ d = distance x y
  | _, _ => d_ d = infinity
  end.
Proof. intros H. by destruct (reachable_inv σ d H) as [_ ?]. Qed.

(** Claim C2.  [setFirst p s] (and [setSecond p s], for the other side)
    on a record that owns its configurations, with [p] and [s] live and not
    the configurations about to be released: the call returns; the slot of
    that side holds fresh clones of [p] and [s]; the prior occupants of that
    slot were released first, and only if they were set; the opposite slot
    is as it was; and [d_] is recomputed from the two close points exactly
    when the opposite close point is set. *)
Theorem setter_overwrites_one_slot sd p s pa sa x y d (σ : si_state State) :
  let old_p := safe.get (slot sd (points_ d)) in
  let old_s := safe.get (slot sd (sigmas_ d)) in
  record_wf (heap σ) d →
  safe.get p = Some pa → heap σ !! pa = Some x →
  safe.get s = Some sa → heap σ !! sa = Some y →
  old_p ≠ Some pa → old_p ≠ Some sa → old_s ≠ Some sa →
  ∃ d' σ' a b,
    setter distance sd p s d σ = Some (d', σ') ∧
    (* fresh clones of p and s sit in the slot *)
    safe.get (slot sd (points_ d')) = Some a ∧
    safe.get (slot sd (sigmas_ d')) = Some b ∧
    heap σ' !! a = Some x ∧ heap σ' !! b = Some y ∧ a ≠ b ∧
    (∀ c, is_Some (heap σ !! c) → old_p ≠ Some c → old_s ≠ Some c →
          c ≠ a ∧ c ≠ b ∧ heap σ' !! c = heap σ !! c) ∧
    (* the prior occupants were released first, if there were any *)
    log σ' = log σ ++ free_events old_p ++ [EvClone pa a] ++
                      free_events old_s ++ [EvClone sa b] ∧
    (* the opposite slot is left alone *)
    slot (opposite sd) (points_ d') = slot (opposite sd) (points_ d) ∧
    slot (opposite sd) (sigmas_ d') = slot (opposite sd) (sigmas_ d) ∧
    (* the distance is recomputed exactly when the opposite close point is set *)
    match safe.get (slot (opposite sd) (points_ d)) with
    | Some c => ∃ z, heap σ !! c = Some z ∧ heap σ' !! c = Some z ∧
                     d_ d' = close_distance distance sd x z
    | None => d_ d' = d_ d
    end.
Proof.
  intros old_p old_s [Hnd Hlive] Hp Hx Hs Hy Hppa Hpsa Hssa.
  apply owned_NoDup in Hnd as (H12 & H13 & H14 & H23 & H24 & H34).
  set (h1 := released old_p (heap σ)).
  set (a := allocState h1).
  set (h3 := released old_s (<[a:=x]> h1)).
  set (b := allocState h3).
  assert (overwrite (heap σ) old_p old_s pa sa x y a b (<[b:=y]> h3)) as How.
  { assert (null_or_live (heap σ) old_p) as Hlp.
    { subst old_p. destruct (safe.get (slot sd (points_ d))) as [o|] eqn:E; [|done].
      apply Hlive, owned_elem. destruct sd; cbn in E; prop_tauto. }
    assert (is_Some (heap σ !! pa)) as Hlpa by eauto.
    assert (is_Some (heap σ !! sa)) as Hlsa by eauto.
    destruct (replace_frame old_p x _ pa Hlpa Hppa) as [? Hh2pa].
    destruct (replace_frame old_p x _ sa Hlsa Hpsa) as [? Hh2sa].
    constructor; try done.
    - subst h1. by rewrite released_frame.
    - fold h1. fold a. subst old_s.
      destruct (safe.get (slot sd (sigmas_ d))) as [o|] eqn:E; [|done].
      assert (is_Some (heap σ !! o)) as Hlo.
      { apply Hlive, owned_elem. destruct sd; cbn in E; prop_tauto. }
      assert (old_p ≠ Some o) as Hpo.
      { subst old_p. intros E'. destruct sd; cbn in E, E'; unfold apart in *; eauto. }
      cbn. subst a h1. by rewrite (proj2 (replace_frame old_p x _ o Hlo Hpo)).
    - fold h1. fold a. rewrite released_frame by done.
      subst a h1. by rewrite Hh2sa. }
  destruct (overwrite_new _ _ _ _ _ _ _ _ _ _ How) as (Ha & Hb & Hab).
  { subst old_p old_s. intros o Ho. split.
    - apply Hlive, owned_elem. destruct sd; cbn in Ho; prop_tauto.
    - intros E'. destruct sd; cbn in Ho, E'; unfold apart in *; eauto. }
  pose proof (λ c, overwrite_frame _ _ _ _ _ _ _ _ _ _ c How) as Hframe.
  set (σ' := SiState (<[b:=y]> h3)
               (log σ ++ overwrite_events old_p old_s pa sa a b)).
  assert (∀ c, safe.get (slot (opposite sd) (points_ d)) = Some c →
               ∃ z, heap σ !! c = Some z ∧ heap σ' !! c = Some z) as Hopp.
  { intros c Hc.
    assert (is_Some (heap σ !! c)) as [z Hz].
    { apply Hlive, owned_elem. destruct sd; cbn in Hc; prop_tauto. }
    exists z. split; [done|]. unfold σ'; cbn [heap].
    destruct (Hframe c) as (_ & _ & ->); [by eauto| | |done];
      subst old_p old_s; intros E'; destruct sd; cbn in Hc, E';
      unfold apart in *; eauto. }
  destruct sd; cbn [slot opposite setter close_distance] in *.
  - destruct (safe.get (points_ d).2) as [c|] eqn:Hc.
    + destruct (Hopp c eq_refl) as (z & Hz & Hz').
      exists (mkInterfaceData (SafeState (Some a), (points_ d).2)
                (SafeState (Some b), (sigmas_ d).2) (distance x z)), σ', a, b.
      split; [|by eauto 15].
      apply setFirst_Some. exists pa, sa, x, y, a, b. rewrite Hc.
      repeat (split; [done|]). eauto.
    + exists (mkInterfaceData (SafeState (Some a), (points_ d).2)
                (SafeState (Some b), (sigmas_ d).2) (d_ d)), σ', a, b.
      split; [|by eauto 15].
      apply setFirst_Some. exists pa, sa, x, y, a, b. rewrite Hc.
      by repeat (split; [done|]).
  - destruct (safe.get (points_ d).1) as [c|] eqn:Hc.
    + destruct (Hopp c eq_refl) as (z & Hz & Hz').
      exists (mkInterfaceData ((points_ d).1, SafeState (Some a))
                ((sigmas_ d).1, SafeState (Some b)) (distance z x)), σ', a, b.
      split; [|by eauto 15].
      apply setSecond_Some. exists pa, sa, x, y, a, b. rewrite Hc.
      repeat (split; [done|]). eauto.
    + exists (mkInterfaceData ((points_ d).1, SafeState (Some a))
                ((sigmas_ d).1, SafeState (Some b)) (d_ d)), σ', a, b.
      split; [|by eauto 15].
      apply setSecond_Some. exists pa, sa, x, y, a, b. rewrite Hc.
      by repeat (split; [done|]).
Qed.

(** A well-formed record can always be cleared, and that releases exactly
    the configurations it owns. *)
Lemma clearInterfaceData_total d (σ : si_state State) :
  record_wf (heap σ) d →
  ∃ σ', clearInterfaceData infinity d σ = Some (InterfaceData_new infinity, σ') ∧
        freed (owned d) σ σ'.
Proof.
  intros [Hnd Hlive].
  apply owned_NoDup in Hnd as (H12 & H13 & H14 & H23 & H24 & H34).
  pose proof (λ a, proj2 (owned_elem d a)) as Hel.
  set (p1 := safe.get (points_ d).1) in *.
  set (p2 := safe.get (points_ d).2) in *.
  set (s1 := safe.get (sigmas_ d).1) in *.
  set (s2 := safe.get (sigmas_ d).2) in *.
  exists (SiState (released s2 (released s1 (released p2 (released p1 (heap σ)))))
            (log σ ++ free_events p1 ++ free_events p2 ++
                      free_events s1 ++ free_events s2)).
  split.
  - apply clearInterfaceData_Some. cbn zeta. fold p1 p2 s1 s2. cbn [heap log].
    unfold apart in *.
    repeat split; unfold null_or_live;
      repeat match goal with |- context [match ?p with _ => _ end] =>
        let E := fresh "E" in destruct p eqn:E end; try done;
      rewrite ?released_lookup; repeat case_decide; simplify_eq;
      try (exfalso; eauto; fail); apply Hlive, Hel; auto.
  - split; [|split]; cbn [heap log].
    + intros a Ha%owned_elem. fold p1 p2 s1 s2 in Ha.
      rewrite !released_lookup. repeat case_decide; try done.
      destruct Ha as [?|[?|[?|?]]]; congruence.
    + intros a Ha. rewrite owned_elem in Ha. fold p1 p2 s1 s2 in Ha.
      rewrite !released_lookup. repeat case_decide; try done; prop_tauto.
    + f_equal. unfold owned, p1, p2, s1, s2. clear.
      destruct d as [[[a] [b]] [[c] [e]] dd]. by destruct a, b, c, e.
Qed.
End InterfaceFacts.

Section RoadmapFacts.
Context {State double : Type}.
Variable infinity : double.
Variable distance : State → State → double.
Variable dle : double → double → bool.
Variable checkMotion : State → State → bool.

Abbreviation M := (M State).
Abbreviation InterfaceData := (InterfaceData double).
Abbreviation InterfaceHash := (gmap VertexPair InterfaceData).
Abbreviation SPARStwo := (@SPARStwo double).
Abbreviation new_record := (InterfaceData_new infinity).

Lemma owned_new : owned new_record = [].
Proof. done. Qed.

(** Clearing the records of a list one after the other; what is kept of
    the cleared records does not matter for the store. *)
Lemma clear_fold_total {B} (upd : B → VertexPair * InterfaceData → InterfaceData → B)
    (l : list (VertexPair * InterfaceData)) (b : B) (σ : si_state State) :
  NoDup (l ≫= (λ kd, owned kd.2)) →
  (∀ a, a ∈ l ≫= (λ kd, owned kd.2) → is_Some (heap σ !! a)) →
  ∃ σ',
    foldM (λ b kd, d ← clearInterfaceData infinity kd.2; mret (upd b kd d)) b l σ
    = Some (foldl (λ b kd, upd b kd new_record) b l, σ') ∧
    freed (l ≫= (λ kd, owned kd.2)) σ σ'.
Proof.
  revert b σ. induction l as [|[k d] l IH]; intros b σ Hnd Hlive.
  - exists σ. split; [done|]. apply freed_nil.
  - rewrite bind_cons in Hnd, Hlive. cbn [snd] in Hnd, Hlive.
    apply NoDup_app in Hnd as (Hd & Hdl & Hl).
    destruct (clearInterfaceData_total infinity d σ) as (σ1 & Hrun & Hfr).
    { split; [done|]. intros a Ha. apply Hlive, elem_of_app. by left. }
    destruct (IH (upd b (k, d) new_record) σ1 Hl) as (σ' & Hrun' & Hfr').
    { intros a Ha. eapply freed_live; [done| |].
      - intros Hin. by eapply Hdl.
      - apply Hlive, elem_of_app. by right. }
    exists σ'. split.
    + cbn [foldM foldl]. apply bind_Some.
      exists (upd b (k, d) new_record), σ1. split; [|done].
      apply bind_Some. eexists _, _. split; [exact Hrun|done].
    + rewrite bind_cons. by eapply freed_app.
Qed.

Lemma foldl_clear_lookup (l : list (VertexPair * InterfaceData))
    (ih : InterfaceHash) k :
  foldl (λ ih kd, <[kd.1 := new_record]> ih) ih l !! k
  = if decide (k ∈ l.*1) then Some new_record else ih !! k.
Proof.
  revert ih. induction l as [|[k' d] l IH]; intros ih; cbn [foldl fst].
  - case_decide as E; [|done]. by apply elem_of_nil in E.
  - rewrite IH, fmap_cons. cbn [fst].
    destruct (decide (k ∈ l.*1)) as [Hin|Hnin].
    + rewrite decide_True; [done|]. by apply elem_of_cons; right.
    + destruct (decide (k = k')) as [->|Hne].
      * rewrite lookup_insert_eq, decide_True; [done|]. by apply elem_of_cons; left.
      * rewrite lookup_insert_ne by done. rewrite decide_False; [done|].
        rewrite elem_of_cons. prop_tauto.
Qed.

Lemma foldl_clear_map (ih : InterfaceHash) :
  foldl (λ ih kd, <[kd.1 := new_record]> ih) ih (map_to_list ih)
  = cleared infinity ih.
Proof.
  apply map_eq. intros k. unfold cleared.
  rewrite foldl_clear_lookup, lookup_fmap.
  destruct (ih !! k) as [d|] eqn:E; cbn.
  - rewrite decide_True; [done|]. apply list_elem_of_fmap.
    exists (k, d). split; [done|]. by apply elem_of_map_to_list.
  - rewrite decide_False; [done|].
    intros ([k' d] & -> & Hin%elem_of_map_to_list)%list_elem_of_fmap.
    cbn in E. congruence.
Qed.

Lemma hash_owned_cleared (ih : InterfaceHash) :
  hash_owned (cleared infinity ih) = [].
Proof.
  apply elem_of_nil_inv. intros a ([k d] & Ha & Hin)%list_elem_of_bind.
  apply elem_of_map_to_list in Hin. unfold cleared in Hin.
  rewrite lookup_fmap in Hin. destruct (ih !! k); simplify_eq/=.
  by apply elem_of_nil in Ha.
Qed.

Lemma graph_owned_lookup (vs : list (VertexProperty (double:=double))) v vx :
  vs !! v = Some vx →
  vs ≫= vertex_owned
  = (take v vs ≫= vertex_owned) ++ vertex_owned vx ++ (drop (S v) vs ≫= vertex_owned).
Proof.
  intros Hv. rewrite <- (take_drop_middle vs v vx Hv) at 1.
  by rewrite bind_app, bind_cons.
Qed.

Lemma graph_owned_insert (vs : list (VertexProperty (double:=double))) v vx' :
  v < length vs →
  <[v := vx']> vs ≫= vertex_owned
  = (take v vs ≫= vertex_owned) ++ vertex_owned vx' ++ (drop (S v) vs ≫= vertex_owned).
Proof.
  intros Hv. rewrite insert_take_drop by done.
  by rewrite bind_app, bind_cons.
Qed.

(** The configurations a guard's records own, inside the roadmap. *)
Lemma hash_owned_graph_owned (this : SPARStwo) v vx a :
  vertices (g_ this) !! v = Some vx →
  a ∈ hash_owned (vertex_interface_data vx) →
  a ∈ graph_owned (g_ this).
Proof.
  intros Hv Ha. unfold graph_owned. rewrite (graph_owned_lookup _ v vx Hv).
  unfold vertex_owned. rewrite !elem_of_app. prop_tauto.
Qed.

Lemma deletePairInfo_total (this : SPARStwo) (σ : si_state State) v vx :
  graph_wf this σ →
  vertices (g_ this) !! v = Some vx →
  let ih := vertex_interface_data vx in
  let this' := with_vertices
                 (<[v := set_interface_data (cleared infinity ih) vx]>
                    (vertices (g_ this))) this in
  ∃ σ',
    deletePairInfo infinity v this σ = Some (this', σ') ∧
    freed (hash_owned ih) σ σ' ∧
    graph_wf this' σ' ∧
    (∀ a, a ∈ graph_owned (g_ this') →
          a ∈ graph_owned (g_ this) ∧ a ∉ hash_owned ih).
Proof.
  intros [Hnd Hlive Hguard] Hv ih this'.
  pose proof (lookup_lt_Some _ _ _ Hv) as Hlt.
  unfold graph_owned in Hnd, Hlive.
  rewrite (graph_owned_lookup _ v vx Hv) in Hnd, Hlive.
  unfold vertex_owned in Hnd, Hlive. fold ih in Hnd, Hlive.
  set (A := take v (vertices (g_ this)) ≫= vertex_owned) in *.
  set (B := drop (S v) (vertices (g_ this)) ≫= vertex_owned) in *.
  set (S := state_owned (vertex_state vx)) in *.
  assert (graph_owned (g_ this') = A ++ S ++ B) as Hown'.
  { unfold graph_owned, this'. cbn. rewrite graph_owned_insert by done.
    unfold vertex_owned at 2. cbn. by rewrite hash_owned_cleared. }
  apply NoDup_app in Hnd as (HA & HAr & Hr).
  apply NoDup_app in Hr as (Hm & HmB & HB).
  apply NoDup_app in Hm as (HH & HHS & HS).
  destruct (clear_fold_total (λ ih kd d, <[kd.1 := d]> ih) (map_to_list ih) ih σ)
    as (σ' & Hrun & Hfr).
  { done. }
  { intros a Ha. apply Hlive. rewrite !elem_of_app. prop_tauto. }
  assert (∀ a, a ∈ graph_owned (g_ this') →
               a ∈ A ++ (hash_owned ih ++ S) ++ B ∧ a ∉ hash_owned ih) as Hsub.
  { intros a. rewrite Hown', !elem_of_app.
    intros [Ha|[Ha|Ha]]; (split; [prop_tauto|]); intros Hin.
    - eapply HAr; [done|]. rewrite !elem_of_app. prop_tauto.
    - by eapply HHS.
    - eapply HmB; [|done]. rewrite elem_of_app. prop_tauto. }
  exists σ'. split; [|split; [done|split]].
  - unfold deletePairInfo. apply bind_Some. exists vx, σ.
    split; [by apply liftO_Some; eauto|].
    apply bind_Some. eexists _, σ'. split; [exact Hrun|].
    by rewrite foldl_clear_map.
  - split.
    + rewrite Hown'.
      apply NoDup_app. split; [done|]. split.
      * intros a Ha Hin. eapply HAr; [done|]. rewrite !elem_of_app in *. prop_tauto.
      * apply NoDup_app. split; [done|]. split; [|done].
        intros a Ha Hin. eapply HmB; [|done]. rewrite elem_of_app. prop_tauto.
    + intros a Ha. destruct (Hsub a Ha) as [Hin Hnin].
      eapply freed_live; [done..|]. by apply Hlive.
    + intros w wx. unfold this'. cbn.
      destruct (decide (w = v)) as [->|Hne].
      * rewrite list_lookup_insert_eq by done. intros [= <-]. cbn. eauto.
      * rewrite list_lookup_insert_ne by done. eauto.
  - intros a Ha. destruct (Hsub a Ha) as [Hin Hnin]. split; [|done].
    unfold graph_owned. by rewrite (graph_owned_lookup _ v vx Hv).
Qed.

Lemma close_point_owned (d : InterfaceData) a : close_point d a → a ∈ owned d.
Proof. intros Ha. apply owned_elem. unfold close_point in Ha. prop_tauto. Qed.

Lemma hash_owned_elem (ih : InterfaceHash) k d a :
  ih !! k = Some d → a ∈ owned d → a ∈ hash_owned ih.
Proof.
  intros Hk Ha. apply list_elem_of_bind. exists (k, d).
  split; [done|]. by apply elem_of_map_to_list.
Qed.

Lemma closePointWithin_total (this : SPARStwo) (h : gmap loc State) st y ss :
  deref h st = Some y →
  (∀ a, safe.get ss = Some a → is_Some (h !! a)) →
  ∃ b, closePointWithin distance dle this h st ss = Some b ∧
       (b = true → ∃ a x, safe.get ss = Some a ∧ h !! a = Some x ∧
                          within distance dle this y x = true) ∧
       (b = false → ∀ a, safe.get ss = Some a →
                     ∃ x, h !! a = Some x ∧ within distance dle this y x = false).
Proof.
  intros Hy Hl. unfold closePointWithin, withinRange.
  destruct (safe.get ss) as [a|].
  - destruct (Hl a eq_refl) as [x Hx]. rewrite Hy. cbn. rewrite Hx. cbn.
    eexists. split; [done|]. split; intros Hb.
    + eauto.
    + intros ? [= <-]. eauto.
  - exists false. split; [done|]. split; [done|]. by intros _ a.
Qed.

Lemma witnessWithin_total (this : SPARStwo) (h : gmap loc State) st y d :
  deref h st = Some y →
  (∀ a, a ∈ owned d → is_Some (h !! a)) →
  ∃ b, witnessWithin distance dle this h st d = Some b ∧
       (b = true → witness_near distance dle this h y d) ∧
       (b = false → witness_far distance dle this h y d).
Proof.
  intros Hy Hl. unfold witnessWithin.
  destruct (closePointWithin_total this h st y (points_ d).1 Hy)
    as (b1 & -> & Ht1 & Hf1).
  { intros a Ha. apply Hl, owned_elem. prop_tauto. }
  destruct (closePointWithin_total this h st y (points_ d).2 Hy)
    as (b2 & -> & Ht2 & Hf2).
  { intros a Ha. apply Hl, owned_elem. prop_tauto. }
  cbn. eexists. split; [done|]. split.
  - intros [Hb|Hb]%orb_true_iff.
    + destruct (Ht1 Hb) as (a & x & ? & ? & ?). exists a, x. unfold close_point. prop_tauto.
    + destruct (Ht2 Hb) as (a & x & ? & ? & ?). exists a, x. unfold close_point. prop_tauto.
  - intros [Hb1 Hb2]%orb_false_iff a [Ha|Ha]; eauto.
Qed.

Lemma anyO_total {A} (f : A → option bool) (l : list A) :
  (∀ x, x ∈ l → is_Some (f x)) →
  ∃ b, anyO f l = Some b ∧
       (b = true → ∃ x, x ∈ l ∧ f x = Some true) ∧
       (b = false → ∀ x, x ∈ l → f x = Some false).
Proof.
  induction l as [|x l IH]; intros Hl.
  - exists false. split; [done|]. split; [done|]. by intros _ x []%elem_of_nil.
  - destruct (Hl x) as [b Hb]; [by left|].
    destruct IH as (bs & Hbs & Ht & Hf).
    { intros z Hz. apply Hl. by right. }
    cbn. rewrite Hb, Hbs. cbn. eexists. split; [done|]. split.
    + intros [->| ->]%orb_true_iff.
      * exists x. split; [by left|done].
      * destruct (Ht eq_refl) as (z & ? & ?). exists z. split; [by right|done].
    + intros [-> ->]%orb_false_iff z [->|Hz]%elem_of_cons; auto.
Qed.

Lemma mustAbandon_total (this : SPARStwo) (σ : si_state State) st y v vx :
  graph_wf this σ →
  deref (heap σ) st = Some y →
  vertices (g_ this) !! v = Some vx →
  ∃ b, mustAbandon distance dle st v this σ = Some (b, σ) ∧
       (b = true → ∃ k r, vertex_interface_data vx !! k = Some r ∧
                          witness_near distance dle this (heap σ) y r) ∧
       (b = false → ∀ k r, vertex_interface_data vx !! k = Some r →
                           witness_far distance dle this (heap σ) y r).
Proof.
  intros [_ Hlive _] Hy Hv.
  destruct (anyO_total (λ kd, witnessWithin distance dle this (heap σ) st kd.2)
              (map_to_list (vertex_interface_data vx))) as (b & Hb & Ht & Hf).
  { intros [k r] Hin%elem_of_map_to_list. cbn.
    destruct (witnessWithin_total this (heap σ) st y r Hy) as (b & -> & _); [|done].
    intros a Ha. eapply Hlive, hash_owned_graph_owned; [done|].
    by eapply hash_owned_elem. }
  exists b. split; [|split].
  - unfold mustAbandon. apply bind_Some. exists vx, σ.
    split; [apply liftO_Some; eauto|]. apply readM_Some. eauto.
  - intros Hbt. destruct (Ht Hbt) as ([k r] & Hin%elem_of_map_to_list & Hw).
    exists k, r. split; [done|]. cbn in Hw.
    destruct (witnessWithin_total this (heap σ) st y r Hy) as (b' & Hb' & Hn & _).
    { intros a Ha. eapply Hlive, hash_owned_graph_owned; [done|].
      by eapply hash_owned_elem. }
    apply Hn. congruence.
  - intros Hbf k r Hk.
    specialize (Hf Hbf (k, r) (proj2 (elem_of_map_to_list _ _ _) Hk)). cbn in Hf.
    destruct (witnessWithin_total this (heap σ) st y r Hy) as (b' & Hb' & _ & Hfar).
    { intros a Ha. eapply Hlive, hash_owned_graph_owned; [done|].
      by eapply hash_owned_elem. }
    apply Hfar. congruence.
Qed.

Lemma with_vertices_id (this : SPARStwo) :
  with_vertices (vertices (g_ this)) this = this.
Proof. by destruct this as [[] ?]. Qed.

Lemma hash_owned_lookup_graph (vs : list (VertexProperty (double:=double))) es v vx a :
  vs !! v = Some vx →
  a ∈ vertex_owned vx →
  a ∈ graph_owned (mkGraph vs es).
Proof.
  intros Hv Ha. unfold graph_owned. cbn.
  rewrite (graph_owned_lookup _ v vx Hv), !elem_of_app. prop_tauto.
Qed.

(** One guard is examined. *)
Lemma abandon_step_total (this : SPARStwo) (σ : si_state State) st y v vx :
  graph_wf this σ →
  deref (heap σ) st = Some y →
  vertices (g_ this) !! v = Some vx →
  ∃ vx1 σ1,
    (mustAbandon distance dle st v this ≫=
       λ b : bool, if b then deletePairInfo infinity v this else mret this) σ
    = Some (with_vertices (<[v := vx1]> (vertices (g_ this))) this, σ1) ∧
    graph_wf (with_vertices (<[v := vx1]> (vertices (g_ this))) this) σ1 ∧
    heap σ1 ⊆ heap σ ∧
    (∀ a, a ∈ graph_owned (mkGraph (<[v := vx1]> (vertices (g_ this)))
                                   (edges (g_ this))) →
          a ∈ graph_owned (g_ this) ∧ heap σ1 !! a = heap σ !! a) ∧
    vertex_state vx1 = vertex_state vx ∧
    abandon_outcome infinity distance dle this σ σ1 y vx vx1.
Proof.
  intros Hwf Hy Hvx.
  destruct (mustAbandon_total this σ st y v vx Hwf Hy Hvx) as (b & Hb & Hnear & Hfar).
  destruct b.
  - destruct (deletePairInfo_total this σ v vx Hwf Hvx) as (σ1 & Hrun & Hfr & Hwf1 & Hsub).
    eexists _, σ1. split.
    { apply bind_Some. exists true, σ. split; [exact Hb|exact Hrun]. }
    split; [done|]. split; [by eapply freed_subseteq|]. split; [|split; [done|]].
    + intros a Ha. destruct (Hsub a Ha) as [Hin Hnin]. split; [done|].
      destruct Hfr as (_ & Hf & _). by apply Hf.
    + right. split; [done|]. split; [by apply Hnear|].
      destruct Hfr as (Hn & _ & _). done.
  - exists vx, σ. rewrite list_insert_id by done. rewrite with_vertices_id.
    split.
    { apply bind_Some. exists false, σ. split; [exact Hb|done]. }
    split; [done|]. split; [done|]. split; [|split; [done|]].
    + intros a Ha. split; [|done]. by destruct (g_ this).
    + left. split; [done|]. by apply Hfar.
Qed.

Lemma abandon_fold st c y (vl : list Vertex) :
  ∀ (this : SPARStwo) (σ : si_state State),
    graph_wf this σ →
    st = Some c → heap σ !! c = Some y →
    (∃ m vm, vertices (g_ this) !! m = Some vm ∧ vertex_state vm = st) →
    NoDup vl →
    (∀ v, v ∈ vl → v < length (vertices (g_ this))) →
    ∃ vs' σ',
      foldM (λ this v,
               b ← mustAbandon distance dle st v this;
               if b : bool then deletePairInfo infinity v this else mret this)
            this vl σ
      = Some (with_vertices vs' this, σ') ∧
      graph_wf (with_vertices vs' this) σ' ∧
      heap σ' ⊆ heap σ ∧
      heap σ' !! c = Some y ∧
      (∀ a, a ∈ graph_owned (mkGraph vs' (edges (g_ this))) →
            a ∈ graph_owned (g_ this) ∧ heap σ' !! a = heap σ !! a) ∧
      length vs' = length (vertices (g_ this)) ∧
      (∀ v, v ∉ vl → vs' !! v = vertices (g_ this) !! v) ∧
      (∀ v vx, v ∈ vl → vertices (g_ this) !! v = Some vx →
               ∃ vx', vs' !! v = Some vx' ∧ vertex_state vx' = vertex_state vx ∧
                      abandon_outcome infinity distance dle this σ σ' y vx vx').
Proof.
  induction vl as [|v vl IH]; intros this σ Hwf Hst Hy Hguard Hnd Hlt.
  - exists (vertices (g_ this)), σ. rewrite with_vertices_id.
    split; [done|]. split; [done|]. split; [done|]. split; [done|].
    split; [by destruct (g_ this)|]. split; [done|]. split; [done|].
    by intros v vx []%elem_of_nil.
  - apply NoDup_cons in Hnd as [Hv Hnd].
    destruct (lookup_lt_is_Some_2 (vertices (g_ this)) v) as [vx Hvx].
    { apply Hlt. by left. }
    pose proof (lookup_lt_Some _ _ _ Hvx) as Hvlt.
    destruct (abandon_step_total this σ st y v vx Hwf) as
      (vx1 & σ1 & Hrun1 & Hwf1 & Hsub1 & Hown1 & Hst1 & Hout1);
      [by rewrite Hst|done|].
    set (this1 := with_vertices (<[v := vx1]> (vertices (g_ this))) this) in *.
    assert (∃ m vm, vertices (g_ this1) !! m = Some vm ∧ vertex_state vm = st)
      as Hguard1.
    { destruct Hguard as (m & vm & Hm & Hvm). cbn.
      destruct (decide (m = v)) as [->|Hne].
      - exists v, vx1. rewrite list_lookup_insert_eq by done.
        split; [done|]. rewrite Hst1. congruence.
      - exists m, vm. by rewrite list_lookup_insert_ne. }
    assert (heap σ1 !! c = Some y) as Hy1.
    { destruct Hguard1 as (m & vm & Hm & Hvm). cbn in Hm.
      destruct (Hown1 c) as [_ ->]; [|done].
      eapply hash_owned_lookup_graph; [exact Hm|].
      unfold vertex_owned. rewrite Hvm, Hst. cbn.
      apply elem_of_app. right. by left. }
    destruct (IH this1 σ1 Hwf1 Hst Hy1 Hguard1 Hnd) as
      (vs' & σ' & Hrun & Hwf' & Hsub & Hy' & Hown & Hlen & Hout_nin & Hout_in).
    { intros w Hw. cbn. rewrite length_insert. apply Hlt. by right. }
    cbn [this1 g_ with_vertices with_g vertices edges] in Hown, Hlen, Hout_nin, Hout_in.
    exists vs', σ'. split.
    { cbn [foldM]. apply bind_Some. exists this1, σ1. split; [exact Hrun1|exact Hrun]. }
    split; [exact Hwf'|]. split; [by etrans|]. split; [done|].
    assert (vs' !! v = Some vx1) as Hv'.
    { rewrite Hout_nin by done. by apply list_lookup_insert_eq. }
    split; [|split; [|split]].
    + intros a Ha. destruct (Hown a Ha) as [Hin1 Heq1].
      destruct (Hown1 a Hin1) as [Hin Heq]. split; [done|]. congruence.
    + by rewrite Hlen, length_insert.
    + intros w [Hwv Hwl]%not_elem_of_cons.
      rewrite Hout_nin by done. by apply list_lookup_insert_ne.
    + intros w wx [->|Hw]%elem_of_cons Hwx.
      * assert (wx = vx) as -> by congruence.
        exists vx1. split; [done|]. split; [done|].
        destruct Hout1 as [[-> Hfar]|(-> & Hnear & Hfreed)].
        -- left. split; [done|]. intros k r Hk a Ha.
           destruct (Hfar k r Hk a Ha) as (x & Hx & Hw). exists x. split; [|done].
           destruct (Hown a) as [_ ->]; [|done].
           eapply hash_owned_lookup_graph; [exact Hv'|].
           unfold vertex_owned. apply elem_of_app. left.
           eapply hash_owned_elem; [done|]. by apply close_point_owned.
        -- right. split; [done|]. split; [done|].
           intros a Ha. eapply lookup_weaken_None; [|exact Hsub]. by apply Hfreed.
      * assert (w ≠ v) as Hne by (intros ->; done).
        destruct (Hout_in w wx Hw) as (vx' & Hvx' & Hst' & Hout).
        { by rewrite list_lookup_insert_ne. }
        exists vx'. split; [done|]. split; [done|].
        destruct Hout as [[-> Hfar]|(-> & Hnear & Hfreed)].
        -- by left.
        -- right. split; [done|]. split; [|done].
           destruct Hnear as (k & r & Hk & a & x & Ha & Hx & Hw').
           exists k, r. split; [done|]. exists a, x. split; [done|].
           split; [|done]. by eapply lookup_weaken.
Qed.

(** Adding a guard to a well-formed roadmap always succeeds; what it does
    to the guards and to the interface records. *)
Lemma addGuard_total st type (this : SPARStwo)
    (σ : si_state State) y :
  graph_wf this σ →
  deref (heap σ) st = Some y →
  ∃ this' σ' c vm,
    addGuard infinity distance dle st type this σ
    = Some ((length (vertices (g_ this)), this'), σ') ∧
    graph_wf this' σ' ∧
    (* the new guard holds a clone of the configuration *)
    vertices (g_ this') !! length (vertices (g_ this)) = Some vm ∧
    vertex_state vm = Some c ∧ vertex_color vm = type ∧
    heap σ' !! c = Some y ∧
    (* no remaining record has a close point within its range *)
    (∀ v vx k r,
       vertices (g_ this') !! v = Some vx →
       vertex_interface_data vx !! k = Some r →
       witness_far distance dle this (heap σ') y r) ∧
    (* every record that had one is cleared, its configurations released *)
    (∀ v vx k r,
       vertices (g_ this) !! v = Some vx →
       vertex_interface_data vx !! k = Some r →
       witness_near distance dle this (heap σ) y r →
       (∃ vx', vertices (g_ this') !! v = Some vx' ∧
               vertex_interface_data vx' !! k = Some new_record) ∧
       (∀ a, a ∈ owned r → heap σ' !! a = None)).
Proof.
  intros Hwf Hy. destruct st as [s|]; [|done]. cbn in Hy.
  set (n := length (vertices (g_ this))).
  set (c := allocState (heap σ)).
  set (σ0 := SiState (<[c := y]> (heap σ)) (log σ ++ [EvClone s c])).
  set (vm := mkVertex (Some c) n 0 type (∅ : InterfaceHash)).
  set (this0 := with_vertices (vertices (g_ this) ++ [vm]) this).
  assert (cloneState (Some s) σ = Some (Some c, σ0)) as Hclone.
  { apply cloneState_Some. exists y. split; [done|]. eauto. }
  assert (graph_owned (g_ this0) = graph_owned (g_ this) ++ [c]) as Hown0.
  { unfold graph_owned. cbn. rewrite bind_app, bind_singleton.
    unfold vertex_owned, hash_owned. cbn. by rewrite map_to_list_empty. }
  assert (c ∉ graph_owned (g_ this)) as Hc.
  { intros Hin. apply (wf_live _ _ Hwf) in Hin.
    unfold c in Hin. rewrite allocState_fresh in Hin. by destruct Hin. }
  assert (graph_wf this0 σ0) as Hwf0.
  { split.
    - rewrite Hown0. apply NoDup_app. split; [apply Hwf|].
      split; [|apply NoDup_singleton].
      intros a Ha ->%list_elem_of_singleton. done.
    - intros a. rewrite Hown0. intros [Ha| ->%list_elem_of_singleton]%elem_of_app.
      + cbn. rewrite lookup_insert_ne by (intros <-; done). by apply Hwf.
      + cbn. rewrite lookup_insert_eq. eauto.
    - intros v vx. cbn. intros [Hv|[_ Hv]]%lookup_app_Some.
      + by eapply (wf_guard _ _ Hwf).
      + apply list_elem_of_lookup_2, list_elem_of_singleton in Hv as ->. cbn. eauto. }
  destruct (abandon_fold (Some c) c y (seq 0 (length (vertices (g_ this0))))
              this0 σ0 Hwf0 eq_refl) as
    (vs' & σ' & Hrun & Hwf' & Hsub & Hy' & Hown & Hlen & _ & Hout).
  { cbn. apply lookup_insert_eq. }
  { exists n, vm. split; [|done]. cbn. by apply list_lookup_middle. }
  { apply NoDup_seq. }
  { intros v Hv%elem_of_seq. lia. }
  exists (with_vertices vs' this), σ', c.
  assert (vs' !! n = Some vm ∨
          vs' !! n = Some (set_interface_data (cleared infinity ∅) vm)) as Hn'.
  { destruct (Hout n vm) as (vx' & Hvx' & _ & [[-> _]|(-> & _)]).
    - apply elem_of_seq. cbn. rewrite length_app. cbn. lia.
    - cbn. by apply list_lookup_middle.
    - by left.
    - by right. }
  assert (∀ a x, heap σ !! a = Some x → heap σ0 !! a = Some x) as Hσ0.
  { intros a x Ha. cbn. rewrite lookup_insert_ne; [done|].
    intros <-. unfold c in Ha. by rewrite allocState_fresh in Ha. }
  assert (∃ vm', vs' !! n = Some vm' ∧ vertex_state vm' = Some c ∧
                 vertex_color vm' = type) as (vm' & Hvm' & Hvs & Hvc).
  { destruct Hn' as [?|?]; eauto. }
  exists vm'. split.
  { unfold addGuard. apply bind_Some. exists (Some c), σ0. split; [done|].
    fold n vm this0. apply bind_Some. eexists _, σ'. split; [exact Hrun|done]. }
  split; [done|]. split; [done|]. split; [done|]. split; [done|]. split; [done|].
  split.
  - intros v vx k r Hv Hk. cbn in Hv.
    assert (v < length (vertices (g_ this0))) as Hvlt.
    { rewrite <- Hlen. by eapply lookup_lt_Some. }
    destruct (lookup_lt_is_Some_2 _ _ Hvlt) as [vx0 Hvx0].
    destruct (Hout v vx0) as (vx' & Hvx' & _ & [[-> Hfar]|(-> & _)]);
      [apply elem_of_seq; lia|done|..].
    + assert (vx = vx0) as -> by congruence. by eapply Hfar.
    + assert (vx = set_interface_data
                     (cleared infinity (vertex_interface_data vx0)) vx0)
        as -> by congruence.
      cbn in Hk. unfold cleared in Hk. rewrite lookup_fmap in Hk.
      destruct (vertex_interface_data vx0 !! k); simplify_eq/=.
      intros a [Ha|Ha]; cbn in Ha; done.
  - intros v vx k r Hv Hk (a & x & Ha & Hx & Hw).
    assert (vertices (g_ this0) !! v = Some vx) as Hv0.
    { cbn. by apply lookup_app_l_Some. }
    destruct (Hout v vx) as (vx' & Hvx' & _ & [[-> Hfar]|(-> & _ & Hfreed)]);
      [apply elem_of_seq; apply lookup_lt_Some in Hv0; lia|done|..].
    + exfalso. destruct (Hfar k r Hk a Ha) as (x' & Hx' & Hw').
      assert (heap σ0 !! a = Some x') as Hx0 by (by eapply lookup_weaken).
      rewrite (Hσ0 a x Hx) in Hx0. injection Hx0 as <-.
      unfold within in Hw, Hw'. cbn in Hw'. congruence.
    + split.
      * eexists. split; [exact Hvx'|]. cbn. unfold cleared.
        by rewrite lookup_fmap, Hk.
      * intros b Hb. apply Hfreed. by eapply hash_owned_elem.
Qed.

Lemma freeIfSet_total p (σ : si_state State) :
  null_or_live (heap σ) p →
  ∃ σ', freeIfSet p σ = Some (tt, σ') ∧ freed (state_owned p) σ σ'.
Proof.
  intros Hl. eexists. split; [by apply freeIfSet_Some|].
  destruct p as [a|]; cbn.
  - split; [|split; [|done]].
    + intros b ->%list_elem_of_singleton. apply lookup_delete_eq.
    + intros b Hb. apply lookup_delete_ne. intros ->. apply Hb. by left.
  - split; [by intros a []%elem_of_nil|]. split; [done|].
    by rewrite !app_nil_r.
Qed.

(** Releasing everything the guards of a list own. *)
Lemma freeMemory_fold (vs : list (VertexProperty (double:=double)))
    (σ : si_state State) :
  NoDup (vs ≫= vertex_owned) →
  (∀ a, a ∈ vs ≫= vertex_owned → is_Some (heap σ !! a)) →
  ∃ σ',
    foldM (λ _ vx,
             foldM (λ _ kd, clearInterfaceData infinity kd.2 ;; mret tt) tt
                   (map_to_list (vertex_interface_data vx)) ;;
             freeIfSet (vertex_state vx))
          tt vs σ
    = Some (tt, σ') ∧
    freed (vs ≫= vertex_owned) σ σ'.
Proof.
  revert σ. induction vs as [|vx vs IH]; intros σ Hnd Hlive.
  - exists σ. split; [done|]. apply freed_nil.
  - rewrite bind_cons in Hnd, Hlive.
    unfold vertex_owned at 1 in Hnd. unfold vertex_owned at 1 in Hlive.
    apply NoDup_app in Hnd as (Hvx & Hvs & Hnd).
    apply NoDup_app in Hvx as (HH & HHS & HS).
    destruct (clear_fold_total (λ _ _ _, tt)
                (map_to_list (vertex_interface_data vx)) tt σ HH)
      as (σ1 & Hrun1 & Hfr1).
    { intros a Ha. apply Hlive. rewrite !elem_of_app. prop_tauto. }
    destruct (freeIfSet_total (vertex_state vx) σ1) as (σ2 & Hrun2 & Hfr2).
    { destruct (vertex_state vx) as [a|] eqn:E; [|done]. cbn.
      eapply freed_live; [done| |].
      - intros Hin. eapply HHS; [done|]. cbn. by left.
      - apply Hlive. cbn. rewrite !elem_of_app, elem_of_cons. prop_tauto. }
    pose proof (freed_app _ _ _ _ _ Hfr1 Hfr2) as Hfr12.
    destruct (IH σ2 Hnd) as (σ' & Hrun & Hfr).
    { intros a Ha. eapply freed_live; [done| |].
      - intros Hin. by eapply Hvs.
      - apply Hlive, elem_of_app. by right. }
    exists σ'. split.
    + cbn [foldM]. apply bind_Some. exists tt, σ2. split; [|done].
      apply bind_Some. eexists _, σ1. split; [exact Hrun1|done].
    + rewrite bind_cons. by eapply freed_app.
Qed.

Lemma clear_Some (this this1 : SPARStwo) (σ σ1 : si_state State) :
  clear infinity this σ = Some (this1, σ1) →
  this1 = clearQuery (with_g (mkGraph [] []) this).
Proof.
  unfold clear.
  intros ([] & ? & _ & [= -> ->]%ret_Some)%bind_Some. done.
Qed.

Lemma clear_empty (this : SPARStwo) (σ : si_state State) :
  clear infinity (clearQuery (with_g (mkGraph [] []) this)) σ
  = Some (clearQuery (with_g (mkGraph [] []) this), σ).
Proof. done. Qed.

(** Claim C6.  Clearing a record releases each of its configurations once
    and leaves the fresh record; clearing it again changes nothing and
    releases nothing; [clearSafeState] on an empty slot does not call
    [freeState]; and [clear] on the planner releases what the graph owns
    once, leaves the empty graph, and run again changes nothing. *)
Theorem clearing_twice_is_clearing_once (this : SPARStwo) (d : InterfaceData)
    (σ : si_state State) :
  record_wf (heap σ) d →
  graph_wf this σ →
  (* a record: cleared once, each configuration released once; cleared
     again, nothing happens *)
  (∃ σ1, clearInterfaceData infinity d σ = Some (new_record, σ1) ∧
         freed (owned d) σ σ1 ∧
         clearInterfaceData infinity new_record σ1 = Some (new_record, σ1)) ∧
  (∀ d0 (σ0 : si_state State) d1 σ1,
     clearInterfaceData infinity d0 σ0 = Some (d1, σ1) →
     d1 = new_record ∧ clearInterfaceData infinity d1 σ1 = Some (d1, σ1)) ∧
  (* an empty slot: no call to freeState *)
  (∀ ss (σ0 : si_state State),
     safe.get ss = NULL → clearSafeState ss σ0 = Some (safe.new, σ0)) ∧
  (* the planner *)
  (∃ this1 σ1,
     clear infinity this σ = Some (this1, σ1) ∧
     g_ this1 = mkGraph [] [] ∧
     freed (graph_owned (g_ this)) σ σ1 ∧
     clear infinity this1 σ1 = Some (this1, σ1)) ∧
  (∀ (this0 this1 : SPARStwo) (σ0 σ1 : si_state State),
     clear infinity this0 σ0 = Some (this1, σ1) →
     clear infinity this1 σ1 = Some (this1, σ1)).
Proof.
  intros Hd Hwf.
  assert (∀ σ0 : si_state State,
            clearInterfaceData infinity new_record σ0 = Some (new_record, σ0))
    as Hnew.
  { intros [h l]. apply clearInterfaceData_Some. cbn.
    by rewrite app_nil_r. }
  split; [|split; [|split; [|split]]].
  - destruct (clearInterfaceData_total infinity d σ Hd) as (σ1 & Hrun & Hfr).
    eauto.
  - intros d0 σ0 d1 σ1 (_ & _ & _ & _ & -> & _)%clearInterfaceData_Some. eauto.
  - intros ss [h l] Hss. apply clearSafeState_Some. rewrite Hss. cbn.
    by rewrite app_nil_r.
  - destruct (freeMemory_fold (vertices (g_ this)) σ) as (σ1 & Hrun & Hfr);
      [apply Hwf..|].
    exists (clearQuery (with_g (mkGraph [] []) this)), σ1.
    split; [|split; [done|split; [done|apply clear_empty]]].
    unfold clear, freeMemory. apply bind_Some. exists tt, σ1. done.
  - intros this0 this1 σ0 σ1 ->%clear_Some. apply clear_empty.
Qed.

(** Claim C10, for the values an [unsigned int] holds.  Each getter returns
    what its setter was given, for every [double], negative ones and zero
    included, and for every failure limit from [0] to [2^32 - 1]; and no
    setter changes another parameter or anything else of the planner. *)
Theorem setters_getters_round_trip (this : SPARStwo) (t D d : double) (m : Z) :
  (0 ≤ m < 2 ^ 32)%Z →
  (* each getter returns what its setter stored *)
  getStretchFactor (setStretchFactor t this) = t ∧
  getSparseDelta (setSparseDelta D this) = D ∧
  getDenseDelta (setDenseDelta d this) = d ∧
  getMaxFailures (setMaxFailures m this) = m ∧
  (* and no setter touches another parameter *)
  (getSparseDelta (setStretchFactor t this) = getSparseDelta this ∧
   getDenseDelta (setStretchFactor t this) = getDenseDelta this ∧
   getMaxFailures (setStretchFactor t this) = getMaxFailures this) ∧
  (getStretchFactor (setSparseDelta D this) = getStretchFactor this ∧
   getDenseDelta (setSparseDelta D this) = getDenseDelta this ∧
   getMaxFailures (setSparseDelta D this) = getMaxFailures this) ∧
  (getStretchFactor (setDenseDelta d this) = getStretchFactor this ∧
   getSparseDelta (setDenseDelta d this) = getSparseDelta this ∧
   getMaxFailures (setDenseDelta d this) = getMaxFailures this) ∧
  (getStretchFactor (setMaxFailures m this) = getStretchFactor this ∧
   getSparseDelta (setMaxFailures m this) = getSparseDelta this ∧
   getDenseDelta (setMaxFailures m this) = getDenseDelta this) ∧
  (* nor anything else of the planner *)
  (∀ this', this' ∈ [setStretchFactor t this; setSparseDelta D this;
                     setDenseDelta d this; setMaxFailures m this] →
     g_ this' = g_ this ∧ startM_ this' = startM_ this ∧
     goalM_ this' = goalM_ this ∧
     nearSamplePoints_ this' = nearSamplePoints_ this ∧
     qNew_ this' = qNew_ this ∧
     graphNeighborhood_ this' = graphNeighborhood_ this ∧
     visibleNeighborhood_ this' = visibleNeighborhood_ this ∧
     addedSolution_ this' = addedSolution_ this ∧
     iterations_ this' = iterations_ this).
Proof.
  intros Hm.
  assert (getMaxFailures (setMaxFailures m this) = m) as Hmax.
  { unfold getMaxFailures, setMaxFailures, to_unsigned. cbn.
    by apply Z.mod_small. }
  repeat (split; [done|]).
  intros this' Hin.
  rewrite !elem_of_cons, elem_of_nil in Hin.
  by destruct Hin as [->|[->|[->|[->|[]]]]].
Qed.

(** The key of a pair of neighbours does not depend on their order, and the
    slot written for a neighbour follows the order of the identifiers. *)
Lemma index_ignores_order_slot_follows_it (this : SPARStwo) (v a b : Vertex) :
  (* one key, hence one record, for both orders *)
  index a b = index b a ∧
  getData infinity v a b this = getData infinity v b a this ∧
  (* the key lists the lower identifier first *)
  index a b = (a `min` b, a `max` b) ∧
  (* the side of the lower identifier is the first slot, the other the second *)
  sideOf a b = (if decide (a < b) then first else second) ∧
  sideOf b a = (if decide (a = b) then sideOf a b else opposite (sideOf a b)) ∧
  (* and that is the slot written for it *)
  (∀ q s,
     writeWitness infinity distance v a b q s this =
     (d ← liftO (getData infinity v a b this);
      d' ← setter distance (sideOf a b) q s d;
      liftO (setData v a b d' this))).
Proof.
  assert (index a b = index b a) as Hidx.
  { unfold index. repeat case_decide; try done; f_equal; lia. }
  split; [done|]. split; [by unfold getData; rewrite Hidx|].
  split; [unfold index; case_decide; f_equal; lia|].
  split; [done|]. split.
  - unfold sideOf. repeat case_decide; try done; lia.
  - intros q s. unfold writeWitness, setter. by destruct (sideOf a b).
Qed.

Lemma filterO_total {A} (f : A → option bool) (l : list A) :
  (∀ x, x ∈ l → is_Some (f x)) →
  ∃ l', filterO f l = Some l' ∧ ∀ x, x ∈ l' ↔ x ∈ l ∧ f x = Some true.
Proof.
  induction l as [|x l IH]; intros Hl.
  - exists []. split; [done|]. intros x. rewrite elem_of_nil. prop_tauto.
  - destruct (Hl x) as [b Hb]; [by left|].
    destruct IH as (l' & Hl' & Hin).
    { intros z Hz. apply Hl. by right. }
    cbn. rewrite Hb, Hl'. cbn. eexists. split; [done|].
    intros z. clear -Hb Hin.
    destruct b; rewrite ?elem_of_cons, Hin; naive_solver.
Qed.

Lemma graph_wf_same_g (this this' : SPARStwo) (σ : si_state State) :
  g_ this' = g_ this → graph_wf this σ → graph_wf this' σ.
Proof. intros Hg [? ? ?]. split; by rewrite Hg. Qed.

Lemma guard_state_live (this : SPARStwo) (σ : si_state State) v vx :
  graph_wf this σ →
  vertices (g_ this) !! v = Some vx →
  ∃ c x, vertex_state vx = Some c ∧ heap σ !! c = Some x.
Proof.
  intros Hwf Hv. destruct (wf_guard _ _ Hwf v vx Hv) as [c Hc].
  destruct (wf_live _ _ Hwf c) as [x Hx]; [|by eauto].
  unfold graph_owned. rewrite (graph_owned_lookup _ v vx Hv).
  unfold vertex_owned. rewrite Hc, !elem_of_app. cbn. rewrite list_elem_of_singleton.
  prop_tauto.
Qed.

(** The neighbourhoods of a live configuration can always be computed;
    the visible one lists the guards in range that see it. *)
Lemma findGraphNeighbors_total (this : SPARStwo) (σ : si_state State) st y :
  graph_wf this σ →
  deref (heap σ) st = Some y →
  ∃ gn vn,
    findGraphNeighbors distance dle checkMotion st this σ
    = Some (with_neighborhoods gn vn this, σ) ∧
    (∀ v, v ∈ vn ↔
          ∃ vx x, vertices (g_ this) !! v = Some vx ∧
                  deref (heap σ) (vertex_state vx) = Some x ∧
                  within distance dle this y x = true ∧
                  checkMotion y x = true).
Proof.
  intros Hwf Hy.
  destruct (filterO_total (guardWithin distance dle this (heap σ) st)
              (seq 0 (length (vertices (g_ this))))) as (gn & Hgn & Hgn_in).
  { intros v Hv%elem_of_seq.
    destruct (lookup_lt_is_Some_2 (vertices (g_ this)) v) as [vx Hvx]; [lia|].
    destruct (guard_state_live this σ v vx Hwf Hvx) as (c & x & Hc & Hx).
    unfold guardWithin, withinRange. rewrite Hvx. cbn. rewrite Hy, Hc. cbn.
    rewrite Hx. cbn. eauto. }
  destruct (filterO_total (guardVisible checkMotion this (heap σ) st) gn)
    as (vn & Hvn & Hvn_in).
  { intros v [Hv%elem_of_seq _]%Hgn_in.
    destruct (lookup_lt_is_Some_2 (vertices (g_ this)) v) as [vx Hvx]; [lia|].
    destruct (guard_state_live this σ v vx Hwf Hvx) as (c & x & Hc & Hx).
    unfold guardVisible. rewrite Hvx. cbn. rewrite Hy, Hc. cbn.
    rewrite Hx. cbn. eauto. }
  exists gn, vn. split.
  - unfold findGraphNeighbors. apply bind_Some. exists gn, σ.
    split; [apply readM_Some; eauto|]. apply bind_Some. exists vn, σ.
    split; [apply readM_Some; eauto|]. done.
  - intros v. rewrite Hvn_in, Hgn_in, elem_of_seq. split.
    + intros [[Hlt Hw] Hvis].
      destruct (lookup_lt_is_Some_2 (vertices (g_ this)) v) as [vx Hvx]; [lia|].
      destruct (guard_state_live this σ v vx Hwf Hvx) as (c & x & Hc & Hx).
      exists vx, x. unfold guardWithin, withinRange, guardVisible in Hw, Hvis.
      rewrite Hvx in Hw, Hvis. cbn in Hw, Hvis. rewrite Hy, Hc in Hw, Hvis.
      cbn in Hw, Hvis. rewrite Hx in Hw, Hvis. cbn in Hw, Hvis.
      rewrite Hc. cbn. split; [done|]. split; [done|]. split; congruence.
    + intros (vx & x & Hvx & Hx & Hw & Hvis).
      pose proof (lookup_lt_Some _ _ _ Hvx).
      unfold guardWithin, withinRange, guardVisible. rewrite Hvx. cbn.
      rewrite Hy. cbn. rewrite Hx. cbn. rewrite Hw, Hvis. split; [split; [lia|done]|done].
Qed.

(** Claim C4, with visibility in place of distance.  For a sample [y] held
    in [qNew_], the neighbourhoods are computed and the coverage criterion
    returns; it fires exactly when the visible neighbourhood is empty, that
    is, when no guard within [sparseDelta_] of [y] can be joined to it by a
    valid motion; and when it fires the sample becomes a guard of colour
    [COVERAGE]. *)
Theorem coverage_fires_iff_no_visible_guard (this : SPARStwo)
    (σ : si_state State) y :
  graph_wf this σ →
  deref (heap σ) (qNew_ this) = Some y →
  ∃ gn vn b this2 σ2,
    findGraphNeighbors distance dle checkMotion (qNew_ this) this σ
    = Some (with_neighborhoods gn vn this, σ) ∧
    checkAddCoverage infinity distance dle (with_neighborhoods gn vn this) σ
    = Some ((b, this2), σ2) ∧
    (* the criterion fires exactly when the visible neighbourhood is empty *)
    (b = true ↔ vn = []) ∧
    (* that is, when every guard in range of the sample does not see it *)
    (vn = [] ↔
     ∀ v vx x, vertices (g_ this) !! v = Some vx →
               deref (heap σ) (vertex_state vx) = Some x →
               within distance dle this y x = true →
               checkMotion y x = false) ∧
    (* it then adds the sample as a COVERAGE guard *)
    (b = true →
     ∃ vm c, vertices (g_ this2) !! length (vertices (g_ this)) = Some vm ∧
             vertex_color vm = COVERAGE ∧
             vertex_state vm = Some c ∧ heap σ2 !! c = Some y) ∧
    (b = false → this2 = with_neighborhoods gn vn this ∧ σ2 = σ).
Proof.
  intros Hwf Hy.
  destruct (findGraphNeighbors_total this σ (qNew_ this) y Hwf Hy)
    as (gn & vn & Hfind & Hvn).
  assert (vn = [] ↔
          ∀ v vx x, vertices (g_ this) !! v = Some vx →
                    deref (heap σ) (vertex_state vx) = Some x →
                    within distance dle this y x = true →
                    checkMotion y x = false) as Hempty.
  { split.
    - intros -> v vx x Hvx Hx Hw. apply not_true_is_false. intros Hvis.
      eapply (elem_of_nil v), Hvn. eauto 10.
    - intros Hnone. apply elem_of_nil_inv. intros v (vx & x & Hvx & Hx & Hw & Hvis)%Hvn.
      rewrite (Hnone v vx x Hvx Hx Hw) in Hvis. done. }
  set (this1 := with_neighborhoods gn vn this).
  destruct vn as [|v0 vn].
  - destruct (addGuard_total (qNew_ this1) COVERAGE this1 σ y)
      as (this2 & σ2 & c & vm & Hadd & _ & Hvm & Hc & Hcol & Hyc & _); [|done|].
    { by apply (graph_wf_same_g this). }
    exists gn, [], true, this2, σ2. split; [done|]. split.
    { unfold checkAddCoverage. cbn [visibleNeighborhood_ with_neighborhoods].
      apply bind_Some. eexists _, σ2. split; [exact Hadd|done]. }
    split; [done|]. split; [done|]. split; [|done].
    intros _. exists vm, c. done.
  - exists gn, (v0 :: vn), false, this1, σ. split; [done|]. split; [done|].
    split; [done|]. split; [done|]. split; done.
Qed.
End RoadmapFacts.

Section UnionFindFacts.
Context {double : Type}.

Abbreviation VertexProperty := (@VertexProperty double).
Abbreviation Graph := (@Graph double).

Implicit Types vs : list VertexProperty.

Lemma repr_lt vs x r : repr vs x r → x < length vs ∧ r < length vs.
Proof.
  induction 1 as [x vx Hx _|x vx r Hx _ _ [_ IH]].
  - apply lookup_lt_Some in Hx. lia.
  - apply lookup_lt_Some in Hx. lia.
Qed.

Lemma repr_is_root vs x r :
  repr vs x r → ∃ vr, vs !! r = Some vr ∧ vertex_predecessor vr = r.
Proof. induction 1; eauto. Qed.

Lemma repr_fun vs x r r' : repr vs x r → repr vs x r' → r = r'.
Proof.
  intros H. revert r'. induction H as [x vx Hx Hp|x vx r Hx Hp _ IH]; intros r' H'.
  - inversion H' as [? vx' Hx' Hp'|? vx' ? Hx' Hp' _]; subst; [done|].
    congruence.
  - inversion H' as [? vx' Hx' Hp'|? vx' ? Hx' Hp' Hr']; subst; [congruence|].
    apply IH. congruence.
Qed.

(** Only the predecessors matter. *)
Lemma repr_ext vs vs' x r :
  (∀ y, vertex_predecessor <$> vs' !! y = vertex_predecessor <$> vs !! y) →
  repr vs x r → repr vs' x r.
Proof.
  intros Hext. induction 1 as [x vx Hx Hp|x vx r Hx Hp _ IH].
  - specialize (Hext x). rewrite Hx in Hext.
    destruct (vs' !! x) as [vx'|] eqn:Hx'; [|done]. injection Hext as Hext.
    eapply repr_root; [done|congruence].
  - specialize (Hext x). rewrite Hx in Hext.
    destruct (vs' !! x) as [vx'|] eqn:Hx'; [|done]. injection Hext as Hext.
    eapply repr_step; [done|congruence|]. by rewrite Hext.
Qed.

Lemma find_rep_repr vs fuel x r : find_rep vs fuel x = Some r → repr vs x r.
Proof.
  revert x. induction fuel as [|fuel IH]; intros x; cbn; [done|].
  destruct (vs !! x) as [vx|] eqn:Hx; [|done].
  case_decide as Hp.
  - intros [= <-]. by eapply repr_root.
  - intros Hr. eapply repr_step; eauto.
Qed.

(** No rank reaches the number of guards. *)
Lemma uf_rank_lt vs x vx :
  uf_shape vs → vs !! x = Some vx → vertex_rank vx < length vs.
Proof.
  intros Hs Hx.
  assert (seq 0 (S (vertex_rank vx)) ⊆+ (vertex_rank <$> vs)) as Hsub.
  { apply NoDup_submseteq; [apply NoDup_seq|].
    intros j Hj%elem_of_seq.
    destruct (uf_rank_closed _ Hs x vx j Hx) as (y & vy & Hy & <-); [lia|].
    apply list_elem_of_fmap. exists vy. split; [done|].
    by eapply list_elem_of_lookup_2. }
  apply submseteq_length in Hsub. rewrite length_seq, length_fmap in Hsub. lia.
Qed.

(** The chain of a guard is found before the fuel runs out. *)
Lemma find_rep_total vs fuel x vx :
  uf_shape vs →
  vs !! x = Some vx →
  length vs - vertex_rank vx ≤ fuel →
  ∃ r, find_rep vs fuel x = Some r.
Proof.
  intros Hs. revert x vx. induction fuel as [|fuel IH]; intros x vx Hx Hfuel.
  - pose proof (uf_rank_lt vs x vx Hs Hx). lia.
  - cbn. rewrite Hx. case_decide as Hp; [by eauto|].
    pose proof (uf_pred_lt _ Hs x vx Hx) as Hlt.
    destruct (lookup_lt_is_Some_2 vs _ Hlt) as [px Hpx].
    pose proof (uf_rank_up _ Hs x vx px Hx Hp Hpx).
    eapply IH; [done|lia].
Qed.

Lemma find_set_repr (g : Graph) x :
  uf_shape (vertices g) → x < length (vertices g) →
  ∃ r, find_set g x = Some r ∧ repr (vertices g) x r.
Proof.
  intros Hs Hx. destruct (lookup_lt_is_Some_2 _ _ Hx) as [vx Hvx].
  destruct (find_rep_total (vertices g) (length (vertices g)) x vx Hs Hvx)
    as [r Hr]; [lia|].
  exists r. split; [done|]. by eapply find_rep_repr.
Qed.

(** *** Paths and one more edge *)

Lemma adjacent_app_edge (g g' : Graph) u v w a b :
  edges g' = edges g ++ [(u, v, w)] →
  adjacent g' a b ↔ adjacent g a b ∨ (a = u ∧ b = v).
Proof.
  intros He. unfold adjacent. rewrite He. split.
  - intros (w' & [Hin|Hin%list_elem_of_singleton]%elem_of_app).
    + left. eauto.
    + right. by simplify_eq.
  - intros [(w' & Hin)|[-> ->]].
    + exists w'. apply elem_of_app. by left.
    + exists w. apply elem_of_app. right. by apply list_elem_of_singleton.
Qed.

Lemma connected_add_edge (g g' : Graph) u v w x y :
  edges g' = edges g ++ [(u, v, w)] →
  connected g' x y ↔
  connected g x y ∨ (connected g x u ∧ connected g v y) ∨
  (connected g x v ∧ connected g u y).
Proof.
  intros He. unfold connected. split.
  - induction 1 as [x|x z y Hxz _ IH]; [by left|].
    assert (rtsc (adjacent g) x z ∨ (x = u ∧ z = v) ∨ (x = v ∧ z = u)) as Hstep.
    { destruct Hxz as [Hxz|Hxz];
        apply (adjacent_app_edge g g' u v w) in Hxz; try done.
      - destruct Hxz as [?|[-> ->]]; [left; by apply rtsc_lr|prop_tauto].
      - destruct Hxz as [?|[-> ->]]; [left; by apply rtsc_rl|prop_tauto]. }
    destruct Hstep as [Hxz'|[[-> ->]|[-> ->]]].
    + destruct IH as [IH|[[IH1 IH2]|[IH1 IH2]]].
      * left. by etrans.
      * right; left. split; [by etrans|done].
      * right; right. split; [by etrans|done].
    + destruct IH as [IH|[[IH1 IH2]|[IH1 IH2]]].
      * right; left. done.
      * right; left. done.
      * left. done.
    + destruct IH as [IH|[[IH1 IH2]|[IH1 IH2]]].
      * right; right. done.
      * left. done.
      * right; right. done.
  - assert (∀ a b, rtsc (adjacent g) a b → rtsc (adjacent g') a b) as Hmono.
    { intros a b. apply rtc_subrel. intros c e [H|H]; [left|right];
        apply (adjacent_app_edge g g' u v w); prop_tauto. }
    assert (rtsc (adjacent g') u v) as Huv.
    { apply rtsc_lr, (adjacent_app_edge g g' u v w); prop_tauto. }
    intros [H|[[H1 H2]|[H1 H2]]].
    + by apply Hmono.
    + etrans; [by apply Hmono|]. etrans; [exact Huv|]. by apply Hmono.
    + etrans; [by apply Hmono|]. etrans; [symmetry; exact Huv|]. by apply Hmono.
Qed.

(** A guard no edge touches is connected to itself only. *)
Lemma connected_in_range (g : Graph) n x y :
  (∀ u v w, (u, v, w) ∈ edges g → u < n ∧ v < n) →
  connected g x y → x = y ∨ (x < n ∧ y < n).
Proof.
  intros Hlt. induction 1 as [x|x z y Hxz _ IH]; [by left|].
  right. assert (x < n ∧ z < n) as [Hx Hz].
  { destruct Hxz as [(w & Hin)|(w & Hin)]; apply Hlt in Hin; lia. }
  destruct IH as [<-|[_ Hy]]; lia.
Qed.

(** *** The same forest under other vertex properties *)

Lemma skeleton_lookup vs vs' x vx' :
  skeleton vs' = skeleton vs →
  vs' !! x = Some vx' →
  ∃ vx, vs !! x = Some vx ∧
        vertex_predecessor vx = vertex_predecessor vx' ∧
        vertex_rank vx = vertex_rank vx'.
Proof.
  intros Hsk Hx. apply (f_equal (λ l, l !! x)) in Hsk.
  unfold skeleton in Hsk. rewrite !list_lookup_fmap, Hx in Hsk.
  destruct (vs !! x) as [vx|]; [|done]. cbn in Hsk. exists vx.
  split; [done|]. split; congruence.
Qed.

Lemma skeleton_length vs vs' :
  skeleton vs' = skeleton vs → length vs' = length vs.
Proof.
  intros Hsk. apply (f_equal length) in Hsk. unfold skeleton in Hsk.
  by rewrite !length_fmap in Hsk.
Qed.

Lemma skeleton_insert_interface vs v vx ih :
  vs !! v = Some vx →
  skeleton (<[v := set_interface_data ih vx]> vs) = skeleton vs.
Proof.
  intros Hv. unfold skeleton. rewrite list_fmap_insert. cbn.
  apply list_insert_id. by rewrite list_lookup_fmap, Hv.
Qed.

Lemma skeleton_pred vs vs' :
  skeleton vs' = skeleton vs →
  ∀ y, vertex_predecessor <$> vs' !! y = vertex_predecessor <$> vs !! y.
Proof.
  intros Hsk y. destruct (vs' !! y) as [vy'|] eqn:Hy'.
  - destruct (skeleton_lookup vs vs' y vy' Hsk Hy') as (vy & -> & Hp & _).
    cbn. by rewrite Hp.
  - apply lookup_ge_None in Hy'. rewrite (skeleton_length _ _ Hsk) in Hy'.
    apply lookup_ge_None in Hy'. by rewrite Hy'.
Qed.

Lemma uf_shape_skeleton vs vs' :
  skeleton vs' = skeleton vs → uf_shape vs → uf_shape vs'.
Proof.
  intros Hsk [Hlt Hup Hcl]. pose proof (skeleton_length _ _ Hsk) as Hlen.
  split.
  - intros x vx' Hx'.
    destruct (skeleton_lookup _ _ _ _ Hsk Hx') as (vx & Hx & <- & _).
    rewrite Hlen. eauto.
  - intros x vx' px' Hx' Hp Hpx'.
    destruct (skeleton_lookup _ _ _ _ Hsk Hx') as (vx & Hx & Hpe & <-).
    destruct (skeleton_lookup _ _ _ _ Hsk Hpx') as (px & Hpx & _ & <-).
    rewrite <- Hpe in *. eauto.
  - intros x vx' j Hx' Hj.
    destruct (skeleton_lookup _ _ _ _ Hsk Hx') as (vx & Hx & _ & Hr).
    destruct (Hcl x vx j Hx) as (y & vy & Hy & Hry); [lia|].
    destruct (skeleton_lookup _ _ _ _ (eq_sym Hsk) Hy) as (vy' & Hy' & _ & Hr').
    exists y, vy'. split; [done|]. congruence.
Qed.

Lemma uf_wf_skeleton (g g' : Graph) :
  skeleton (vertices g') = skeleton (vertices g) →
  edges g' = edges g →
  uf_wf g → uf_wf g'.
Proof.
  intros Hsk He [Hs Hlt Hc]. pose proof (skeleton_length _ _ Hsk) as Hlen.
  assert (∀ x y, connected g' x y ↔ connected g x y) as Hconn.
  { intros x y. unfold connected, adjacent. by rewrite He. }
  split.
  - by eapply uf_shape_skeleton.
  - intros u v w. rewrite He, Hlen. apply Hlt.
  - intros u v ru rv Hu Hv. rewrite Hconn. apply Hc.
    + eapply repr_ext; [|exact Hu]. by apply skeleton_pred.
    + eapply repr_ext; [|exact Hv]. by apply skeleton_pred.
Qed.

(** *** Linking two roots *)

Lemma link_linked vs vs' i j vi vj :
  link i j vs = Some vs' →
  i ≠ j →
  vs !! i = Some vi → vertex_predecessor vi = i →
  vs !! j = Some vj → vertex_predecessor vj = j →
  linked vs vs' j i ∨ linked vs vs' i j.
Proof.
  intros Hlink Hne Hi Hpi Hj Hpj. unfold link in Hlink.
  rewrite decide_False in Hlink by done. rewrite Hi, Hj in Hlink. cbn in Hlink.
  pose proof (lookup_lt_Some _ _ _ Hi) as Hilt.
  pose proof (lookup_lt_Some _ _ _ Hj) as Hjlt.
  destruct (decide (vertex_rank vj < vertex_rank vi)) as [Hlt|Hge].
  - (* [j] goes below [i] *)
    injection Hlink as <-. left. split; eauto.
    + by rewrite length_insert.
    + intros x vx Hx. destruct (decide (x = j)) as [->|Hxj].
      * eexists. rewrite list_lookup_insert_eq by done. split; [done|].
        assert (vx = vj) as -> by congruence. done.
      * exists vx. by rewrite list_lookup_insert_ne.
    + intros vc vp vp' Hc Hp. rewrite list_lookup_insert_ne by done.
      intros Hp'. assert (vc = vj) as -> by congruence.
      assert (vp = vi) as -> by congruence.
      assert (vp' = vi) as -> by congruence. split; [done|by left].
  - right. destruct (decide (vertex_rank vi = vertex_rank vj)) as [Heq|Hneq];
      injection Hlink as <-.
    + (* equal ranks: [i] goes below [j], whose rank grows *)
      split; eauto.
      * by rewrite !length_insert.
      * intros x vx Hx. destruct (decide (x = j)) as [->|Hxj].
        -- eexists. rewrite list_lookup_insert_eq by (by rewrite length_insert).
           split; [done|]. assert (vx = vj) as -> by congruence.
           rewrite decide_False by done. done.
        -- rewrite list_lookup_insert_ne by done.
           destruct (decide (x = i)) as [->|Hxi].
           ++ eexists. rewrite list_lookup_insert_eq by done. split; [done|].
              assert (vx = vi) as -> by congruence. done.
           ++ exists vx. by rewrite list_lookup_insert_ne.
      * intros vc vp vp' Hc Hp.
        rewrite list_lookup_insert_eq by (by rewrite length_insert).
        intros [= <-]. assert (vc = vi) as -> by congruence.
        assert (vp = vj) as -> by congruence. cbn. split; [lia|]. right. done.
    + (* [i] goes below [j] *)
      split; eauto.
      * by rewrite length_insert.
      * intros x vx Hx. destruct (decide (x = i)) as [->|Hxi].
        -- eexists. rewrite list_lookup_insert_eq by done. split; [done|].
           assert (vx = vi) as -> by congruence. done.
        -- exists vx. by rewrite list_lookup_insert_ne.
      * intros vc vp vp' Hc Hp. rewrite list_lookup_insert_ne by done.
        intros Hp'. assert (vc = vi) as -> by congruence.
        assert (vp = vj) as -> by congruence.
        assert (vp' = vj) as -> by congruence. split; [lia|by left].
Qed.

Lemma linked_lookup vs vs' c p x vx' :
  linked vs vs' c p →
  vs' !! x = Some vx' →
  ∃ vx, vs !! x = Some vx ∧
        vertex_predecessor vx' = (if decide (x = c) then p else vertex_predecessor vx) ∧
        (x ≠ p → vertex_rank vx' = vertex_rank vx).
Proof.
  intros Hl Hx'. pose proof (lookup_lt_Some _ _ _ Hx') as Hlt.
  rewrite (linked_length _ _ _ _ Hl) in Hlt.
  destruct (lookup_lt_is_Some_2 _ _ Hlt) as [vx Hx].
  destruct (linked_pred _ _ _ _ Hl x vx Hx) as (vx'' & Hx'' & Hp & Hr).
  assert (vx'' = vx') as -> by congruence. eauto.
Qed.

Lemma linked_shape vs vs' c p :
  linked vs vs' c p → uf_shape vs → uf_shape vs'.
Proof.
  intros Hl [Hlt Hup Hcl].
  destruct (linked_root_c _ _ _ _ Hl) as (vc & Hc & Hpc).
  destruct (linked_root_p _ _ _ _ Hl) as (vp & Hp & Hpp).
  pose proof (linked_ne _ _ _ _ Hl) as Hne.
  destruct (linked_pred _ _ _ _ Hl p vp Hp) as (vp' & Hp' & _ & _).
  destruct (linked_rank _ _ _ _ Hl vc vp vp' Hc Hp Hp') as [Hcp Hrp].
  split.
  - intros x vx' Hx'.
    destruct (linked_lookup _ _ _ _ _ _ Hl Hx') as (vx & Hx & -> & _).
    rewrite (linked_length _ _ _ _ Hl). case_decide.
    + by eapply lookup_lt_Some.
    + eauto.
  - intros x vx' px' Hx' Hnr Hpx'.
    destruct (linked_lookup _ _ _ _ _ _ Hl Hx') as (vx & Hx & Hpe & Hr).
    rewrite Hpe in Hnr, Hpx'. case_decide as Hxc.
    + subst x. assert (px' = vp') as -> by congruence.
      assert (vx = vc) as -> by congruence. rewrite Hr by done. done.
    + assert (x ≠ p) as Hxp by (intros ->; congruence).
      rewrite Hr by done.
      destruct (linked_lookup _ _ _ _ _ _ Hl Hpx') as (px & Hpx & _ & Hrq).
      pose proof (Hup x vx px Hx Hnr Hpx) as Hlt'.
      destruct (decide (vertex_predecessor vx = p)) as [Hq|Hq].
      * rewrite Hq in *. assert (px' = vp') as -> by congruence.
        assert (px = vp) as -> by congruence. lia.
      * rewrite Hrq by done. done.
  - intros x vx' j Hx' Hj.
    destruct (linked_lookup _ _ _ _ _ _ Hl Hx') as (vx & Hx & _ & Hr).
    assert (j = vertex_rank vp' ∨
            ∃ y vy, vs !! y = Some vy ∧ vertex_rank vy = j) as [->|(y & vy & Hy & Hjy)].
    { destruct (decide (x = p)) as [->|Hxp].
      - assert (vx' = vp') as -> by congruence.
        assert (vx = vp) as -> by congruence.
        destruct (decide (j = vertex_rank vp')); [by left|]. right.
        apply (Hcl p vp); [done|lia].
      - right. rewrite Hr in Hj by done. by apply (Hcl x vx). }
    + eauto.
    + destruct (decide (y = p)) as [->|Hyp].
      * assert (vy = vp) as -> by congruence.
        destruct Hrp as [Hrp|[Hrp Hrc]].
        -- exists p, vp'. split; [done|]. congruence.
        -- destruct (linked_pred _ _ _ _ Hl c vc Hc) as (vc' & Hc' & _ & Hrc').
           exists c, vc'. split; [done|]. rewrite Hrc' by done. congruence.
      * destruct (linked_pred _ _ _ _ Hl y vy Hy) as (vy' & Hy' & _ & Hry').
        exists y, vy'. split; [done|]. rewrite Hry' by done. done.
Qed.

Lemma linked_repr vs vs' c p x r :
  linked vs vs' c p →
  repr vs x r →
  repr vs' x (if decide (r = c) then p else r).
Proof.
  intros Hl.
  destruct (linked_root_p _ _ _ _ Hl) as (vp & Hp & Hpp).
  pose proof (linked_ne _ _ _ _ Hl) as Hne.
  destruct (linked_pred _ _ _ _ Hl p vp Hp) as (vp' & Hp' & Hpp' & _).
  rewrite decide_False in Hpp' by done.
  induction 1 as [x vx Hx Hpx|x vx r Hx Hpx _ IH].
  - destruct (linked_pred _ _ _ _ Hl x vx Hx) as (vx' & Hx' & Hpx' & _).
    case_decide as Hxc.
    + subst x.
      eapply repr_step; [exact Hx'|congruence|]. rewrite Hpx'.
      eapply repr_root; [exact Hp'|congruence].
    + eapply repr_root; [exact Hx'|congruence].
  - destruct (linked_pred _ _ _ _ Hl x vx Hx) as (vx' & Hx' & Hpx' & _).
    assert (x ≠ c) as Hxc.
    { intros ->. destruct (linked_root_c _ _ _ _ Hl) as (vc & Hc & Hpc). congruence. }
    rewrite decide_False in Hpx' by done.
    eapply repr_step; [exact Hx'|congruence|]. by rewrite Hpx'.
Qed.

(** *** One more guard *)

Lemma skeleton_app_lookup vs vs' c ty x vx' :
  skeleton vs' = skeleton vs ++ [(c, ty, length vs, 0)] →
  vs' !! x = Some vx' →
  (∃ vx, vs !! x = Some vx ∧
         vertex_predecessor vx = vertex_predecessor vx' ∧
         vertex_rank vx = vertex_rank vx')
  ∨ (x = length vs ∧ vertex_predecessor vx' = length vs ∧ vertex_rank vx' = 0).
Proof.
  intros Hsk Hx. apply (f_equal (λ l, l !! x)) in Hsk.
  unfold skeleton in Hsk. rewrite list_lookup_fmap, Hx in Hsk. cbn in Hsk.
  symmetry in Hsk. apply lookup_app_Some in Hsk as [Hsk|[Hge Hsk]].
  - rewrite list_lookup_fmap in Hsk. destruct (vs !! x) as [vx|]; [|done].
    left. exists vx. cbn in Hsk. split; [done|]. split; congruence.
  - rewrite length_fmap in Hge, Hsk.
    apply list_lookup_singleton_Some in Hsk as [Hx0 Heq].
    right. split; [lia|]. split; congruence.
Qed.

Lemma skeleton_app_old vs vs' c ty x vx :
  skeleton vs' = skeleton vs ++ [(c, ty, length vs, 0)] →
  vs !! x = Some vx →
  ∃ vx', vs' !! x = Some vx' ∧
         vertex_predecessor vx' = vertex_predecessor vx ∧
         vertex_rank vx' = vertex_rank vx.
Proof.
  intros Hsk Hx. pose proof (lookup_lt_Some _ _ _ Hx) as Hlt.
  assert (x < length vs') as Hlt'.
  { apply (f_equal length) in Hsk. unfold skeleton in Hsk.
    rewrite length_app, !length_fmap in Hsk. cbn in Hsk. lia. }
  destruct (lookup_lt_is_Some_2 _ _ Hlt') as [vx' Hx'].
  exists vx'. split; [done|].
  destruct (skeleton_app_lookup _ _ _ _ _ _ Hsk Hx') as [(vx0 & Hx0 & ? & ?)|[-> _]];
    [|lia].
  assert (vx0 = vx) as -> by congruence. done.
Qed.

Lemma skeleton_app_new vs vs' c ty :
  skeleton vs' = skeleton vs ++ [(c, ty, length vs, 0)] →
  length vs' = S (length vs) ∧
  ∃ vn, vs' !! length vs = Some vn ∧
        vertex_predecessor vn = length vs ∧ vertex_rank vn = 0.
Proof.
  intros Hsk.
  assert (length vs' = S (length vs)) as Hlen.
  { apply (f_equal length) in Hsk. unfold skeleton in Hsk.
    rewrite length_app, !length_fmap in Hsk. cbn in Hsk. lia. }
  split; [done|].
  destruct (lookup_lt_is_Some_2 vs' (length vs)) as [vn Hn]; [lia|].
  exists vn. split; [done|].
  destruct (skeleton_app_lookup _ _ _ _ _ _ Hsk Hn) as [(vx0 & Hx0 & ? & ?)|(_ & ? & ?)];
    [|done].
  apply lookup_lt_Some in Hx0. lia.
Qed.

Lemma uf_wf_add_guard (g g' : Graph) c ty :
  skeleton (vertices g')
  = skeleton (vertices g) ++ [(c, ty, length (vertices g), 0)] →
  edges g' = edges g →
  uf_wf g → uf_wf g'.
Proof.
  intros Hsk He [[Hlt Hup Hcl] Helt Hc].
  destruct (skeleton_app_new _ _ _ _ Hsk) as (Hlen & vn & Hn & Hpn & Hrn).
  assert (∀ x y, connected g' x y ↔ connected g x y) as Hconn.
  { intros x y. unfold connected, adjacent. by rewrite He. }
  assert (∀ x r, repr (vertices g') x r →
                 (x = length (vertices g) ∧ r = x) ∨ repr (vertices g) x r) as Hrepr.
  { induction 1 as [x vx' Hx' Hp|x vx' r Hx' Hp Hr IH].
    - destruct (skeleton_app_lookup _ _ _ _ _ _ Hsk Hx') as [(vx & Hx & Hpe & _)|[-> _]];
        [|by left].
      right. eapply repr_root; [done|congruence].
    - destruct (skeleton_app_lookup _ _ _ _ _ _ Hsk Hx') as [(vx & Hx & Hpe & _)|(-> & ? & _)];
        [|congruence].
      right. destruct IH as [[Hpl _]|IH].
      + pose proof (Hlt x vx Hx). lia.
      + eapply repr_step; [done|congruence|]. by rewrite Hpe. }
  split; [split|..].
  - intros x vx' Hx'. rewrite Hlen.
    destruct (skeleton_app_lookup _ _ _ _ _ _ Hsk Hx') as [(vx & Hx & <- & _)|(_ & -> & _)];
      [|lia].
    pose proof (Hlt x vx Hx). lia.
  - intros x vx' px' Hx' Hp Hpx'.
    destruct (skeleton_app_lookup _ _ _ _ _ _ Hsk Hx') as [(vx & Hx & Hpe & <-)|(-> & ? & _)];
      [|congruence].
    pose proof (Hlt x vx Hx) as Hplt.
    destruct (skeleton_app_lookup _ _ _ _ _ _ Hsk Hpx') as [(px & Hpx & _ & <-)|(Hpn' & _)];
      [|lia].
    rewrite <- Hpe in *. eauto.
  - intros x vx' j Hx' Hj.
    destruct (skeleton_app_lookup _ _ _ _ _ _ Hsk Hx') as [(vx & Hx & _ & Hr)|(-> & _ & Hr)].
    + destruct (Hcl x vx j Hx) as (y & vy & Hy & Hry); [lia|].
      destruct (skeleton_app_old _ _ _ _ _ _ Hsk Hy) as (vy' & Hy' & _ & Hr').
      exists y, vy'. split; [done|]. congruence.
    + exists (length (vertices g)), vn. split; [done|]. lia.
  - intros u v w. rewrite He, Hlen. intros Hin. apply Helt in Hin. lia.
  - intros u v ru rv Hu Hv. rewrite Hconn.
    destruct (Hrepr _ _ Hu) as [[-> ->]|Hu'], (Hrepr _ _ Hv) as [[-> ->]|Hv'].
    + done.
    + pose proof (repr_lt _ _ _ Hv') as [Hvl Hrvl]. split; [lia|].
      intros Hcn.
      destruct (connected_in_range g _ _ _ Helt Hcn) as [Heq|[? ?]]; lia.
    + pose proof (repr_lt _ _ _ Hu') as [Hul Hrul]. split; [lia|].
      intros Hcn.
      destruct (connected_in_range g _ _ _ Helt Hcn) as [Heq|[? ?]]; lia.
    + by apply Hc.
Qed.

(** *** One more edge *)

Lemma uf_wf_add_edge (g g' : Graph) u v w ru rv :
  edges g' = edges g ++ [(u, v, w)] →
  find_set g u = Some ru →
  find_set g v = Some rv →
  link ru rv (vertices g) = Some (vertices g') →
  uf_wf g → uf_wf g'.
Proof.
  intros He Hfu%find_rep_repr Hfv%find_rep_repr Hlink [Hs Helt Hc].
  pose proof (repr_lt _ _ _ Hfu) as [Hult _].
  pose proof (repr_lt _ _ _ Hfv) as [Hvlt _].
  pose proof (λ x y, connected_add_edge g g' u v w x y He) as Hadd.
  destruct (decide (ru = rv)) as [Heq|Hne].
  - (* already one component *)
    subst rv. unfold link in Hlink. rewrite decide_True in Hlink by done.
    injection Hlink as Hvs.
    assert (connected g u v) as Huv by (by apply (Hc u v ru ru)).
    split.
    + by rewrite <- Hvs.
    + intros a b w'. rewrite He, <- Hvs.
      intros [Hin|Hin%list_elem_of_singleton]%elem_of_app; [by eapply Helt|].
      by simplify_eq.
    + intros x y rx ry. rewrite <- Hvs. intros Hx Hy. rewrite (Hc x y rx ry Hx Hy).
      rewrite Hadd. split; [prop_tauto|].
      intros [?|[[H1 H2]|[H1 H2]]]; [done|..].
      * etrans; [exact H1|]. etrans; [exact Huv|done].
      * etrans; [exact H1|]. etrans; [symmetry; exact Huv|done].
  - destruct (repr_is_root _ _ _ Hfu) as (vi & Hi & Hpi).
    destruct (repr_is_root _ _ _ Hfv) as (vj & Hj & Hpj).
    assert (∃ c p, linked (vertices g) (vertices g') c p ∧
                   ((c = ru ∧ p = rv) ∨ (c = rv ∧ p = ru))) as (c & p & Hl & Hcp).
    { destruct (link_linked _ _ _ _ _ _ Hlink Hne Hi Hpi Hj Hpj); eauto 10. }
    pose proof (linked_length _ _ _ _ Hl) as Hlen.
    pose proof (linked_ne _ _ _ _ Hl) as Hcpne.
    split.
    + by eapply linked_shape.
    + intros a b w'. rewrite He, Hlen.
      intros [Hin|Hin%list_elem_of_singleton]%elem_of_app; [by eapply Helt|].
      by simplify_eq.
    + intros x y rx' ry' Hx' Hy'.
      pose proof (repr_lt _ _ _ Hx') as [Hxlt _].
      pose proof (repr_lt _ _ _ Hy') as [Hylt _].
      rewrite Hlen in Hxlt, Hylt.
      destruct (find_set_repr g x Hs Hxlt) as (rx & _ & Hx).
      destruct (find_set_repr g y Hs Hylt) as (ry & _ & Hy).
      pose proof (repr_fun _ _ _ _ Hx' (linked_repr _ _ _ _ _ _ Hl Hx)) as ->.
      pose proof (repr_fun _ _ _ _ Hy' (linked_repr _ _ _ _ _ _ Hl Hy)) as ->.
      rewrite Hadd.
      rewrite <- (Hc x y rx ry Hx Hy), <- (Hc x u rx ru Hx Hfu),
              <- (Hc v y rv ry Hfv Hy), <- (Hc x v rx rv Hx Hfv),
              <- (Hc u y ru ry Hfu Hy).
      clear -Hcp Hcpne. destruct Hcp as [[-> ->]|[-> ->]]; repeat case_decide; lia.
Qed.

Lemma uf_wf_empty : uf_wf (mkGraph (double:=double) [] []).
Proof.
  split; [split|..].
  - by intros x vx.
  - by intros x vx px.
  - by intros x vx j.
  - by intros u v w []%elem_of_nil.
  - intros u v ru rv Hu. apply repr_lt in Hu as [Hu _]. cbn in Hu. lia.
Qed.

(** However the roadmap grows, the union-find keeps agreeing with the
    edges. *)
Lemma graph_growth_uf_wf (g g' : Graph) :
  graph_growth g g' → uf_wf g → uf_wf g'.
Proof.
  intros [Hsk He|c ty Hsk He|u v w ru rv _ He Hu Hv Hl] Hwf.
  - by eapply uf_wf_skeleton.
  - by eapply uf_wf_add_guard.
  - by eapply uf_wf_add_edge.
Qed.

Lemma guards_of_skeleton vs :
  guards vs = (λ t : ptr * GuardType * Vertex * nat, (t.1.1.1, t.1.1.2)) <$> skeleton vs.
Proof. unfold guards, skeleton. by rewrite <- list_fmap_compose. Qed.

Lemma skeleton_guards vs vs' :
  skeleton vs' = skeleton vs → guards vs' = guards vs.
Proof. intros Hsk. by rewrite !guards_of_skeleton, Hsk. Qed.

(** Growth keeps every guard and every edge where it is. *)
Lemma graph_growth_prefix (g g' : Graph) :
  graph_growth g g' →
  guards (vertices g) `prefix_of` guards (vertices g') ∧
  edges g `prefix_of` edges g'.
Proof.
  intros [Hsk He|c ty Hsk He|u v w ru rv Hg He Hu Hv Hl].
  - by rewrite (skeleton_guards _ _ Hsk), He.
  - rewrite He. split; [|done].
    rewrite !guards_of_skeleton, Hsk, fmap_app. by apply prefix_app_r.
  - rewrite Hg, He. split; [done|]. by apply prefix_app_r.
Qed.

Lemma guards_insert vs x vx vx' :
  vs !! x = Some vx →
  vertex_state vx' = vertex_state vx →
  vertex_color vx' = vertex_color vx →
  guards (<[x := vx']> vs) = guards vs.
Proof.
  intros Hx Hs Hc. unfold guards. rewrite list_fmap_insert.
  apply list_insert_id. by rewrite list_lookup_fmap, Hx, Hs, Hc.
Qed.

Lemma link_guards vs vs' i j : link i j vs = Some vs' → guards vs' = guards vs.
Proof.
  unfold link. case_decide as Hij; [by intros [= <-]|].
  destruct (vs !! i) as [vi|] eqn:Hi; [|done].
  destruct (vs !! j) as [vj|] eqn:Hj; [|done]. cbn.
  repeat case_decide; intros [= <-].
  - by eapply guards_insert.
  - rewrite (guards_insert _ j vj).
    + by eapply guards_insert.
    + by rewrite list_lookup_insert_ne.
    + done.
    + done.
  - by eapply guards_insert.
Qed.
End UnionFindFacts.

Section OperationFacts.
Context {State double : Type}.
Variable infinity : double.
Variable distance : State → State → double.
Variable dle : double → double → bool.
Variable checkMotion : State → State → bool.

Abbreviation SPARStwo := (@SPARStwo double).

Lemma deletePairInfo_skeleton (this this' : SPARStwo) (σ σ' : si_state State) v :
  deletePairInfo infinity v this σ = Some (this', σ') →
  ∃ vs', this' = with_vertices vs' this ∧
         skeleton vs' = skeleton (vertices (g_ this)).
Proof.
  unfold deletePairInfo.
  intros (vx & ? & (? & Hv & [= <- <-])%liftO_Some & H)%bind_Some.
  apply bind_Some in H as (ih & ? & _ & [= -> ->]%ret_Some).
  eexists. split; [done|]. by apply skeleton_insert_interface.
Qed.

Lemma abandon_fold_skeleton st (vl : list Vertex) :
  ∀ (this this' : SPARStwo) (σ σ' : si_state State),
    foldM (λ this v,
             b ← mustAbandon distance dle st v this;
             if b : bool then deletePairInfo infinity v this else mret this)
          this vl σ
    = Some (this', σ') →
    ∃ vs', this' = with_vertices vs' this ∧
           skeleton vs' = skeleton (vertices (g_ this)).
Proof.
  induction vl as [|v vl IH]; intros this this' σ σ'; cbn [foldM].
  - intros [= -> ->]%ret_Some. exists (vertices (g_ this)).
    by rewrite with_vertices_id.
  - intros (this1 & σ1 & Hstep & Hrest)%bind_Some.
    assert (∃ vs1, this1 = with_vertices vs1 this ∧
                   skeleton vs1 = skeleton (vertices (g_ this)))
      as (vs1 & -> & Hsk1).
    { apply bind_Some in Hstep as (b & ? & _ & Hstep). destruct b.
      - by eapply deletePairInfo_skeleton.
      - apply ret_Some in Hstep as [= -> ->]. exists (vertices (g_ this)).
        by rewrite with_vertices_id. }
    destruct (IH _ _ _ _ Hrest) as (vs' & -> & Hsk').
    exists vs'. split; [done|]. by rewrite Hsk'.
Qed.

Lemma addGuard_effect (this this' : SPARStwo) (σ σ' : si_state State) st type m :
  addGuard infinity distance dle st type this σ = Some ((m, this'), σ') →
  m = length (vertices (g_ this)) ∧
  ∃ vs' c, this' = with_vertices vs' this ∧
           skeleton vs'
           = skeleton (vertices (g_ this)) ++ [(c, type, length (vertices (g_ this)), 0)].
Proof.
  unfold addGuard. intros (c & σ0 & _ & H)%bind_Some.
  apply bind_Some in H as (this1 & ? & Hab & [= -> -> ->]%ret_Some).
  split; [done|].
  apply abandon_fold_skeleton in Hab as (vs' & -> & Hsk).
  exists vs', c. split; [done|]. rewrite Hsk. cbn. unfold skeleton.
  by rewrite fmap_app.
Qed.

Lemma connect_Some (this this' : SPARStwo) (σ σ' : si_state State) v vp :
  connect distance v vp this σ = Some (this', σ') →
  ∃ vv vvp x y ru rv vs',
    vertices (g_ this) !! v = Some vv ∧
    vertices (g_ this) !! vp = Some vvp ∧
    deref (heap σ) (vertex_state vv) = Some x ∧
    deref (heap σ) (vertex_state vvp) = Some y ∧
    find_set (g_ this) v = Some ru ∧
    find_set (g_ this) vp = Some rv ∧
    link ru rv (vertices (g_ this)) = Some vs' ∧
    σ' = σ ∧
    this' = with_g (mkGraph vs' (edges (g_ this) ++ [(v, vp, distance x y)])) this.
Proof.
  unfold connect, distanceFunction, uniteComponents.
  intros (w & ? & Hw & H)%bind_Some.
  apply bind_Some in Hw as (vv & ? & (? & Hv & [= <- <-])%liftO_Some & Hw).
  apply bind_Some in Hw as (vvp & ? & (? & Hvp & [= <- <-])%liftO_Some & Hw).
  apply si_distance_Some in Hw as (cx & cy & Hx & Hy & [= -> ->]).
  apply bind_Some in H as (ru & ? & (? & Hru & [= <- <-])%liftO_Some & H).
  apply bind_Some in H as (rv & ? & (? & Hrv & [= <- <-])%liftO_Some & H).
  apply bind_Some in H as (vs' & ? & (? & Hl & [= <- <-])%liftO_Some & H).
  apply ret_Some in H as [= -> ->].
  exists vv, vvp, cx, cy, ru, rv, vs'. done.
Qed.

Lemma writeWitness_skeleton (this this' : SPARStwo) (σ σ' : si_state State)
    v vp vpp q s :
  writeWitness infinity distance v vp vpp q s this σ = Some (this', σ') →
  ∃ vs', this' = with_vertices vs' this ∧
         skeleton vs' = skeleton (vertices (g_ this)).
Proof.
  unfold writeWitness. intros (d & ? & _ & H)%bind_Some.
  apply bind_Some in H as (d' & ? & _ & (? & H & [= <- <-])%liftO_Some).
  unfold setData in H. destruct (vertices (g_ this) !! v) as [vx|] eqn:Hv; [|done].
  injection H as <-. eexists. split; [done|]. by apply skeleton_insert_interface.
Qed.

(** What each operation does to the roadmap. *)
Lemma run_graph_growth (o : op) (this this' : SPARStwo) (σ σ' : si_state State) :
  o ≠ OpClear →
  run infinity distance dle checkMotion o this σ = Some (this', σ') →
  graph_growth (g_ this) (g_ this').
Proof.
  intros Ho. destruct o; cbn [run].
  - (* sample *)
    unfold sample. intros H.
    assert (g_ this' = g_ this) as ->; [|by apply growth_none].
    destruct (qNew_ this) as [a|]; [destruct (heap σ !! a)|]; by simplify_eq.
  - (* findGraphNeighbors *)
    unfold findGraphNeighbors. intros (? & ? & _ & H)%bind_Some.
    apply bind_Some in H as (? & ? & _ & [= -> ->]%ret_Some). by apply growth_none.
  - (* checkAddCoverage *)
    intros ([b this1] & ? & H & [= -> ->]%ret_Some)%bind_Some.
    unfold checkAddCoverage in H. destruct (visibleNeighborhood_ this).
    + apply bind_Some in H as ([m this2] & ? & Hadd & [= -> -> ->]%ret_Some).
      apply addGuard_effect in Hadd as (_ & vs' & c & -> & Hsk).
      by eapply growth_guard.
    + apply ret_Some in H as [= -> -> ->]. by apply growth_none.
  - (* addGuard *)
    intros ([m this1] & ? & Hadd & [= -> ->]%ret_Some)%bind_Some.
    apply addGuard_effect in Hadd as (_ & vs' & c & -> & Hsk).
    by eapply growth_guard.
  - (* connect *)
    intros (vv & vvp & x & y & ru & rv & vs' & _ & _ & _ & _ & Hru & Hrv & Hl & _ & ->)%connect_Some.
    eapply growth_edge; [|done|exact Hru|exact Hrv|exact Hl].
    by eapply link_guards.
  - (* writeWitness *)
    intros (vs' & -> & Hsk)%writeWitness_skeleton. by apply growth_none.
  - intros [= -> ->]%ret_Some. by apply growth_none.
  - done.
  - intros [= -> ->]%ret_Some. by apply growth_none.
  - intros [= -> ->]%ret_Some. by apply growth_none.
  - intros [= -> ->]%ret_Some. by apply growth_none.
  - intros [= -> ->]%ret_Some. by apply growth_none.
Qed.

Lemma run_uf_wf (o : op) (this this' : SPARStwo) (σ σ' : si_state State) :
  run infinity distance dle checkMotion o this σ = Some (this', σ') →
  uf_wf (g_ this) → uf_wf (g_ this').
Proof.
  intros Hrun Hwf.
  assert (o = OpClear ∨ o ≠ OpClear) as [->|Hne] by (destruct o; auto).
  - cbn in Hrun. apply clear_Some in Hrun as ->. apply uf_wf_empty.
  - eapply graph_growth_uf_wf; [|done]. by eapply run_graph_growth.
Qed.

Lemma planner_reachable_uf_wf (this : SPARStwo) (σ : si_state State) :
  planner_reachable infinity distance dle checkMotion this σ → uf_wf (g_ this).
Proof.
  induction 1 as [this σ Hg|o this σ this' σ' _ IH Hrun].
  - rewrite Hg. apply uf_wf_empty.
  - by eapply run_uf_wf.
Qed.

(** The connectivity query answers, and says whether a path of edges exists. *)
Lemma sameComponent_spec (this : SPARStwo) u v :
  uf_wf (g_ this) →
  u < milestoneCount this → v < milestoneCount this →
  ∃ b, sameComponent u v this = Some b ∧ (b = true ↔ connected (g_ this) u v).
Proof.
  intros [Hs _ Hc] Hu Hv. unfold milestoneCount in *.
  destruct (find_set_repr (g_ this) u Hs Hu) as (ru & Hfu & Hru).
  destruct (find_set_repr (g_ this) v Hs Hv) as (rv & Hfv & Hrv).
  exists (bool_decide (ru = rv)). split.
  - unfold sameComponent. rewrite Hfu, Hfv. done.
  - rewrite bool_decide_eq_true. by apply Hc.
Qed.

(** Claim C3.  In every state of the roadmap reached by the operations of
    the planner, two guards are in the same set of the union-find exactly
    when a path of edges joins them; [connect u v] adds the edge and leaves
    [u] and [v] in one set; and no operation but the full reset removes a
    guard or an edge. *)
Theorem union_find_agrees_with_edges (this : SPARStwo) (σ : si_state State) :
  planner_reachable infinity distance dle checkMotion this σ →
  (* same component in the union-find iff joined by a path of edges *)
  (∀ u v, u < milestoneCount this → v < milestoneCount this →
     ∃ b, sameComponent u v this = Some b ∧
          (b = true ↔ connected (g_ this) u v)) ∧
  (* connect adds the edge and merges the two components *)
  (∀ u v this' σ',
     connect distance u v this σ = Some (this', σ') →
     (∃ w, edges (g_ this') = edges (g_ this) ++ [(u, v, w)]) ∧
     guards (vertices (g_ this')) = guards (vertices (g_ this)) ∧
     sameComponent u v this' = Some true) ∧
  (* no operation but the full reset removes an edge or a guard *)
  (∀ o this' σ',
     o ≠ OpClear →
     run infinity distance dle checkMotion o this σ = Some (this', σ') →
     guards (vertices (g_ this)) `prefix_of` guards (vertices (g_ this')) ∧
     edges (g_ this) `prefix_of` edges (g_ this')).
Proof.
  intros Hreach. pose proof (planner_reachable_uf_wf this σ Hreach) as Hwf.
  split; [|split].
  - intros u v. by apply sameComponent_spec.
  - intros u v this' σ' Hrun.
    assert (uf_wf (g_ this')) as Hwf'.
    { by eapply (run_uf_wf (OpConnect u v)). }
    pose proof Hrun as
      (vu & vv & x & y & ru & rv & vs' & Hu & Hv & _ & _ & _ & _ & Hl & _ & ->)%connect_Some.
    pose proof (link_guards _ _ _ _ Hl) as Hg. cbn [g_ with_g vertices edges].
    split; [by eauto|]. split; [done|].
    assert (length vs' = length (vertices (g_ this))) as Hlen.
    { apply (f_equal length) in Hg. unfold guards in Hg.
      by rewrite !length_fmap in Hg. }
    destruct (sameComponent_spec
                (with_g (mkGraph vs' (edges (g_ this) ++ [(u, v, distance x y)])) this)
                u v Hwf') as (b & Hb & Hiff).
    { unfold milestoneCount. cbn. rewrite Hlen. by eapply lookup_lt_Some. }
    { unfold milestoneCount. cbn. rewrite Hlen. by eapply lookup_lt_Some. }
    rewrite Hb. f_equal. apply Hiff. apply rtsc_lr. exists (distance x y).
    cbn. apply elem_of_app. right. by apply list_elem_of_singleton.
  - intros o this' σ' Ho Hrun. apply graph_growth_prefix.
    by eapply run_graph_growth.
Qed.
End OperationFacts.

(** * The lifetime of a record, and the planner's accessors *)

Section LifetimeFacts.
Context {State double : Type}.
Variable infinity : double.
Variable distance : State → State → double.

Abbreviation InterfaceData := (InterfaceData double).

Lemma setter_inv sd p s (d : InterfaceData) (σ : si_state State) d' σ' :
  setter distance sd p s d σ = Some (d', σ') →
  ∃ pa sa x y a b,
    safe.get p = Some pa ∧ safe.get s = Some sa ∧
    overwrite (heap σ) (safe.get (slot sd (points_ d)))
              (safe.get (slot sd (sigmas_ d))) pa sa x y a b (heap σ') ∧
    log σ' = log σ ++ overwrite_events (safe.get (slot sd (points_ d)))
                        (safe.get (slot sd (sigmas_ d))) pa sa a b ∧
    slot sd (points_ d') = SafeState (Some a) ∧
    slot sd (sigmas_ d') = SafeState (Some b) ∧
    slot (opposite sd) (points_ d') = slot (opposite sd) (points_ d) ∧
    slot (opposite sd) (sigmas_ d') = slot (opposite sd) (sigmas_ d) ∧
    match safe.get (slot (opposite sd) (points_ d)) with
    | Some c => ∃ u z, heap σ' !! a = Some u ∧ heap σ' !! c = Some z ∧
                       d_ d' = close_distance distance sd u z
    | None => d_ d' = d_ d
    end.
Proof.
  destruct sd; cbn [setter slot opposite close_distance].
  - intros (pa & sa & x & y & a & b & ? & ? & ? & ? & Hp & Hs & Hd)%setFirst_Some.
    exists pa, sa, x, y, a, b. rewrite Hp, Hs. by repeat (split; [done|]).
  - intros (pa & sa & x & y & a & b & ? & ? & ? & ? & Hp & Hs & Hd)%setSecond_Some.
    exists pa, sa, x, y, a, b. rewrite Hp, Hs. repeat (split; [done|]).
    destruct (safe.get (points_ d).1); [|done].
    destruct Hd as (u & z & ? & ? & ?). eauto.
Qed.

Lemma setter_preserves sd p s (d : InterfaceData) (σ : si_state State) d' σ' :
  record_wf (heap σ) d → d_spec infinity distance (heap σ) d →
  setter distance sd p s d σ = Some (d', σ') →
  record_wf (heap σ') d' ∧ d_spec infinity distance (heap σ') d'.
Proof.
  destruct sd; cbn [setter];
    eauto using setFirst_preserves, setSecond_preserves.
Qed.

Lemma slot_owned sd (d : InterfaceData) c :
  safe.get (slot sd (points_ d)) = Some c ∨
  safe.get (slot sd (sigmas_ d)) = Some c →
  c ∈ owned d.
Proof. intros Hc. apply owned_elem. destruct sd; cbn in Hc; prop_tauto. Qed.

Lemma owned_slots sd (d : InterfaceData) c :
  c ∈ owned d ↔
  safe.get (slot sd (points_ d)) = Some c ∨
  safe.get (slot sd (sigmas_ d)) = Some c ∨
  safe.get (slot (opposite sd) (points_ d)) = Some c ∨
  safe.get (slot (opposite sd) (sigmas_ d)) = Some c.
Proof. rewrite owned_elem. destruct sd; cbn; prop_tauto. Qed.

Lemma slots_apart sd (d : InterfaceData) c :
  NoDup (owned d) →
  (safe.get (slot sd (points_ d)) = Some c →
   safe.get (slot sd (sigmas_ d)) ≠ Some c ∧
   safe.get (slot (opposite sd) (points_ d)) ≠ Some c ∧
   safe.get (slot (opposite sd) (sigmas_ d)) ≠ Some c) ∧
  (safe.get (slot sd (sigmas_ d)) = Some c →
   safe.get (slot (opposite sd) (points_ d)) ≠ Some c ∧
   safe.get (slot (opposite sd) (sigmas_ d)) ≠ Some c).
Proof.
  intros (H12 & H13 & H14 & H23 & H24 & H34)%owned_NoDup.
  unfold apart in *. destruct sd; cbn; naive_solver.
Qed.

(** On a record that owns its configurations, a setter given live
    configurations that are not the record's own runs. *)
Lemma setter_total sd p s pa sa x y (d : InterfaceData) (σ : si_state State) :
  record_wf (heap σ) d →
  safe.get p = Some pa → heap σ !! pa = Some x →
  safe.get s = Some sa → heap σ !! sa = Some y →
  pa ∉ owned d → sa ∉ owned d →
  ∃ d' σ', setter distance sd p s d σ = Some (d', σ').
Proof.
  intros [Hnd Hlive] Hp Hx Hs Hy Hpa Hsa.
  set (old_p := safe.get (slot sd (points_ d))).
  set (old_s := safe.get (slot sd (sigmas_ d))).
  assert (∀ c, old_p = Some c ∨ old_s = Some c → c ∈ owned d) as Hold
    by (intros c; apply slot_owned).
  assert (old_p ≠ Some pa ∧ old_p ≠ Some sa ∧ old_s ≠ Some sa)
    as (Hppa & Hpsa & Hssa) by naive_solver.
  set (h1 := released old_p (heap σ)).
  set (a := allocState h1).
  set (h3 := released old_s (<[a:=x]> h1)).
  set (b := allocState h3).
  assert (∀ o, old_s = Some o → is_Some (heap σ !! o) ∧ old_p ≠ Some o) as Hos.
  { intros o Ho. split; [by apply Hlive, Hold; right|].
    intros Hpo. by destruct (proj1 (slots_apart sd d o Hnd) Hpo) as [? _]. }
  assert (overwrite (heap σ) old_p old_s pa sa x y a b (<[b:=y]> h3)) as How.
  { assert (is_Some (heap σ !! pa)) as Hlpa by eauto.
    assert (is_Some (heap σ !! sa)) as Hlsa by eauto.
    destruct (replace_frame old_p x _ sa Hlsa Hpsa) as [? Hh2sa].
    constructor; try done.
    - destruct old_p as [o|] eqn:E; [|done]. by apply Hlive, Hold; left.
    - subst h1. by rewrite released_frame.
    - fold h1. fold a. destruct old_s as [o|] eqn:E; [|done].
      destruct (Hos o eq_refl) as [Hlo Hpo].
      cbn. subst a h1. by rewrite (proj2 (replace_frame _ x _ o Hlo Hpo)).
    - fold h1. fold a. rewrite released_frame by done.
      subst a h1. by rewrite Hh2sa. }
  destruct (overwrite_new _ _ _ _ _ _ _ _ _ _ How Hos) as (Ha & Hb & Hab).
  set (σ' := SiState (<[b:=y]> h3)
               (log σ ++ overwrite_events old_p old_s pa sa a b)).
  assert (∀ c, safe.get (slot (opposite sd) (points_ d)) = Some c →
               ∃ z, heap σ' !! c = Some z) as Hopp.
  { intros c Hc.
    assert (is_Some (heap σ !! c)) as [z Hz].
    { apply Hlive, owned_slots with sd. prop_tauto. }
    exists z. unfold σ'; cbn [heap].
    destruct (overwrite_frame _ _ _ _ _ _ _ _ _ _ c How) as (_ & _ & ->);
      [by eauto| | |done]; intros E'.
    - by destruct (proj1 (slots_apart sd d c Hnd) E') as (_ & ? & _).
    - by destruct (proj2 (slots_apart sd d c Hnd) E') as (? & _). }
  destruct sd; cbn [slot opposite setter] in *.
  - destruct (safe.get (points_ d).2) as [c|] eqn:Hc.
    + destruct (Hopp c eq_refl) as (z & Hz).
      exists (mkInterfaceData (SafeState (Some a), (points_ d).2)
                (SafeState (Some b), (sigmas_ d).2) (distance x z)), σ'.
      apply setFirst_Some. exists pa, sa, x, y, a, b. rewrite Hc.
      repeat (split; [done|]). eauto.
    + exists (mkInterfaceData (SafeState (Some a), (points_ d).2)
                (SafeState (Some b), (sigmas_ d).2) (d_ d)), σ'.
      apply setFirst_Some. exists pa, sa, x, y, a, b. rewrite Hc.
      by repeat (split; [done|]).
  - destruct (safe.get (points_ d).1) as [c|] eqn:Hc.
    + destruct (Hopp c eq_refl) as (z & Hz).
      exists (mkInterfaceData ((points_ d).1, SafeState (Some a))
                ((sigmas_ d).1, SafeState (Some b)) (distance z x)), σ'.
      apply setSecond_Some. exists pa, sa, x, y, a, b. rewrite Hc.
      repeat (split; [done|]). eauto.
    + exists (mkInterfaceData ((points_ d).1, SafeState (Some a))
                ((sigmas_ d).1, SafeState (Some b)) (d_ d)), σ'.
      apply setSecond_Some. exists pa, sa, x, y, a, b. rewrite Hc.
      by repeat (split; [done|]).
Qed.

(** What a run of a setter on such inputs leaves behind. *)
Lemma setter_effect sd p s pa sa x y (d : InterfaceData) (σ : si_state State)
    d' σ' :
  let old_p := safe.get (slot sd (points_ d)) in
  let old_s := safe.get (slot sd (sigmas_ d)) in
  record_wf (heap σ) d →
  safe.get p = Some pa → heap σ !! pa = Some x →
  safe.get s = Some sa → heap σ !! sa = Some y →
  pa ∉ owned d → sa ∉ owned d →
  setter distance sd p s d σ = Some (d', σ') →
  ∃ a b,
    slot sd (points_ d') = SafeState (Some a) ∧
    slot sd (sigmas_ d') = SafeState (Some b) ∧
    slot (opposite sd) (points_ d') = slot (opposite sd) (points_ d) ∧
    slot (opposite sd) (sigmas_ d') = slot (opposite sd) (sigmas_ d) ∧
    heap σ' !! a = Some x ∧ heap σ' !! b = Some y ∧ a ≠ b ∧
    (∀ c, is_Some (heap σ !! c) → old_p ≠ Some c → old_s ≠ Some c →
          c ≠ a ∧ c ≠ b ∧ heap σ' !! c = heap σ !! c) ∧
    (∀ c, c ≠ a → c ≠ b → (old_p = Some c ∨ old_s = Some c) →
          heap σ' !! c = None) ∧
    (∀ c, c ≠ a → c ≠ b → heap σ !! c = None → heap σ' !! c = None) ∧
    log σ' = log σ ++ overwrite_events old_p old_s pa sa a b ∧
    match safe.get (slot (opposite sd) (points_ d)) with
    | Some c => ∃ z, heap σ !! c = Some z ∧
                     d_ d' = close_distance distance sd x z
    | None => d_ d' = d_ d
    end.
Proof.
  intros old_p old_s [Hnd Hlive] Hp Hx Hs Hy Hpa Hsa Hrun.
  apply setter_inv in Hrun
    as (pa' & sa' & x' & y' & a & b & Hp' & Hs' & How & Hlog & Hpt & Hsg
        & Hopt & Hosg & Hd).
  fold old_p old_s in How, Hlog.
  assert (pa' = pa) as -> by congruence. assert (sa' = sa) as -> by congruence.
  assert (∀ c, old_p = Some c ∨ old_s = Some c → c ∈ owned d) as Hold
    by (intros c; apply slot_owned).
  assert (old_p ≠ Some pa ∧ old_p ≠ Some sa ∧ old_s ≠ Some sa)
    as (Hppa & Hpsa & Hssa) by naive_solver.
  assert (∀ o, old_s = Some o → is_Some (heap σ !! o) ∧ old_p ≠ Some o) as Hos.
  { intros o Ho. split; [by apply Hlive, Hold; right|].
    intros Hpo. by destruct (proj1 (slots_apart sd d o Hnd) Hpo) as [? _]. }
  pose proof (λ c, overwrite_frame _ _ _ _ _ _ _ _ _ _ c How) as Hframe.
  destruct (overwrite_new _ _ _ _ _ _ _ _ _ _ How Hos) as (Ha & Hb & Hab).
  destruct (Hframe pa) as (_ & _ & Hpa'); [by eauto|done|naive_solver|].
  destruct (Hframe sa) as (_ & _ & Hsa'); [by eauto|done|done|].
  assert (x' = x) as ->.
  { pose proof (ow_src_p _ _ _ _ _ _ _ _ _ _ How) as E.
    rewrite released_frame in E by done. congruence. }
  assert (y' = y) as ->.
  { pose proof (ow_src_s _ _ _ _ _ _ _ _ _ _ How) as E.
    rewrite released_frame in E by done.
    destruct (replace_frame old_p x (heap σ) sa) as [_ E']; [by eauto|done|].
    rewrite (ow_a _ _ _ _ _ _ _ _ _ _ How) in E. congruence. }
  exists a, b. repeat (split; [done|]).
  split; [|split; [|split; [done|]]].
  - intros c Hca Hcb Hc. rewrite (ow_heap _ _ _ _ _ _ _ _ _ _ How).
    rewrite lookup_insert_ne by done. rewrite released_lookup.
    case_decide; [done|]. rewrite lookup_insert_ne by done.
    rewrite released_lookup. case_decide; [done|]. naive_solver.
  - intros c Hca Hcb Hc. rewrite (ow_heap _ _ _ _ _ _ _ _ _ _ How).
    rewrite lookup_insert_ne by done. rewrite released_lookup.
    case_decide; [done|]. rewrite lookup_insert_ne by done.
    rewrite released_lookup. by case_decide.
  - destruct (safe.get (slot (opposite sd) (points_ d))) as [c|] eqn:Hc; [|done].
    destruct Hd as (u & z & Hu & Hz & Hd). exists z.
    assert (is_Some (heap σ !! c)) as Hl.
    { apply Hlive, owned_slots with sd. prop_tauto. }
    destruct (Hframe c Hl) as (_ & _ & E).
    + intros E'. by destruct (proj1 (slots_apart sd d c Hnd) E') as (_ & ? & _).
    + intros E'. by destruct (proj2 (slots_apart sd d c Hnd) E') as (? & _).
    + split; congruence.
Qed.

Lemma owned_after sd (d d' : InterfaceData) a b c :
  slot sd (points_ d') = SafeState (Some a) →
  slot sd (sigmas_ d') = SafeState (Some b) →
  slot (opposite sd) (points_ d') = slot (opposite sd) (points_ d) →
  slot (opposite sd) (sigmas_ d') = slot (opposite sd) (sigmas_ d) →
  c ∈ owned d' ↔
  c = a ∨ c = b ∨ safe.get (slot (opposite sd) (points_ d)) = Some c ∨
  safe.get (slot (opposite sd) (sigmas_ d)) = Some c.
Proof.
  intros Hpt Hsg Hopt Hosg. rewrite (owned_slots sd d' c), Hpt, Hsg, Hopt, Hosg.
  cbn. naive_solver.
Qed.

(** The record still owns distinct live configurations afterwards. *)
Lemma setter_wf sd p s pa sa x y (d : InterfaceData) (σ : si_state State)
    d' σ' :
  record_wf (heap σ) d →
  safe.get p = Some pa → heap σ !! pa = Some x →
  safe.get s = Some sa → heap σ !! sa = Some y →
  pa ∉ owned d → sa ∉ owned d →
  setter distance sd p s d σ = Some (d', σ') →
  record_wf (heap σ') d'.
Proof.
  intros Hwf Hp Hx Hs Hy Hpa Hsa Hrun.
  destruct (setter_effect sd p s pa sa x y d σ d' σ' Hwf Hp Hx Hs Hy Hpa Hsa Hrun)
    as (a & b & Hpt & Hsg & Hopt & Hosg & Ha & Hb & Hab & Hframe & _).
  destruct Hwf as [Hnd Hlive].
  assert (∀ c, safe.get (slot (opposite sd) (points_ d)) = Some c ∨
               safe.get (slot (opposite sd) (sigmas_ d)) = Some c →
               c ≠ a ∧ c ≠ b ∧ is_Some (heap σ' !! c)) as Hopp.
  { intros c Hc.
    assert (is_Some (heap σ !! c)) as Hl.
    { apply Hlive, owned_slots with sd. prop_tauto. }
    destruct (Hframe c Hl) as (? & ? & ->); [| |done].
    - intros E. destruct (proj1 (slots_apart sd d c Hnd) E) as (_ & ? & ?).
      by destruct Hc.
    - intros E. destruct (proj2 (slots_apart sd d c Hnd) E) as (? & ?).
      by destruct Hc. }
  split.
  - apply owned_NoDup in Hnd as (H12 & H13 & H14 & H23 & H24 & H34).
    apply owned_NoDup. unfold apart in *.
    destruct sd; cbn [slot opposite] in *; rewrite ?Hpt, ?Hsg, ?Hopt, ?Hosg;
      cbn; repeat split; intros c; intros; simplify_eq;
      try (destruct (Hopp c) as (? & ? & _); [prop_tauto|]; done); eauto.
  - intros c Hin.
    apply (owned_after sd d d' a b c Hpt Hsg Hopt Hosg) in Hin
      as [->|[->|Hc]]; [by eexists..|].
    by destruct (Hopp c Hc) as (_ & _ & ?).
Qed.

Lemma clones_app l1 l2 : clones (l1 ++ l2) = clones l1 + clones l2.
Proof. induction l1 as [|[] l1 IH]; cbn; lia. Qed.

Lemma frees_app l1 l2 : frees (l1 ++ l2) = frees l1 + frees l2.
Proof. induction l1 as [|[] l1 IH]; cbn; lia. Qed.

Lemma counts_of_frees (l : list loc) :
  clones (EvFree <$> l) = 0 ∧ frees (EvFree <$> l) = length l.
Proof. induction l as [|a l [IH1 IH2]]; cbn; [done|]. split; congruence. Qed.

Lemma counts_of_overwrite op os pa sa a b :
  clones (overwrite_events op os pa sa a b) = 2 ∧
  frees (overwrite_events op os pa sa a b)
  = length (free_events op) + length (free_events os).
Proof. by destruct op, os. Qed.

Lemma owned_length_after sd (d d' : InterfaceData) a b :
  slot sd (points_ d') = SafeState (Some a) →
  slot sd (sigmas_ d') = SafeState (Some b) →
  slot (opposite sd) (points_ d') = slot (opposite sd) (points_ d) →
  slot (opposite sd) (sigmas_ d') = slot (opposite sd) (sigmas_ d) →
  length (owned d') + length (free_events (safe.get (slot sd (points_ d))))
  + length (free_events (safe.get (slot sd (sigmas_ d))))
  = length (owned d) + 2.
Proof.
  destruct d as [[[p1] [p2]] [[s1] [s2]] dd].
  destruct d' as [[[p1'] [p2']] [[s1'] [s2']] dd'].
  destruct sd; cbn; intros; simplify_eq;
    destruct p1, p2, s1, s2; cbn; lia.
Qed.

Lemma free_events_elem (p : ptr) c : EvFree c ∈ free_events p ↔ p = Some c.
Proof.
  destruct p as [a|]; cbn; [|by rewrite elem_of_nil].
  rewrite list_elem_of_singleton. naive_solver.
Qed.

Lemma overwrite_events_free op os pa sa a b c :
  EvFree c ∈ overwrite_events op os pa sa a b → op = Some c ∨ os = Some c.
Proof.
  unfold overwrite_events.
  rewrite !elem_of_app, !free_events_elem, !list_elem_of_singleton.
  naive_solver.
Qed.

(** One more setter, given configurations of the caller. *)
Lemma lifetime_step h0 sd p s pa sa x y (d : InterfaceData)
    (σ : si_state State) evs l0 :
  record_wf (heap σ) d → lifetime_inv h0 d σ evs → log σ = l0 ++ evs →
  safe.get p = Some pa → h0 !! pa = Some x →
  safe.get s = Some sa → h0 !! sa = Some y →
  ∃ d' σ' evs',
    setter distance sd p s d σ = Some (d', σ') ∧
    record_wf (heap σ') d' ∧ lifetime_inv h0 d' σ' evs' ∧
    log σ' = l0 ++ evs' ∧ clones evs' = clones evs + 2.
Proof.
  intros Hwf [Hown Hrest Hbal Hfr] Hlog Hp Hx Hs Hy.
  assert (∀ c v, h0 !! c = Some v → (c ∉ owned d) ∧ heap σ !! c = Some v)
    as Hcaller.
  { intros c v Hc.
    assert (c ∉ owned d) as Hno.
    { intros Hin. apply Hown in Hin. congruence. }
    by rewrite Hrest. }
  destruct (Hcaller pa x Hx) as [Hpa Hxσ].
  destruct (Hcaller sa y Hy) as [Hsa Hyσ].
  destruct (setter_total sd p s pa sa x y d σ Hwf Hp Hxσ Hs Hyσ Hpa Hsa)
    as (d' & σ' & Hrun).
  pose proof (setter_wf sd p s pa sa x y d σ d' σ' Hwf Hp Hxσ Hs Hyσ Hpa Hsa Hrun)
    as Hwf'.
  destruct (setter_effect sd p s pa sa x y d σ d' σ' Hwf Hp Hxσ Hs Hyσ Hpa Hsa Hrun)
    as (a & b & Hpt & Hsg & Hopt & Hosg & Ha & Hb & Hab & Hframe & Hgone & Hnone
        & Hlog' & _).
  set (old_p := safe.get (slot sd (points_ d))) in *.
  set (old_s := safe.get (slot sd (sigmas_ d))) in *.
  assert (∀ c, old_p = Some c ∨ old_s = Some c → c ∈ owned d) as Hold
    by (intros c; apply slot_owned).
  assert (∀ c v, h0 !! c = Some v → c ≠ a ∧ c ≠ b ∧ heap σ' !! c = Some v)
    as Hkept.
  { intros c v Hc. destruct (Hcaller c v Hc) as [Hno Hcσ].
    destruct (Hframe c) as (? & ? & ->); [by eauto|naive_solver..|done]. }
  exists d', σ', (evs ++ overwrite_events old_p old_s pa sa a b).
  split; [done|]. split; [done|]. split; [|split].
  - split.
    + intros c [->|[->|Hc]]%(owned_after sd d d' a b c Hpt Hsg Hopt Hosg).
      * destruct (h0 !! a) as [v|] eqn:E; [|done]. by destruct (Hkept a v E).
      * destruct (h0 !! b) as [v|] eqn:E; [|done].
        by destruct (Hkept b v E) as (_ & ? & _).
      * apply Hown, owned_slots with sd. prop_tauto.
    + intros c Hc.
      assert (c ≠ a ∧ c ≠ b ∧
              safe.get (slot (opposite sd) (points_ d)) ≠ Some c ∧
              safe.get (slot (opposite sd) (sigmas_ d)) ≠ Some c)
        as (Hca & Hcb & Hcp & Hcs).
      { rewrite (owned_after sd d d' a b c Hpt Hsg Hopt Hosg) in Hc.
        naive_solver. }
      destruct (decide (old_p = Some c ∨ old_s = Some c)) as [Hc'|Hc'].
      * rewrite Hgone by done. symmetry. by apply Hown, Hold.
      * assert (c ∉ owned d) as Hno.
        { rewrite (owned_slots sd d c). naive_solver. }
        rewrite <- (Hrest c Hno).
        destruct (heap σ !! c) as [v|] eqn:E.
        -- destruct (Hframe c) as (_ & _ & ->); [by eauto|naive_solver..|done].
        -- by apply Hnone.
    + rewrite clones_app, frees_app.
      destruct (counts_of_overwrite old_p old_s pa sa a b) as [-> ->].
      pose proof (owned_length_after sd d d' a b Hpt Hsg Hopt Hosg) as Hlen.
      fold old_p old_s in Hlen. lia.
    + intros c [Hc|Hc%overwrite_events_free]%elem_of_app; [by auto|].
      by apply Hown, Hold.
  - by rewrite Hlog', Hlog, app_assoc.
  - rewrite clones_app.
    by destruct (counts_of_overwrite old_p old_s pa sa a b) as [-> _].
Qed.

Lemma run_setters_lifetime h0 ops :
  ∀ (d : InterfaceData) (σ : si_state State) evs l0,
    record_wf (heap σ) d → lifetime_inv h0 d σ evs → log σ = l0 ++ evs →
    Forall (λ o : side * safeState * safeState,
              is_Some (deref h0 (safe.get o.1.2)) ∧
              is_Some (deref h0 (safe.get o.2))) ops →
    ∃ d1 σ1 evs1,
      run_setters distance ops d σ = Some (d1, σ1) ∧
      record_wf (heap σ1) d1 ∧ lifetime_inv h0 d1 σ1 evs1 ∧
      log σ1 = l0 ++ evs1 ∧ clones evs1 = clones evs + 2 * length ops.
Proof.
  induction ops as [|[[sd p] s] ops IH]; intros d σ evs l0 Hwf Hinv Hlog Hops.
  - exists d, σ, evs. cbn. repeat (split; [done|]). lia.
  - apply Forall_cons in Hops as [[[x Hx] [y Hy]] Hops]. cbn in Hx, Hy.
    destruct (safe.get p) as [pa|] eqn:Hp; [|done].
    destruct (safe.get s) as [sa|] eqn:Hs; [|done].
    cbn in Hx, Hy.
    destruct (lifetime_step h0 sd p s pa sa x y d σ evs l0
                Hwf Hinv Hlog Hp Hx Hs Hy)
      as (d' & σ' & evs' & Hrun & Hwf' & Hinv' & Hlog' & Hcl).
    destruct (IH d' σ' evs' l0 Hwf' Hinv' Hlog' Hops)
      as (d1 & σ1 & evs1 & Hrun1 & Hwf1 & Hinv1 & Hlog1 & Hcl1).
    exists d1, σ1, evs1. split.
    + unfold run_setters. cbn [foldM]. apply bind_Some.
      exists d', σ'. by split.
    + repeat (split; [done|]). cbn [length]. lia.
Qed.

(** Property X2.  From the constructor to [clearInterfaceData], whatever is
    written in between from configurations of the caller: every call
    returns, the record releases exactly what it cloned (two clones and two
    releases for each write), it never releases a configuration of the
    caller, and the heap ends as it began. *)
Theorem record_lifetime_releases_every_clone
    (ops : list (side * safeState * safeState)) (σ0 : si_state State) :
  Forall (λ o : side * safeState * safeState,
            is_Some (deref (heap σ0) (safe.get o.1.2)) ∧
            is_Some (deref (heap σ0) (safe.get o.2))) ops →
  ∃ d σ1 σ2 evs,
    run_setters distance ops (InterfaceData_new infinity) σ0 = Some (d, σ1) ∧
    clearInterfaceData infinity d σ1 = Some (InterfaceData_new infinity, σ2) ∧
    heap σ0 ⊆ heap σ1 ∧
    heap σ2 = heap σ0 ∧
    log σ2 = log σ0 ++ evs ∧
    clones evs = 2 * length ops ∧ frees evs = 2 * length ops ∧
    (∀ a, EvFree a ∈ evs → heap σ0 !! a = None).
Proof.
  intros Hops.
  destruct (run_setters_lifetime (heap σ0) ops (InterfaceData_new infinity)
              σ0 [] (log σ0)) as (d & σ1 & evs1 & Hrun & Hwf & Hinv & Hlog & Hcl).
  { apply record_new_wf. }
  { split; [by intros a []%elem_of_nil|done|done|by intros a []%elem_of_nil]. }
  { by rewrite app_nil_r. }
  { done. }
  destruct (clearInterfaceData_total infinity d σ1 Hwf)
    as (σ2 & Hclear & Hgone & Hkept & Hlog2).
  destruct Hinv as [Hown Hrest Hbal Hfr].
  exists d, σ1, σ2, (evs1 ++ (EvFree <$> owned d)).
  split; [done|]. split; [done|]. split; [|split; [|split; [|split; [|split]]]].
  - apply map_subseteq_spec. intros a v Ha. rewrite Hrest; [done|].
    intros Hin. apply Hown in Hin. congruence.
  - apply map_eq. intros a. destruct (decide (a ∈ owned d)) as [Hin|Hnin].
    + by rewrite Hgone, Hown.
    + by rewrite Hkept, Hrest.
  - by rewrite Hlog2, Hlog, app_assoc.
  - rewrite clones_app. destruct (counts_of_frees (owned d)) as [-> _].
    cbn in Hcl. lia.
  - rewrite frees_app. destruct (counts_of_frees (owned d)) as [_ ->].
    cbn in Hcl. lia.
  - intros a [Ha|Ha]%elem_of_app; [by auto|].
    apply list_elem_of_fmap in Ha as (c & [= <-] & Hc). by apply Hown.
Qed.

(** A setter seen through the configurations the record holds. *)
Lemma setter_contents sd p s x y (d : InterfaceData) (σ : si_state State) :
  record_wf (heap σ) d →
  foreign (heap σ) d p x → foreign (heap σ) d s y →
  ∃ d' σ',
    setter distance sd p s d σ = Some (d', σ') ∧
    record_wf (heap σ') d' ∧
    slot_values (heap σ') d' sd = (Some x, Some y) ∧
    slot_values (heap σ') d' (opposite sd)
    = slot_values (heap σ) d (opposite sd) ∧
    d_ d' = match (slot_values (heap σ) d (opposite sd)).1 with
            | Some z => close_distance distance sd x z
            | None => d_ d
            end ∧
    (∀ q v, foreign (heap σ) d q v → foreign (heap σ') d' q v).
Proof.
  intros Hwf (pa & Hp & Hx & Hpa) (sa & Hs & Hy & Hsa).
  destruct (setter_total sd p s pa sa x y d σ Hwf Hp Hx Hs Hy Hpa Hsa)
    as (d' & σ' & Hrun).
  pose proof (setter_wf sd p s pa sa x y d σ d' σ' Hwf Hp Hx Hs Hy Hpa Hsa Hrun)
    as Hwf'.
  destruct (setter_effect sd p s pa sa x y d σ d' σ' Hwf Hp Hx Hs Hy Hpa Hsa Hrun)
    as (a & b & Hpt & Hsg & Hopt & Hosg & Ha & Hb & Hab & Hframe & _ & _ & _ & Hd).
  destruct Hwf as [Hnd Hlive].
  assert (∀ c, safe.get (slot (opposite sd) (points_ d)) = Some c ∨
               safe.get (slot (opposite sd) (sigmas_ d)) = Some c →
               heap σ' !! c = heap σ !! c) as Hopp.
  { intros c Hc.
    assert (is_Some (heap σ !! c)) as Hl.
    { apply Hlive, owned_slots with sd. prop_tauto. }
    destruct (Hframe c Hl) as (? & ? & ->); [| |done].
    - intros E. destruct (proj1 (slots_apart sd d c Hnd) E) as (_ & ? & ?).
      by destruct Hc.
    - intros E. destruct (proj2 (slots_apart sd d c Hnd) E) as (? & ?).
      by destruct Hc. }
  exists d', σ'. split; [done|]. split; [done|].
  split; [|split; [|split]].
  - unfold slot_values. rewrite Hpt, Hsg. cbn. by rewrite Ha, Hb.
  - unfold slot_values. rewrite Hopt, Hosg. f_equal.
    + destruct (safe.get (slot (opposite sd) (points_ d))) as [c|] eqn:E; [|done].
      cbn. apply Hopp. by left.
    + destruct (safe.get (slot (opposite sd) (sigmas_ d))) as [c|] eqn:E; [|done].
      cbn. apply Hopp. by right.
  - unfold slot_values. cbn [fst].
    destruct (safe.get (slot (opposite sd) (points_ d))) as [c|]; [|done].
    destruct Hd as (z & Hz & ->). cbn. by rewrite Hz.
  - intros q v (c & Hq & Hv & Hc). exists c. split; [done|].
    destruct (Hframe c) as (Hca & Hcb & ->); [by eauto| | |].
    + intros E. apply Hc, (slot_owned sd). by left.
    + intros E. apply Hc, (slot_owned sd). by right.
    + split; [done|].
      rewrite (owned_after sd d d' a b c Hpt Hsg Hopt Hosg).
      intros [?|[?|Hin]]; [done..|].
      apply Hc, owned_slots with sd. prop_tauto.
Qed.

(** Property X8.  On a record that owns its configurations, [setFirst] and
    [setSecond] given configurations of the caller can be run in either
    order: both orders return, and the record holds the same four
    configurations and the same distance, that of the two new close
    points. *)
Theorem setFirst_and_setSecond_commute p1 s1 p2 s2 x1 y1 x2 y2
    (d : InterfaceData) (σ : si_state State) :
  record_wf (heap σ) d →
  foreign (heap σ) d p1 x1 → foreign (heap σ) d s1 y1 →
  foreign (heap σ) d p2 x2 → foreign (heap σ) d s2 y2 →
  ∃ dA σA dB σB,
    (setFirst distance p1 s1 d ≫= setSecond distance p2 s2) σ
    = Some (dA, σA) ∧
    (setSecond distance p2 s2 d ≫= setFirst distance p1 s1) σ
    = Some (dB, σB) ∧
    contents (heap σA) dA = contents (heap σB) dB ∧
    contents (heap σA) dA
    = ((Some x1, Some y1), (Some x2, Some y2), distance x1 x2) ∧
    record_wf (heap σA) dA ∧ record_wf (heap σB) dB.
Proof.
  intros Hwf Hp1 Hs1 Hp2 Hs2.
  destruct (setter_contents first p1 s1 x1 y1 d σ Hwf Hp1 Hs1)
    as (d1 & σ1 & Hrun1 & Hwf1 & Hv1 & Ho1 & Hd1 & Hfor1).
  destruct (setter_contents second p2 s2 x2 y2 d1 σ1 Hwf1
              (Hfor1 _ _ Hp2) (Hfor1 _ _ Hs2))
    as (dA & σA & HrunA & HwfA & HvA & HoA & HdA & _).
  destruct (setter_contents second p2 s2 x2 y2 d σ Hwf Hp2 Hs2)
    as (d2 & σ2 & Hrun2 & Hwf2 & Hv2 & Ho2 & Hd2 & Hfor2).
  destruct (setter_contents first p1 s1 x1 y1 d2 σ2 Hwf2
              (Hfor2 _ _ Hp1) (Hfor2 _ _ Hs1))
    as (dB & σB & HrunB & HwfB & HvB & HoB & HdB & _).
  cbn [opposite setter] in *.
  assert (contents (heap σA) dA
          = ((Some x1, Some y1), (Some x2, Some y2), distance x1 x2)) as HA.
  { unfold contents. rewrite HvA, HoA, Hv1, HdA, Hv1. done. }
  assert (contents (heap σB) dB
          = ((Some x1, Some y1), (Some x2, Some y2), distance x1 x2)) as HB.
  { unfold contents. rewrite HvB, HoB, Hv2, HdB, Hv2. done. }
  exists dA, σA, dB, σB. split; [|split; [|split; [congruence|done]]].
  - apply bind_Some. by exists d1, σ1.
  - apply bind_Some. by exists d2, σ2.
Qed.

(** Property X9.  Writing a side twice leaves in the record what the second
    write alone leaves: the same configurations on both sides and the same
    distance. *)
Theorem setter_last_write_wins sd p s p' s' x y x' y'
    (d : InterfaceData) (σ : si_state State) :
  record_wf (heap σ) d →
  foreign (heap σ) d p x → foreign (heap σ) d s y →
  foreign (heap σ) d p' x' → foreign (heap σ) d s' y' →
  ∃ dA σA dB σB,
    (setter distance sd p s d ≫= setter distance sd p' s') σ = Some (dA, σA) ∧
    setter distance sd p' s' d σ = Some (dB, σB) ∧
    contents (heap σA) dA = contents (heap σB) dB.
Proof.
  intros Hwf Hp Hs Hp' Hs'.
  destruct (setter_contents sd p s x y d σ Hwf Hp Hs)
    as (d1 & σ1 & Hrun1 & Hwf1 & Hv1 & Ho1 & Hd1 & Hfor1).
  destruct (setter_contents sd p' s' x' y' d1 σ1 Hwf1
              (Hfor1 _ _ Hp') (Hfor1 _ _ Hs'))
    as (dA & σA & HrunA & HwfA & HvA & HoA & HdA & _).
  destruct (setter_contents sd p' s' x' y' d σ Hwf Hp' Hs')
    as (dB & σB & HrunB & HwfB & HvB & HoB & HdB & _).
  exists dA, σA, dB, σB. split; [|split; [done|]].
  { apply bind_Some. by exists d1, σ1. }
  assert (d_ dA = d_ dB) as Hd.
  { rewrite HdA, HdB, Ho1.
    destruct (slot_values (heap σ) d (opposite sd)).1; [done|].
    by rewrite Hd1. }
  unfold contents. rewrite Hd.
  destruct sd; cbn [opposite] in *; congruence.
Qed.

(** Property X3.  In every record reached from a fresh one, a side has its
    close point exactly when it has its sigma. *)
Theorem reachable_slots_are_paired (σ : si_state State) (d : InterfaceData) :
  reachable infinity distance σ d →
  ∀ sd, is_Some (safe.get (slot sd (points_ d))) ↔
        is_Some (safe.get (slot sd (sigmas_ d))).
Proof.
  induction 1 as [σ|σ d p s d' σ' _ IH Hrun|σ d p s d' σ' _ IH Hrun
                  |σ d d' σ' _ _ Hrun|σ d σ' _ IH _]; intros sd.
  - destruct sd; cbn; by rewrite <- !not_eq_None_Some.
  - apply (setter_inv first) in Hrun
      as (pa & sa & x & y & a & b & _ & _ & _ & _ & Hpt & Hsg & Hopt & Hosg & _).
    specialize (IH second). cbn [slot opposite] in *.
    destruct sd; cbn [slot]; rewrite ?Hpt, ?Hsg, ?Hopt, ?Hosg; [|done].
    cbn. split; eauto.
  - apply (setter_inv second) in Hrun
      as (pa & sa & x & y & a & b & _ & _ & _ & _ & Hpt & Hsg & Hopt & Hosg & _).
    specialize (IH first). cbn [slot opposite] in *.
    destruct sd; cbn [slot]; rewrite ?Hpt, ?Hsg, ?Hopt, ?Hosg; [done|].
    cbn. split; eauto.
  - apply clearInterfaceData_Some in Hrun as (_ & _ & _ & _ & -> & _).
    destruct sd; cbn; by rewrite <- !not_eq_None_Some.
  - apply IH.
Qed.

(** Property X4.  A record reached from a fresh one owns what it points to:
    no two of its four pointers are the same, and each points to a live
    configuration. *)
Theorem reachable_record_owns_its_configurations (σ : si_state State)
    (d : InterfaceData) :
  reachable infinity distance σ d →
  NoDup (owned d) ∧ ∀ a, a ∈ owned d → is_Some (heap σ !! a).
Proof. intros Hr. by destruct (reachable_inv infinity distance σ d Hr) as [? _]. Qed.

Lemma released_is_Some (p : ptr) (h : gmap loc State) a :
  is_Some (released p h !! a) → is_Some (h !! a) ∧ p ≠ Some a.
Proof. rewrite released_lookup. case_decide; [by intros []|done]. Qed.

(** Property X5.  Once a record was cleared, clearing a copy of its earlier
    value, which still holds a pointer, releases a configuration a second
    time: the run fails.  [setNull] in [clearSafeState] is what makes
    clearing the record itself again harmless. *)
Theorem clearing_a_stale_copy_frees_twice (d : InterfaceData)
    (σ : si_state State) d' σ' :
  clearInterfaceData infinity d σ = Some (d', σ') →
  owned d ≠ [] →
  clearInterfaceData infinity d σ' = None.
Proof.
  intros Hclear Hne.
  destruct (clearInterfaceData infinity d σ') as [[d2 σ2]|] eqn:Hagain;
    [exfalso|done].
  apply clearInterfaceData_Some in Hclear as (_ & _ & _ & _ & _ & Hh & _).
  apply clearInterfaceData_Some in Hagain as (H1 & H2 & H3 & H4 & _).
  cbn zeta in *.
  assert (∀ a, a ∈ owned d → heap σ' !! a = None) as Hgone.
  { intros a Ha%owned_elem. rewrite Hh, !released_lookup.
    repeat case_decide; naive_solver. }
  assert (∃ a, a ∈ owned d) as [a Ha].
  { destruct (owned d) as [|a l]; [done|]. exists a. by left. }
  specialize (Hgone a Ha). apply owned_elem in Ha.
  assert (¬ is_Some (heap σ' !! a)) as Hdead by (rewrite Hgone; by intros []).
  destruct Ha as [Ha|[Ha|[Ha|Ha]]]; rewrite Ha in *; cbn in *.
  - done.
  - by apply released_is_Some in H2 as [? _].
  - apply released_is_Some in H3 as [H3 _].
    by apply released_is_Some in H3 as [? _].
  - apply released_is_Some in H4 as [H4 _].
    apply released_is_Some in H4 as [H4 _].
    by apply released_is_Some in H4 as [? _].
Qed.
End LifetimeFacts.

Section ReferenceFacts.
Context {State double : Type}.
Variable distance : State → State → double.

Abbreviation InterfaceData := (InterfaceData double).

(** Bound to holders that are not the record's own, the references are
    the values at the call. *)
Lemma setter_ref_other sd p s (d : InterfaceData) :
  setter_ref distance sd (Other p) (Other s) d = setter distance sd p s d.
Proof. by destruct sd. Qed.

(** The only reference a setter reads after writing to it is the close
    point of the side it writes. *)
Lemma read_with_point sd c r (d : InterfaceData) :
  r ≠ OwnPoint sd → read r (with_point sd c d) = read r d.
Proof. destruct r as [ss|[]|[]], sd; by cbn. Qed.

Lemma setter_ref_agrees sd p s (d : InterfaceData) (σ : si_state State) :
  s ≠ OwnPoint sd →
  setter_ref distance sd p s d σ = setter distance sd (read p d) (read s d) d σ.
Proof.
  intros Hs. destruct sd; cbn [setter_ref setter].
  - unfold setFirst_ref, setFirst, mbind, M_bind.
    destruct (freeIfSet _ σ) as [[[] σ1]|]; [|done].
    destruct (cloneState _ σ1) as [[c σ2]|]; [|done]. cbn zeta.
    by rewrite <- (read_with_point first c s d Hs).
  - unfold setSecond_ref, setSecond, mbind, M_bind.
    destruct (freeIfSet _ σ) as [[[] σ1]|]; [|done].
    destruct (cloneState _ σ1) as [[c σ2]|]; [|done]. cbn zeta.
    by rewrite <- (read_with_point second c s d Hs).
Qed.

Lemma setter_ref_inv sd p s (d : InterfaceData) (σ : si_state State) r :
  let old_p := safe.get (slot sd (points_ d)) in
  let old_s := safe.get (slot sd (sigmas_ d)) in
  setter_ref distance sd p s d σ = Some r →
  ∃ pa x a sa y,
    safe.get (read p d) = Some pa ∧
    released old_p (heap σ) !! pa = Some x ∧
    safe.get (read s (with_point sd (Some a) d)) = Some sa ∧
    null_or_live (<[a:=x]> (released old_p (heap σ))) old_s ∧
    released old_s (<[a:=x]> (released old_p (heap σ))) !! sa = Some y.
Proof.
  intros old_p old_s Hrun.
  assert (∃ r', (freeIfSet old_p ;;
                 c ← cloneState (safe.get (read p d));
                 freeIfSet old_s ;;
                 c' ← cloneState (safe.get (read s (with_point sd c d)));
                 mret (c, c')) σ = Some r' ∧ True) as (r' & Hrun' & _).
  { subst old_p old_s.
    destruct sd; cbn [setter_ref slot with_point] in *;
      [unfold setFirst_ref in Hrun|unfold setSecond_ref in Hrun];
      unfold mbind, M_bind in *;
      (destruct (freeIfSet _ σ) as [[[] σ1]|]; [|done]);
      (destruct (cloneState _ σ1) as [[c σ2]|]; [|done]);
      cbn [points_ sigmas_ d_ fst snd] in *;
      (destruct (freeIfSet _ σ2) as [[[] σ3]|]; [|done]);
      (destruct (cloneState _ σ3) as [[c' σ4]|]; [|done]); eauto. }
  clear Hrun.
  apply bind_Some in Hrun' as ([] & σ1 & [Hl1 [= ->]]%freeIfSet_Some & Hrun).
  apply bind_Some in Hrun
    as (c & σ2 & (x & Hx & pa & Hpa & [= -> ->])%cloneState_Some & Hrun).
  cbn [heap log] in Hrun.
  apply bind_Some in Hrun as ([] & σ3 & [Hl3 [= ->]]%freeIfSet_Some & Hrun).
  apply bind_Some in Hrun
    as (c' & σ4 & (y & Hy & sa & Hsa & _)%cloneState_Some & _).
  cbn [heap log] in *.
  rewrite Hpa in Hx. rewrite Hsa in Hy. cbn [deref] in Hx, Hy.
  exists pa, x, (allocState (released old_p (heap σ))), sa, y. done.
Qed.

(** A null argument, or the occupant of the slot that is written, is read
    when it is not there. *)
Lemma setter_ref_reads_freed sd p s
    (d : InterfaceData) (σ : si_state State) :
  safe.get (read p d) = NULL ∨
  (safe.get (read s d) = NULL ∧ s ≠ OwnPoint sd) ∨
  (is_Some (safe.get (read p d)) ∧
   safe.get (read p d) = safe.get (slot sd (points_ d))) ∨
  (is_Some (safe.get (read s d)) ∧
   safe.get (read s d) = safe.get (slot sd (sigmas_ d))) →
  setter_ref distance sd p s d σ = None.
Proof.
  intros Hbad.
  destruct (setter_ref distance sd p s d σ) as [r|] eqn:Hrun; [exfalso|done].
  apply setter_ref_inv in Hrun as (pa & x & a & sa & y & Hp & Hx & Hs & Hls & Hy).
  destruct Hbad as [Hn|[[Hn Hne]|[[_ Hal]|[[X HX] Hal]]]].
  - congruence.
  - rewrite read_with_point in Hs by done. congruence.
  - rewrite <- Hal, Hp in Hx. cbn in Hx. by rewrite lookup_delete_eq in Hx.
  - rewrite <- Hal, HX in Hy, Hls. cbn in Hy, Hls.
    assert (s = OwnPoint sd ∨ s ≠ OwnPoint sd) as [->|Hne]
      by (destruct s as [?|[]|[]], sd; (by left) || (by right)).
    + assert (sa = a) as ->.
      { destruct sd; cbn in Hs; congruence. }
      assert (a = X) as ->.
      { destruct (decide (a = X)) as [|Hne]; [done|].
        rewrite lookup_insert_ne in Hls by done.
        cbn in HX. rewrite HX in Hls. cbn in Hls.
        rewrite lookup_delete_eq in Hls. by destruct Hls. }
      by rewrite lookup_delete_eq in Hy.
    + rewrite read_with_point in Hs by done.
      assert (sa = X) as -> by congruence.
      by rewrite lookup_delete_eq in Hy.
Qed.

(** The two release-then-clone steps, replayed. *)
Ltac own_point_runs x Hp :=
  apply bind_Some; eexists tt, _; (split; [by apply freeIfSet_Some|]);
  apply bind_Some; eexists _, _;
  (split; [apply cloneState_Some; exists x; rewrite Hp; split; [done|]; eauto|]);
  cbn [heap log points_ sigmas_ d_ fst snd];
  apply bind_Some; eexists tt, _; (split; [by apply freeIfSet_Some|]);
  apply bind_Some; eexists _, _;
  (split; [apply cloneState_Some; exists x; split; [done|]; eauto|]);
  cbn [heap log points_ sigmas_ d_ fst snd safe.get safe.assign st_].

(** With [s] bound to the close point that the call writes, [s] is the new
    clone when it is read. *)
Lemma setter_ref_own_close_point sd p x (d : InterfaceData)
    (σ : si_state State) :
  record_wf (heap σ) d →
  foreign (heap σ) d (read p d) x →
  ∃ d' σ' a b,
    setter_ref distance sd p (OwnPoint sd) d σ = Some (d', σ') ∧
    slot sd (points_ d') = SafeState (Some a) ∧
    slot sd (sigmas_ d') = SafeState (Some b) ∧
    heap σ' !! a = Some x ∧ heap σ' !! b = Some x ∧ a ≠ b.
Proof.
  intros [Hnd Hlive] (pa & Hp & Hx & Hpa).
  set (old_p := safe.get (slot sd (points_ d))).
  set (old_s := safe.get (slot sd (sigmas_ d))).
  set (h1 := released old_p (heap σ)).
  set (a := allocState h1).
  set (h3 := released old_s (<[a:=x]> h1)).
  set (b := allocState h3).
  assert (∀ c, old_p = Some c ∨ old_s = Some c → c ∈ owned d) as Hold
    by (intros c; apply slot_owned).
  assert (null_or_live (heap σ) old_p) as Hlp.
  { destruct old_p as [o|] eqn:E; [|done]. by apply Hlive, Hold; left. }
  assert (h1 !! pa = Some x) as Hx1.
  { subst h1. rewrite released_frame; [done|]. naive_solver. }
  assert (∀ c, is_Some (heap σ !! c) → old_p ≠ Some c → old_s ≠ Some c →
               c ≠ a ∧ h3 !! c = heap σ !! c) as Hframe.
  { intros c Hc Hcp Hcs.
    destruct (replace_frame old_p x (heap σ) c Hc Hcp) as [Hca Hc2].
    split; [done|]. subst h3. by rewrite released_frame. }
  assert (null_or_live (<[a:=x]> h1) old_s) as Hls.
  { destruct old_s as [o|] eqn:E; [|done]. cbn.
    assert (is_Some (heap σ !! o)) as Hlo by (by apply Hlive, Hold; right).
    assert (old_p ≠ Some o) as Hpo.
    { intros Hpo. by destruct (proj1 (slots_apart sd d o Hnd) Hpo) as [? _]. }
    subst a h1. by rewrite (proj2 (replace_frame old_p x _ o Hlo Hpo)). }
  assert (h3 !! a = Some x) as Ha3.
  { subst h3. rewrite released_frame; [by rewrite lookup_insert_eq|].
    intros E. rewrite E in Hls. cbn in Hls.
    assert (is_Some (heap σ !! a)) as Hla by (by apply Hlive, Hold; right).
    assert (old_p ≠ Some a) as Hpa'.
    { intros Hpo. by destruct (proj1 (slots_apart sd d a Hnd) Hpo) as [? _]. }
    by destruct (replace_frame old_p x (heap σ) a Hla Hpa'). }
  assert (a ≠ b) as Hab.
  { intros E. pose proof (allocState_fresh h3) as Hb. fold b in Hb.
    rewrite <- E in Hb. congruence. }
  set (σ' := SiState (<[b:=x]> h3)
               (log σ ++ free_events old_p ++ [EvClone pa a] ++
                free_events old_s ++ [EvClone a b])).
  assert (∀ c, safe.get (slot (opposite sd) (points_ d)) = Some c →
               is_Some (heap σ' !! c)) as Hopp.
  { intros c Hc.
    assert (is_Some (heap σ !! c)) as Hl.
    { apply Hlive, owned_slots with sd. prop_tauto. }
    destruct (Hframe c Hl) as [_ Hc3].
    - intros E. by destruct (proj1 (slots_apart sd d c Hnd) E) as (_ & ? & _).
    - intros E. by destruct (proj2 (slots_apart sd d c Hnd) E) as (? & _).
    - unfold σ'; cbn [heap].
      assert (c ≠ b) as Hcb.
      { intros ->. pose proof (allocState_fresh h3) as Hb. fold b in Hb.
        rewrite Hc3 in Hb. rewrite Hb in Hl. by destruct Hl. }
      rewrite lookup_insert_ne by done. by rewrite Hc3. }
  assert (heap σ' !! a = Some x) as Ha'.
  { unfold σ'; cbn [heap]. by rewrite lookup_insert_ne. }
  assert (heap σ' !! b = Some x) as Hb'.
  { unfold σ'; cbn [heap]. by rewrite lookup_insert_eq. }
  assert (∃ d', setter_ref distance sd p (OwnPoint sd) d σ = Some (d', σ') ∧
                slot sd (points_ d') = SafeState (Some a) ∧
                slot sd (sigmas_ d') = SafeState (Some b)) as (d' & Hrun & ? & ?).
  { destruct sd; cbn [setter_ref slot opposite] in *;
      [unfold setFirst_ref|unfold setSecond_ref].
    - destruct (safe.get (points_ d).2) as [c|] eqn:Hc.
      + destruct (Hopp c eq_refl) as [z Hz].
        exists (mkInterfaceData (SafeState (Some a), (points_ d).2)
                  (SafeState (Some b), (sigmas_ d).2) (distance x z)).
        split; [|done]. own_point_runs x Hp. rewrite Hc.
        apply bind_Some. eexists _, _. split.
        { apply si_distance_Some. exists x, z. cbn [heap deref]. done. }
        unfold σ'. by rewrite <- !app_assoc.
      + exists (mkInterfaceData (SafeState (Some a), (points_ d).2)
                  (SafeState (Some b), (sigmas_ d).2) (d_ d)).
        split; [|done]. own_point_runs x Hp. rewrite Hc.
        unfold σ'. by rewrite <- !app_assoc.
    - destruct (safe.get (points_ d).1) as [c|] eqn:Hc.
      + destruct (Hopp c eq_refl) as [z Hz].
        exists (mkInterfaceData ((points_ d).1, SafeState (Some a))
                  ((sigmas_ d).1, SafeState (Some b)) (distance z x)).
        split; [|done]. own_point_runs x Hp. rewrite Hc.
        apply bind_Some. eexists _, _. split.
        { apply si_distance_Some. exists z, x. cbn [heap deref]. done. }
        unfold σ'. by rewrite <- !app_assoc.
      + exists (mkInterfaceData ((points_ d).1, SafeState (Some a))
                  ((sigmas_ d).1, SafeState (Some b)) (d_ d)).
        split; [|done]. own_point_runs x Hp. rewrite Hc.
        unfold σ'. by rewrite <- !app_assoc. }
  exists d', σ', a, b. done.
Qed.

(** Property X1.  [setFirst] and [setSecond] take [p] and [s] by reference,
    read [p] after the old close point was released and [s] after the new
    one was assigned.  A null [p], a [p] that is the close point of the slot
    written, an [s] that is its sigma, and a null [s] that is not bound to
    the close point written make the run fail; an [s] bound to the close
    point written is the new clone, and the call returns with two clones of
    [p]'s configuration in the slot. *)
Theorem setter_ref_argument_hazards sd p s (d : InterfaceData)
    (σ : si_state State) :
  (safe.get (read p d) = NULL ∨
   (safe.get (read s d) = NULL ∧ s ≠ OwnPoint sd) ∨
   (is_Some (safe.get (read p d)) ∧
    safe.get (read p d) = safe.get (slot sd (points_ d))) ∨
   (is_Some (safe.get (read s d)) ∧
    safe.get (read s d) = safe.get (slot sd (sigmas_ d))) →
   setter_ref distance sd p s d σ = None) ∧
  (∀ x, record_wf (heap σ) d → foreign (heap σ) d (read p d) x →
     ∃ d' σ' a b,
       setter_ref distance sd p (OwnPoint sd) d σ = Some (d', σ') ∧
       slot sd (points_ d') = SafeState (Some a) ∧
       slot sd (sigmas_ d') = SafeState (Some b) ∧
       heap σ' !! a = Some x ∧ heap σ' !! b = Some x ∧ a ≠ b) ∧
  (s ≠ OwnPoint sd →
   setter_ref distance sd p s d σ
   = setter distance sd (read p d) (read s d) d σ).
Proof.
  split; [apply setter_ref_reads_freed|].
  split; [intros x; apply setter_ref_own_close_point|].
  apply setter_ref_agrees.
Qed.
End ReferenceFacts.

Section PlannerFacts.
Context {State double : Type}.
Variable distance : State → State → double.

Abbreviation SPARStwo := (SPARStwo (double := double)).

(** Property X6.  [distanceFunction a b] is the metric on the configurations
    of the guards [a] and [b] and leaves the store alone; it fails when [a]
    or [b] is not a vertex of the graph; and it is symmetric when the
    metric is. *)
Theorem distanceFunction_reads_two_guards (this : SPARStwo)
    (σ : si_state State) :
  guards_live this σ →
  (∀ a b, a < length (vertices (g_ this)) → b < length (vertices (g_ this)) →
     ∃ va vb x y,
       vertices (g_ this) !! a = Some va ∧ vertices (g_ this) !! b = Some vb ∧
       deref (heap σ) (vertex_state va) = Some x ∧
       deref (heap σ) (vertex_state vb) = Some y ∧
       distanceFunction distance a b this σ = Some (distance x y, σ)) ∧
  (∀ a b, length (vertices (g_ this)) ≤ a ∨ length (vertices (g_ this)) ≤ b →
     distanceFunction distance a b this σ = None) ∧
  ((∀ x y, distance x y = distance y x) →
   ∀ a b, distanceFunction distance a b this σ
          = distanceFunction distance b a this σ).
Proof.
  intros Hlive. split; [|split].
  - intros a b Ha Hb.
    destruct (lookup_lt_is_Some_2 (vertices (g_ this)) a Ha) as [va Hva].
    destruct (lookup_lt_is_Some_2 (vertices (g_ this)) b Hb) as [vb Hvb].
    destruct (Hlive a va Hva) as [x Hx]. destruct (Hlive b vb Hvb) as [y Hy].
    exists va, vb, x, y. repeat (split; [done|]).
    unfold distanceFunction. rewrite Hva, Hvb. cbn.
    unfold mbind, M_bind, liftO, si_distance. by rewrite Hx, Hy.
  - intros a b Hab. unfold distanceFunction, mbind, M_bind, liftO.
    destruct (vertices (g_ this) !! a) as [va|] eqn:Hva; [|done].
    destruct (vertices (g_ this) !! b) as [vb|] eqn:Hvb; [|done].
    apply lookup_lt_Some in Hva, Hvb. lia.
  - intros Hsym a b. unfold distanceFunction, mbind, M_bind, liftO, si_distance.
    destruct (vertices (g_ this) !! a) as [va|], (vertices (g_ this) !! b) as [vb|];
      try done.
    destruct (deref (heap σ) (vertex_state va)),
             (deref (heap σ) (vertex_state vb)); try done.
    by rewrite Hsym.
Qed.

(** Property X7.  The four parameters are independent cells: a setter run
    again overwrites, setters of different parameters commute, and the
    failure limit is kept modulo [2^32], so that it is always below
    [2^32]. *)
Theorem parameter_setters_compose (this : SPARStwo) (t t' D D' d d' : double)
    (m m' : Z) :
  (setStretchFactor t (setStretchFactor t' this) = setStretchFactor t this ∧
   setSparseDelta D (setSparseDelta D' this) = setSparseDelta D this ∧
   setDenseDelta d (setDenseDelta d' this) = setDenseDelta d this ∧
   setMaxFailures m (setMaxFailures m' this) = setMaxFailures m this) ∧
  (setStretchFactor t (setSparseDelta D this)
   = setSparseDelta D (setStretchFactor t this) ∧
   setStretchFactor t (setDenseDelta d this)
   = setDenseDelta d (setStretchFactor t this) ∧
   setStretchFactor t (setMaxFailures m this)
   = setMaxFailures m (setStretchFactor t this) ∧
   setSparseDelta D (setDenseDelta d this)
   = setDenseDelta d (setSparseDelta D this) ∧
   setSparseDelta D (setMaxFailures m this)
   = setMaxFailures m (setSparseDelta D this) ∧
   setDenseDelta d (setMaxFailures m this)
   = setMaxFailures m (setDenseDelta d this)) ∧
  (getMaxFailures (setMaxFailures m this) = (m mod 2 ^ 32)%Z ∧
   (0 ≤ getMaxFailures (setMaxFailures m this) < 2 ^ 32)%Z ∧
   setMaxFailures (m + 2 ^ 32) this = setMaxFailures m this).
Proof.
  split; [done|]. split; [done|].
  unfold getMaxFailures, setMaxFailures, to_unsigned. cbn.
  split; [done|]. split; [by apply Z.mod_pos_bound|].
  f_equal. rewrite <- (Z.mul_1_l (2 ^ 32)) at 1. by rewrite Z.mod_add.
Qed.
End PlannerFacts.

(** * Examples on the line *)

Section ExampleFacts.
Context {State double : Type}.
Variable infinity : double.
Variable distance : State → State → double.
Variable dle : double → double → bool.
Variable checkMotion : State → State → bool.

(** What a run of operations leads to is reachable. *)
Lemma run_all_reachable os (this this' : SPARStwo (double := double))
    (σ σ' : si_state State) :
  planner_reachable infinity distance dle checkMotion this σ →
  run_all infinity distance dle checkMotion os this σ = Some (this', σ') →
  planner_reachable infinity distance dle checkMotion this' σ'.
Proof.
  unfold run_all. revert this σ.
  induction os as [|o os IH]; intros this σ Hr Hrun; cbn in Hrun.
  - apply ret_Some in Hrun as [= -> ->]. done.
  - apply bind_Some in Hrun as (this1 & σ1 & Ho & Hrun).
    eapply IH; [|exact Hrun]. by eapply planner_step.
Qed.

(** Ownership in a concrete graph is decided by looking at it. *)
Lemma graph_wf_Forall (this : SPARStwo (double := double)) (σ : si_state State) :
  NoDup (graph_owned (g_ this)) →
  Forall (λ a, is_Some (heap σ !! a)) (graph_owned (g_ this)) →
  Forall (λ vx, is_Some (vertex_state vx)) (vertices (g_ this)) →
  graph_wf this σ.
Proof.
  intros Hnd Hlive Hguard. split; [done| |].
  - intros a Ha. by eapply Forall_forall in Hlive.
  - intros v vx Hv. eapply Forall_forall in Hguard; [done|].
    by eapply list_elem_of_lookup_2.
Qed.

Lemma record_wf_Forall (h : gmap loc State) (d : InterfaceData double) :
  NoDup (owned d) → Forall (λ a, is_Some (h !! a)) (owned d) → record_wf h d.
Proof.
  intros Hnd Hlive. split; [done|].
  intros a Ha. by eapply Forall_forall in Hlive.
Qed.
End ExampleFacts.

Section LineExamples.
Import Line.

(** The roadmap with two guards and an edge, and the records written on
    the way. *)
Lemma planner2_reachable :
  planner_reachable None distance dle checkMotion planner2 store2.
Proof.
  apply (run_all_reachable None distance dle checkMotion ops_roadmap
           planner0 planner2 store0 store2).
  - by apply planner_init.
  - vm_compute. reflexivity.
Qed.

Lemma planner1_wf : graph_wf planner1 store1.
Proof. apply graph_wf_Forall; compute_done. Qed.

Lemma planner2_wf : graph_wf planner2 store2.
Proof. apply graph_wf_Forall; compute_done. Qed.

Lemma record5_wf : record_wf (heap store5) record5.
Proof. apply record_wf_Forall; compute_done. Qed.

Lemma record5_reachable : reachable None distance store5 record5.
Proof.
  eapply (reach_setSecond _ _ store4 record4
            (SafeState (Some 2%positive)) (SafeState (Some 1%positive))).
  - eapply (reach_setFirst _ _ store3 _
              (SafeState (Some 1%positive)) (SafeState (Some 2%positive))).
    + apply reach_new.
    + vm_compute. reflexivity.
  - vm_compute. reflexivity.
Qed.

(** Both close points written, at [5] and at [9]: [d_] is [4]. *)
Lemma d_is_distance_of_close_points_witness :
  reachable None distance store5 record5 ∧
  points_ record5 = (SafeState (Some 3%positive), SafeState (Some 5%positive)) ∧
  heap store5 !! 3%positive = Some 5%Z ∧
  heap store5 !! 5%positive = Some 9%Z ∧
  d_ record5 = Some 4%Z.
Proof.
  split; [exact record5_reachable|].
  repeat (split; [reflexivity|]).
  pose proof (d_is_distance_of_close_points None distance store5 record5
                record5_reachable) as Hd.
  cbn in Hd. destruct Hd as (x & y & Hx & Hy & Hd).
  vm_compute in Hx, Hy. injection Hx as <-. injection Hy as <-.
  exact Hd.
Defined.

(** A first slot that is occupied is written again: its two
    configurations are released, each before the clone that replaces it,
    and [d_] is the distance from the new close point at [9] to the other
    one at [9]. *)
Lemma setter_overwrites_one_slot_witness :
  record_wf (heap store5) record5 ∧
  ∃ d' σ',
    setFirst distance (SafeState (Some 2%positive)) (SafeState (Some 1%positive))
      record5 store5 = Some (d', σ') ∧
    log σ' = log store5 ++
             [EvFree 3%positive; EvClone 2%positive 7%positive;
              EvFree 4%positive; EvClone 1%positive 8%positive] ∧
    d_ d' = Some 0%Z.
Proof.
  split; [exact record5_wf|].
  destruct (setter_overwrites_one_slot distance first
              (SafeState (Some 2%positive)) (SafeState (Some 1%positive))
              2%positive 1%positive 9%Z 5%Z record5 store5)
    as (d' & σ' & a & b & Hrun & _); try (reflexivity || discriminate).
  { exact record5_wf. }
  exists d', σ'. split; [exact Hrun|].
  vm_compute in Hrun. injection Hrun as <- <-. split; reflexivity.
Defined.

(** The two guards joined by [connect] are in one set and joined by a
    path. *)
Lemma union_find_agrees_with_edges_witness :
  planner_reachable None distance dle checkMotion planner2 store2 ∧
  sameComponent 0 1 planner2 = Some true ∧
  connected (g_ planner2) 0 1.
Proof.
  split; [exact planner2_reachable|].
  destruct (union_find_agrees_with_edges None distance dle checkMotion
              planner2 store2 planner2_reachable) as (Hsame & _ & _).
  destruct (Hsame 0 1) as (b & Hb & Hiff);
    [vm_compute; lia | vm_compute; lia |].
  vm_compute in Hb. injection Hb as <-.
  split; [reflexivity|]. by apply Hiff.
Defined.

(** The sample at [1] sees no guard: it is admitted for coverage. *)
Lemma coverage_fires_iff_no_visible_guard_witness :
  graph_wf planner1 store1 ∧
  deref (heap store1) (qNew_ planner1) = Some 1%Z ∧
  ∃ this2 σ2,
    checkAddCoverage None distance dle (with_neighborhoods [0] [] planner1) store1
    = Some ((true, this2), σ2).
Proof.
  split; [exact planner1_wf|]. split; [reflexivity|].
  destruct (coverage_fires_iff_no_visible_guard None distance dle checkMotion
              planner1 store1 1%Z planner1_wf eq_refl)
    as (gn & vn & b & this2 & σ2 & Hfind & Hcheck & Hiff & _).
  vm_compute in Hfind. injection Hfind as <- <-.
  assert (b = true) as -> by by apply Hiff.
  exists this2, σ2. exact Hcheck.
Defined.

(** The guard at [-1] is within the sparse visibility range of the sample
    at [1], the wall hides it, and the sample is admitted for coverage. *)
Lemma coverage_fires_with_a_guard_in_range :
  ¬ (∀ (this : SPARStwo (double := option Z)) (σ : si_state Z) y gn vn this2 σ2,
       graph_wf this σ →
       deref (heap σ) (qNew_ this) = Some y →
       findGraphNeighbors distance dle checkMotion (qNew_ this) this σ
       = Some (with_neighborhoods gn vn this, σ) →
       checkAddCoverage None distance dle (with_neighborhoods gn vn this) σ
       = Some ((true, this2), σ2) →
       ∀ v vx x, vertices (g_ this) !! v = Some vx →
                 deref (heap σ) (vertex_state vx) = Some x →
                 within distance dle this y x = false).
Proof.
  intros Hclaim.
  pose proof (Hclaim planner1 store1 1%Z [0] []
                (planner_of (run_ops (ops_second_sample ++
                   [OpFindGraphNeighbors (Some 1%positive); OpCheckAddCoverage])))
                (store_of (run_ops (ops_second_sample ++
                   [OpFindGraphNeighbors (Some 1%positive); OpCheckAddCoverage])))
                planner1_wf eq_refl eq_refl eq_refl
                0 _ (-1)%Z eq_refl eq_refl) as Hfar.
  vm_compute in Hfar. discriminate Hfar.
Qed.

(** The roadmap is cleared: the six configurations the graph owns are
    released, the sample is not, and one more [clear] changes nothing. *)
Lemma clearing_twice_is_clearing_once_witness :
  record_wf (heap store2) (InterfaceData_new (@None Z)) ∧
  graph_wf planner2 store2 ∧
  ∃ this1 σ1,
    clear None planner2 store2 = Some (this1, σ1) ∧
    milestoneCount this1 = 0 ∧
    log σ1 = log store2 ++
             (EvFree <$> [4; 6; 5; 7; 2; 3]%positive) ∧
    clear None this1 σ1 = Some (this1, σ1).
Proof.
  assert (record_wf (heap store2) (InterfaceData_new (@None Z))) as Hr.
  { apply record_wf_Forall; compute_done. }
  split; [exact Hr|]. split; [exact planner2_wf|].
  destruct (clearing_twice_is_clearing_once None planner2
              (InterfaceData_new (@None Z)) store2 Hr planner2_wf)
    as (_ & _ & _ & (this1 & σ1 & Hclear & Hg & _ & Hagain) & _).
  exists this1, σ1. split; [exact Hclear|].
  vm_compute in Hclear. injection Hclear as <- <-.
  repeat split; try reflexivity.
Defined.

(** A failure limit of [0] and an interface tolerance of [-2] come back as
    given. *)
Lemma setters_getters_round_trip_witness :
  (0 ≤ 0 < 2 ^ 32)%Z ∧
  getMaxFailures (setMaxFailures 0 planner0) = 0%Z ∧
  getDenseDelta (setDenseDelta (Some (-2)%Z) planner0) = Some (-2)%Z.
Proof.
  split; [lia|].
  destruct (setters_getters_round_trip planner0 None None (Some (-2)%Z) 0)
    as (_ & _ & Hd & Hm & _); [lia|].
  split; [exact Hm | exact Hd].
Defined.

(** [-1] handed to [setMaxFailures] comes back as [4294967295]. *)
Lemma setMaxFailures_wraps_negative_input :
  getMaxFailures (setMaxFailures (-1) planner0) = 4294967295%Z ∧
  ¬ (∀ (this : SPARStwo (double := option Z)) (m : Z),
       getMaxFailures (setMaxFailures m this) = m).
Proof.
  split; [reflexivity|].
  intros Hclaim. specialize (Hclaim planner0 (-1)%Z). discriminate Hclaim.
Qed.
End LineExamples.

Section LineRecordExamples.
Import Line.

(** Three writes over the caller's configurations at [5] and [9], then a
    clear: six clones, six releases, and the caller's heap again. *)
Lemma record_lifetime_releases_every_clone_witness :
  ∃ d σ1 σ2,
    run_setters distance
      [(first, SafeState (Some 1%positive), SafeState (Some 2%positive));
       (second, SafeState (Some 2%positive), SafeState (Some 1%positive));
       (first, SafeState (Some 2%positive), SafeState (Some 2%positive))]
      (InterfaceData_new None) store3 = Some (d, σ1) ∧
    clearInterfaceData None d σ1 = Some (InterfaceData_new None, σ2) ∧
    heap σ2 = heap store3 ∧
    clones (log σ2) = 6 ∧ frees (log σ2) = 6.
Proof.
  destruct (record_lifetime_releases_every_clone None distance
              [(first, SafeState (Some 1%positive), SafeState (Some 2%positive));
               (second, SafeState (Some 2%positive), SafeState (Some 1%positive));
               (first, SafeState (Some 2%positive), SafeState (Some 2%positive))]
              store3)
    as (d & σ1 & σ2 & evs & Hrun & Hclear & _ & Hheap & Hlog & Hc & Hf & _).
  { repeat constructor; by eexists. }
  exists d, σ1, σ2. rewrite Hlog.
  split; [exact Hrun|]. split; [exact Hclear|]. split; [exact Hheap|].
  split; [exact Hc|exact Hf].
Defined.

(** Both sides of the record are written: each close point has its
    sigma. *)
Lemma reachable_slots_are_paired_witness :
  reachable None distance store5 record5 ∧
  is_Some (safe.get (points_ record5).2) ∧
  is_Some (safe.get (sigmas_ record5).2).
Proof.
  split; [exact record5_reachable|].
  assert (is_Some (safe.get (points_ record5).2)) as Hp by by eexists.
  split; [exact Hp|].
  by apply (reachable_slots_are_paired None distance store5 record5
              record5_reachable second).
Defined.

Lemma reachable_record_owns_its_configurations_witness :
  reachable None distance store5 record5 ∧
  owned record5 = [3; 5; 4; 6]%positive ∧
  NoDup (owned record5).
Proof.
  split; [exact record5_reachable|]. split; [reflexivity|].
  by destruct (reachable_record_owns_its_configurations None distance
                 store5 record5 record5_reachable) as [? _].
Defined.

(** The record is cleared; a copy made before still holds the four
    pointers, and clearing it fails. *)
Lemma clearing_a_stale_copy_frees_twice_witness :
  ∃ σ',
    clearInterfaceData None record5 store5 = Some (InterfaceData_new None, σ') ∧
    clearInterfaceData None record5 σ' = None.
Proof.
  eexists. split; [vm_compute; reflexivity|].
  eapply (clearing_a_stale_copy_frees_twice None record5 store5).
  - vm_compute. reflexivity.
  - discriminate.
Defined.

(** The record with both sides written is written again, from the caller's
    configurations at [9] and [5], in both orders. *)
Lemma setFirst_and_setSecond_commute_witness :
  record_wf (heap store5) record5 ∧
  ∃ dA σA,
    (setFirst distance (SafeState (Some 2%positive)) (SafeState (Some 1%positive))
       record5
     ≫= setSecond distance (SafeState (Some 1%positive))
          (SafeState (Some 2%positive))) store5 = Some (dA, σA) ∧
    contents (heap σA) dA
    = ((Some 9%Z, Some 5%Z), (Some 5%Z, Some 9%Z), Some 4%Z).
Proof.
  split; [exact record5_wf|].
  destruct (setFirst_and_setSecond_commute distance
              (SafeState (Some 2%positive)) (SafeState (Some 1%positive))
              (SafeState (Some 1%positive)) (SafeState (Some 2%positive))
              9%Z 5%Z 5%Z 9%Z record5 store5 record5_wf)
    as (dA & σA & dB & σB & HA & _ & _ & Hc & _);
    [(eexists; split; [reflexivity|]; split; [reflexivity|compute_done])..|].
  exists dA, σA. split; [exact HA|exact Hc].
Defined.

(** The first side is written from [5] and [9], then from [9] and [5]:
    the record holds the same as if only the second write was made. *)
Lemma setter_last_write_wins_witness :
  record_wf (heap store5) record5 ∧
  ∃ dA σA dB σB,
    (setFirst distance (SafeState (Some 1%positive)) (SafeState (Some 2%positive))
       record5
     ≫= setFirst distance (SafeState (Some 2%positive))
          (SafeState (Some 1%positive))) store5 = Some (dA, σA) ∧
    setFirst distance (SafeState (Some 2%positive)) (SafeState (Some 1%positive))
      record5 store5 = Some (dB, σB) ∧
    contents (heap σA) dA = contents (heap σB) dB.
Proof.
  split; [exact record5_wf|].
  apply (setter_last_write_wins distance first
           (SafeState (Some 1%positive)) (SafeState (Some 2%positive))
           (SafeState (Some 2%positive)) (SafeState (Some 1%positive))
           5%Z 9%Z 9%Z 5%Z record5 store5 record5_wf);
    (eexists; split; [reflexivity|]; split; [reflexivity|compute_done]).
Defined.
End LineRecordExamples.

Section LineReferenceExamples.
Import Line.

Lemma planner2_guards_live : guards_live planner2 store2.
Proof.
  intros v vx Hv. apply list_elem_of_lookup_2 in Hv. revert vx Hv.
  apply Forall_forall. compute_done.
Qed.

(** On the record with both sides written: its first close point handed to
    [setFirst] as [p] is read after it was released; handed over as [s], by
    reference, it is the new clone by the time it is read. *)
Lemma setter_ref_argument_hazards_witness :
  setFirst_ref distance (OwnPoint first) (Other (SafeState (Some 1%positive)))
    record5 store5 = None ∧
  setFirst_ref distance (Other (SafeState (Some 3%positive)))
    (Other (SafeState (Some 1%positive))) record5 store5 = None ∧
  ∃ d' σ' a b,
    setFirst_ref distance (Other (SafeState (Some 1%positive)))
      (OwnPoint first) record5 store5 = Some (d', σ') ∧
    (points_ d').1 = SafeState (Some a) ∧ (sigmas_ d').1 = SafeState (Some b) ∧
    heap σ' !! a = Some 5%Z ∧ heap σ' !! b = Some 5%Z ∧ a ≠ b.
Proof.
  split; [|split].
  - apply (proj1 (setter_ref_argument_hazards distance first
                    (OwnPoint first) (Other (SafeState (Some 1%positive)))
                    record5 store5)).
    right; right; left. split; [by eexists|reflexivity].
  - apply (proj1 (setter_ref_argument_hazards distance first
                    (Other (SafeState (Some 3%positive)))
                    (Other (SafeState (Some 1%positive))) record5 store5)).
    right; right; left. split; [by eexists|reflexivity].
  - apply (proj1 (proj2 (setter_ref_argument_hazards distance first
                           (Other (SafeState (Some 1%positive)))
                           (OwnPoint first) record5 store5))).
    + exact record5_wf.
    + exists 1%positive. split; [reflexivity|]. split; [reflexivity|].
      compute_done.
Defined.

(** The call of a fresh record with [s] bound to its own, null, first close
    point returns. *)
Lemma setFirst_ref_on_a_fresh_record :
  ∃ a b σ',
    setFirst_ref distance (Other (SafeState (Some 1%positive))) (OwnPoint first)
      (InterfaceData_new None) store3
    = Some (mkInterfaceData (SafeState (Some a), safe.new)
              (SafeState (Some b), safe.new) None, σ') ∧
    heap σ' !! a = Some 5%Z ∧ heap σ' !! b = Some 5%Z ∧
    setFirst distance (SafeState (Some 1%positive)) safe.new
      (InterfaceData_new None) store3 = None.
Proof. do 3 eexists. split; [vm_compute; reflexivity|]. by vm_compute. Qed.

(** Guards [0] and [1] are at distance [2]; there is no guard [2]. *)
Lemma distanceFunction_reads_two_guards_witness :
  guards_live planner2 store2 ∧
  distanceFunction distance 0 1 planner2 store2 = Some (Some 2%Z, store2) ∧
  distanceFunction distance 1 0 planner2 store2
  = distanceFunction distance 0 1 planner2 store2 ∧
  distanceFunction distance 0 2 planner2 store2 = None.
Proof.
  split; [exact planner2_guards_live|].
  destruct (distanceFunction_reads_two_guards distance planner2 store2
              planner2_guards_live) as (Hin & Hout & Hsym).
  split; [|split].
  - destruct (Hin 0 1) as (va & vb & x & y & Ha & Hb & Hx & Hy & ->);
      [vm_compute; lia..|].
    vm_compute in Ha, Hb. injection Ha as <-. injection Hb as <-.
    vm_compute in Hx, Hy. injection Hx as <-. injection Hy as <-.
    reflexivity.
  - apply Hsym. intros x y. unfold distance. f_equal. lia.
  - apply Hout. right. vm_compute. lia.
Defined.
End LineReferenceExamples.
